(** * dso-api: the schema-driven presentation engine

    A shallow embedding of these parts of the DSO API:

    - [Paginator]: [rest_framework_dso/paginator.py], the streaming paginator
      and its page bookkeeping;
    - [Permissions]: [dso_api/dynamic_api/permissions.py], request validation
      and the relation-traversing field-access walk;
    - [Expands]: [filter_unauthorized_expands] of the same file;
    - [Factories]: [dso_api/dynamic_api/serializers/factories.py], the cached
      serializer factory and its nesting bound;
    - [Links]: the assembly line and the link serializer factories of the
      same file;
    - [Temporal]: [split_on_separator] of [dso_api/dynamic_api/utils.py] and
      the fields of [dso_api/dynamic_api/fields.py] that use it;
    - [Views]: [get_invalid_params] of [rest_framework_dso/views.py].

    Python integers are unbounded, so they are embedded as [Z].  Python
    exceptions are embedded as an error alternative of the result; a mutation
    made before an exception is raised stays visible, so stateful operations
    return the new state next to their outcome. *)

From stdpp Require Import base option list strings gmap.
From Stdlib Require Import ZArith Lia Ascii DecimalString.

Open Scope Z_scope.

(** The outcome of a Python call: a returned value or a raised exception. *)
Inductive outcome (E A : Type) : Type :=
| Returns (a : A)
| Raises (e : E).
Arguments Returns {E A} a.
Arguments Raises {E A} e.

(* ====================================================================== *)
(** * The streaming paginator *)
(* ====================================================================== *)
Module Paginator.

(** The exceptions that travel through the paginator. *)
Inductive exn : Type :=
| StopIteration
| Http404
| PageNotAnInteger
| EmptyPage
| ValueError.

Section Rows.
Context {A : Type}.

(** Modelled from the spec: [ObservableIterator] of
    [rest_framework_dso.embedding], which [paginator.py] imports and which is
    not among the sources.  The spec: "The page wraps its slice in an
    observable lazy sequence: each pull increments a produced-count".  The
    attributes are the ones [paginator.py] reads: [number_returned],
    [_is_iterated] (set when the wrapped iterator is exhausted) and the
    truth value ([_has_items], found by peeking at the first row). *)
Record ObservableIterator : Type := mkObservableIterator {
  number_returned : Z;
  _iterable : list A;
  _has_items : option bool;
  _is_iterated : bool;
}.

(** Modelled from the spec: [ObservableIterator.__init__], nothing produced
    yet. *)
Definition ObservableIterator_init (iterable : list A) : ObservableIterator :=
  {| number_returned := 0; _iterable := iterable;
     _has_items := None; _is_iterated := false |}.

(** Modelled from the spec: [ObservableIterator.__bool__], which
    [DSOPage.__init__] and [_set_observable_iterator] use to find an empty
    object list: a peek at the first row that does not consume it. *)
Definition ObservableIterator_bool (it : ObservableIterator)
  : ObservableIterator * bool :=
  match _has_items it with
  | Some b => (it, b)
  | None =>
      let b := match _iterable it with [] => false | _ :: _ => true end in
      ({| number_returned := number_returned it; _iterable := _iterable it;
          _has_items := Some b; _is_iterated := _is_iterated it |}, b)
  end.

(** The object list of a page: the [ObservableIterator] built by
    [DSOPage.__init__] around a plain sequence, or the [ObservableQuerySet]
    that a [QuerySet] is cast into, with its rows and the last iterator it
    handed out ([_obs_iterator]). *)
Inductive ObjectList : Type :=
| PlainIterator (it : ObservableIterator)
| ObservableQuerySet (rows : list A) (_obs_iterator : option ObservableIterator).

Record DSOPage : Type := mkDSOPage {
  number : Z;
  per_page : Z;              (* self.paginator.per_page *)
  _length : Z;
  _has_next : option bool;
  object_list : ObjectList;
}.

Definition set_bookkeeping (self : DSOPage) (len : Z) (hn : option bool) : DSOPage :=
  {| number := number self; per_page := per_page self;
     _length := len; _has_next := hn; object_list := object_list self |}.

Definition set_object_list (self : DSOPage) (ol : ObjectList) : DSOPage :=
  {| number := number self; per_page := per_page self;
     _length := _length self; _has_next := _has_next self; object_list := ol |}.

(** The state threaded through a pull: the page and the iterator being
    pulled.  The iterator is one shared object: the callback reads and
    advances the very iterator that is notifying it. *)
Definition pstate : Type := DSOPage * ObservableIterator.

(** [DSOPage._watch_object_list(item, observable_iterator, iterator_is_empty)].
    [item] is not used.  When [observable_iterator] is left out it is
    [self.object_list], the same iterator object, so it is passed here in
    both cases.  [next] is [next(observable_iterator)], the iterator's own
    pull. *)
Definition _watch_object_list
    (next : DSOPage -> ObservableIterator -> pstate * outcome exn A)
    (self : DSOPage) (observable_iterator : ObservableIterator)
    (iterator_is_empty : bool) : pstate * outcome exn unit :=
  if iterator_is_empty && (number self >? 1) then
    ((self, observable_iterator), Raises Http404)
  else
    let n := number_returned observable_iterator in
    let self := set_bookkeeping self (Z.min (per_page self) n)
                                (Some (n >? per_page self)) in
    if number_returned observable_iterator =? per_page self then
      (* Throw away the sentinel item *)
      match next self observable_iterator with
      | (st, Returns _) => (st, Returns tt)
      | (st, Raises e) => (st, Raises e)
      end
    else ((self, observable_iterator), Returns tt).

(** Modelled from the spec: [ObservableIterator.__next__].  A pull takes the
    next row of the wrapped iterator; exhaustion marks the iterator as
    iterated and raises [StopIteration]; otherwise the produced count goes up
    by one and the observer is notified with the row before it is handed to
    the consumer.  An exception raised by the observer leaves the pull.
    [rows] is [_iterable it]; the recursion is on it because the observer
    may pull the iterator again. *)
Fixpoint next_from (rows : list A) (self : DSOPage) (it : ObservableIterator)
  : pstate * outcome exn A :=
  match rows with
  | [] =>
      ((self, {| number_returned := number_returned it; _iterable := [];
                 _has_items := _has_items it; _is_iterated := true |}),
       Raises StopIteration)
  | value :: rest =>
      let it := {| number_returned := number_returned it + 1; _iterable := rest;
                   _has_items := Some true; _is_iterated := _is_iterated it |} in
      match _watch_object_list (next_from rest) self it false with
      | (st, Returns _) => (st, Returns value)
      | (st, Raises e) => (st, Raises e)
      end
  end.

Definition ObservableIterator_next (self : DSOPage) (it : ObservableIterator)
  : pstate * outcome exn A :=
  next_from (_iterable it) self it.

(** [DSOPage.__init__(object_list, number, paginator)]; the object list is a
    plain sequence ([inl]) or a [QuerySet] ([inr], given by its rows). *)
Definition DSOPage_init (object_list : list A + list A) (number per_page : Z)
  : outcome exn DSOPage :=
  let self := {| number := number; per_page := per_page; _length := 0;
                 _has_next := None;
                 object_list := ObservableQuerySet [] None |} in
  match object_list with
  | inr rows => Returns (set_object_list self (ObservableQuerySet rows None))
  | inl rows =>
      let it := ObservableIterator_init rows in
      let self := set_object_list self (PlainIterator it) in
      let '(it, nonempty) := ObservableIterator_bool it in
      if nonempty then Returns (set_object_list self (PlainIterator it))
      else
        (* Object list is empty *)
        match _watch_object_list ObservableIterator_next self it true with
        | ((self, it), Returns _) => Returns (set_object_list self (PlainIterator it))
        | (_, Raises e) => Raises e
        end
  end.

(** [len(page)] is [DSOPage.__len__]. *)
Definition len (self : DSOPage) : Z := _length self.

(** [ObservableIterator.is_iterated] and [ObservableQuerySet.is_iterated]. *)
Definition is_iterated (self : DSOPage) : bool :=
  match object_list self with
  | PlainIterator it => _is_iterated it
  | ObservableQuerySet _ None => false
  | ObservableQuerySet _ (Some it) => _is_iterated it
  end.

(** [DSOPage.has_next]: [None] is the unknown marker. *)
Definition has_next (self : DSOPage) : option bool :=
  if is_iterated self then _has_next self else None.

(** [iter(page.object_list)].  An [ObservableIterator] is its own iterator;
    an [ObservableQuerySet] wraps a new iterator over its rows
    ([_set_observable_iterator]) and notifies the page when it is empty. *)
Definition page_iter (self : DSOPage) : pstate * outcome exn unit :=
  match object_list self with
  | PlainIterator it => ((self, it), Returns tt)
  | ObservableQuerySet rows _ =>
      let it := ObservableIterator_init rows in
      let self := set_object_list self (ObservableQuerySet rows (Some it)) in
      let '(it, nonempty) := ObservableIterator_bool it in
      if nonempty then ((self, it), Returns tt)
      else _watch_object_list ObservableIterator_next self it true
  end.

(** Put the iterator back where the page finds it. *)
Definition store (st : pstate) : DSOPage :=
  let '(self, it) := st in
  match object_list self with
  | PlainIterator _ => set_object_list self (PlainIterator it)
  | ObservableQuerySet rows _ => set_object_list self (ObservableQuerySet rows (Some it))
  end.

(** A consumer that pulls at most [m] rows and stops at the first exception
    (a [for] loop over the iterator, possibly left early). *)
Fixpoint pulls (m : nat) (self : DSOPage) (it : ObservableIterator)
  : pstate * list A :=
  match m with
  | O => ((self, it), [])
  | S m' =>
      match ObservableIterator_next self it with
      | ((self, it), Returns x) =>
          let '(st, xs) := pulls m' self it in (st, x :: xs)
      | (st, Raises _) => (st, [])
      end
  end.

(** One pass of the rendering layer over the page: create the iterator and
    pull at most [m] rows.  The page is returned as the consumer sees it
    afterwards, with the rows it received. *)
Definition stream (m : nat) (self : DSOPage) : DSOPage * outcome exn (list A) :=
  match page_iter self with
  | (st, Raises e) => (store st, Raises e)
  | ((self, it), Returns _) =>
      let '(st, xs) := pulls m self it in (store st, Returns xs)
  end.


(** ** The paginator *)

(** A Python slice [l[start:stop]] of a list, negative indices counting from
    the end and out-of-range indices clamped. *)
Definition slice_index (len i : Z) : nat :=
  let i := if i <? 0 then i + len else i in
  Z.to_nat (Z.min len (Z.max 0 i)).

Definition py_slice (l : list A) (start stop : Z) : list A :=
  let n := Z.of_nat (length l) in
  let s := slice_index n start in
  let e := slice_index n stop in
  take (e - s)%nat (drop s l).

(** The page argument as the view passes it on: an integer (or a value that
    [int()] converts to one), or something that is not an integer. *)
Inductive page_arg : Type :=
| NumInt (n : Z)
| NotAnInteger.

(** [DSOPaginator.validate_number]. *)
Definition validate_number (number : page_arg) : outcome exn Z :=
  match number with
  | NotAnInteger => Raises PageNotAnInteger
  | NumInt number =>
      if number <? 1 then Raises EmptyPage else Returns number
  end.

(** The object list of the paginator: a plain sequence or a [QuerySet].
    Slicing a [QuerySet] gives a [QuerySet] (Django refuses negative
    indices). *)
Inductive Backing : Type :=
| Sequence (l : list A)
| QuerySet (rows : list A).

Definition backing_slice (b : Backing) (start stop : Z)
  : outcome exn (list A + list A) :=
  match b with
  | Sequence l => Returns (inl (py_slice l start stop))
  | QuerySet rows =>
      if (start <? 0) || (stop <? 0) then Raises ValueError
      else Returns (inr (py_slice rows start stop))
  end.

(** [DSOPaginator.page]. *)
Definition page (object_list : Backing) (per_page : Z) (number : page_arg)
  : outcome exn DSOPage :=
  match validate_number number with
  | Raises e => Raises e
  | Returns number =>
      let bottom := (number - 1) * per_page in
      let top := bottom + per_page in
      let sentinel := 1 in
      match backing_slice object_list bottom (top + sentinel) with
      | Raises e => Raises e
      | Returns sl => DSOPage_init sl number per_page
      end
  end.

(** [DSOPaginator.get_page]. *)
Definition get_page (object_list : Backing) (per_page : Z) (number : page_arg)
  : outcome exn DSOPage :=
  match validate_number number with
  | Raises PageNotAnInteger => page object_list per_page (NumInt 1)
  | Raises e => Raises e
  | Returns n => page object_list per_page (NumInt n)
  end.

(** ** What an observer of the page can ask about it *)

(** The iterator the page is watching, once there is one. *)
Definition watched (self : DSOPage) : option ObservableIterator :=
  match object_list self with
  | PlainIterator it => Some it
  | ObservableQuerySet _ it => it
  end.

(** The produced count of the page: the rows pulled from its iterator. *)
Definition produced (self : DSOPage) : Z :=
  match watched self with
  | Some it => number_returned it
  | None => 0
  end.

(** The rows that are still to come. *)
Definition remaining (self : DSOPage) : list A :=
  match object_list self with
  | PlainIterator it => _iterable it
  | ObservableQuerySet rows None => rows
  | ObservableQuerySet _ (Some it) => _iterable it
  end.

(** The rows of the object list a page is made from. *)
Definition rows_of (object_list : list A + list A) : list A :=
  match object_list with
  | inl rows => rows
  | inr rows => rows
  end.

(** The bookkeeping of the page agrees with the produced count of [it]. *)
Definition current (self : DSOPage) (it : ObservableIterator) : Prop :=
  _has_next self = Some (number_returned it >? per_page self)
  /\ _length self = Z.min (per_page self) (number_returned it).

(** The page and the iterator it watches are in step, [rows] being the rows
    the iterator started from: an exhausted iterator has been seen by the
    observer, only an exhausted iterator is marked as iterated, and the
    produced count is the number of rows taken from [rows]. *)
Definition in_step (rows : list A) (self : DSOPage) (it : ObservableIterator)
  : Prop :=
  (_iterable it = [] -> current self it)
  /\ (_is_iterated it = true -> _iterable it = [])
  /\ number_returned it = Z.of_nat (length rows) - Z.of_nat (length (_iterable it))
  /\ (length (_iterable it) <= length rows)%nat.

(** The rows of [l] with an index from [lo] up to, not including, [hi]. *)
Definition rows_between (lo hi : nat) (l : list A) : list A :=
  drop lo (take hi l).

End Rows.
Arguments ObservableIterator : clear implicits.
Arguments ObjectList : clear implicits.
Arguments DSOPage : clear implicits.
Arguments Backing : clear implicits.

End Paginator.

(* ====================================================================== *)
(** * Request validation and the field-access walk *)
(* ====================================================================== *)
Module Permissions.

Open Scope string_scope.

(** ** The string operations the module uses *)

(** [s.split(c, 1)]: the text before the first [c] and, when there is a
    [c], the text after it. *)
Fixpoint split_once (c : ascii) (s : string) : string * option string :=
  match s with
  | EmptyString => (EmptyString, None)
  | String a s' =>
      if Ascii.eqb a c then (EmptyString, Some s')
      else let '(p, r) := split_once c s' in (String a p, r)
  end.

(** [s.split(c)]. *)
Fixpoint split_all (c : ascii) (s : string) : list string :=
  match s with
  | EmptyString => [EmptyString]
  | String a s' =>
      if Ascii.eqb a c then EmptyString :: split_all c s'
      else match split_all c s' with
           | [] => [String a EmptyString]
           | p :: ps => String a p :: ps
           end
  end.

(** [s.find(c)] for a one-character [c]: the first index, or -1. *)
Fixpoint find (c : ascii) (s : string) : Z :=
  match s with
  | EmptyString => -1
  | String a s' =>
      if Ascii.eqb a c then 0
      else let i := find c s' in if (i =? -1)%Z then -1 else (i + 1)%Z
  end.

(** [c in s]. *)
Definition contains (c : ascii) (s : string) : bool := negb (find c s =? -1)%Z.

Definition startswith (s p : string) : bool := String.prefix p s.

Definition endswith (s suffix : string) : bool :=
  let n := String.length s in
  let k := String.length suffix in
  (k <=? n)%nat && String.eqb (String.substring (n - k) k s) suffix.

(** [s[:-k]] for [k > 0]. *)
Definition drop_end (k : nat) (s : string) : string :=
  String.substring 0 (String.length s - k) s.

(** [s[i:]] and [s[i:j]] for indices within the string. *)
Definition from_index (i : nat) (s : string) : string :=
  String.substring i (String.length s - i) s.

Definition between (i j : nat) (s : string) : string :=
  String.substring i (j - i) s.

(** ** Exceptions *)

Inductive syntax_reason : Type :=
| RelationKeyNotAtEnd      (* "relation key should appear at the end" *)
| NotAField                (* "... does not refer to a field" *)
| MissingOpenBracket       (* "missing open bracket ([) in ..." *)
| MissingClosingBracket.   (* "missing closing bracket (]) in ..." *)

Inductive denial : Type :=
| MethodNotAllowed (method : string)   (* "<method> request not allowed" *)
| FieldDenied (field_id : string).     (* "access denied to field <id> ..." *)

Inductive exn : Type :=
| FilterSyntaxError (why : syntax_reason)
| SchemaObjectNotFound
| PermissionDenied (why : denial)
| IndexError.

(** [parse_filter]. *)
Definition parse_filter (v : string) : outcome exn (string * string) :=
  let bracket := find "[" v in
  if (bracket =? -1)%Z then
    if contains "]" v then Raises (FilterSyntaxError MissingOpenBracket)
    else Returns (v, "exact")
  else if negb (endswith v "]") then
    Raises (FilterSyntaxError MissingClosingBracket)
  else
    Returns (between 0 (Z.to_nat bracket) v,
             between (Z.to_nat bracket + 1) (String.length v - 1) v).

(** ** The schema and the scopes, as the module sees them

    [DatasetTableSchema] and [DatasetFieldSchema] come from schematools; the
    module only uses the operations below.  [get_field_by_id] raises
    [SchemaObjectNotFound] when there is no such field: [None] here. *)
Record Temporal : Type := mkTemporal {
  identifier : string;
  dimensions : gmap string (string * string);   (* name -> (start, end) *)
}.

Class SchemaModel : Type := {
  DatasetTableSchema : Type;
  DatasetFieldSchema : Type;
  table_get_field_by_id : DatasetTableSchema -> string -> option DatasetFieldSchema;
  field_get_field_by_id : DatasetFieldSchema -> string -> option DatasetFieldSchema;
  field_id : DatasetFieldSchema -> string;
  related_table : DatasetFieldSchema -> option DatasetTableSchema;
  related_field_ids : DatasetFieldSchema -> list string;
  table_id : DatasetTableSchema -> string;
  dataset_id : DatasetTableSchema -> string;      (* schema.dataset.id *)
  temporal : DatasetTableSchema -> option Temporal;
}.

Section Validation.
Context `{SM : SchemaModel}.

(** A profile table of schematools, with its [mandatory_filtersets]. *)
Record ProfileTable : Type := mkProfileTable {
  mandatory_filtersets : list (list string);
}.

(** [UserScopes] of schematools: the capability queries the module asks. *)
Record UserScopes : Type := mkUserScopes {
  has_field_access : DatasetFieldSchema -> bool;
  get_active_profile_tables : string -> string -> list ProfileTable;
}.

(** The walk is positioned on a table or on a field. *)
Inductive position : Type :=
| AtTable (t : DatasetTableSchema)
| AtField (f : DatasetFieldSchema).

Definition get_field_by_id (schema : position) (part : string)
  : option DatasetFieldSchema :=
  match schema with
  | AtTable t => table_get_field_by_id t part
  | AtField f => field_get_field_by_id f part
  end.

(** The loop over the identifier of a related table, lines 221-227. *)
Fixpoint check_idents (scopes : UserScopes) (rel : DatasetTableSchema)
    (idents : list string) : outcome exn unit :=
  match idents with
  | [] => Returns tt
  | ident :: idents =>
      match table_get_field_by_id rel ident with
      | None => Raises SchemaObjectNotFound
      | Some schema =>
          if negb (has_field_access scopes schema) then
            Raises (PermissionDenied (FieldDenied (field_id schema)))
          else check_idents scopes rel idents
      end
  end.

(** The [while field_name != ""] loop of [_check_field_access].  The Id
    shorthand restarts the loop on a name taken from the schema, so the loop
    has no bound of its own; [fuel] counts iterations and [None] means they
    ran out. *)
Fixpoint walk (fuel : nat) (scopes : UserScopes) (field_name : string)
    (schema : position) : option (outcome exn position) :=
  match fuel with
  | O => None
  | S fuel =>
      if String.eqb field_name "" then Some (Returns schema)
      else
        let '(part, rest) := split_once "." field_name in
        let field_name := default "" rest in
        match get_field_by_id schema part with
        | None =>
            (* Relations with non-composite keys become a pseudo-property
               with "Id" appended to the table name. *)
            if endswith part "Id" then
              let part := drop_end 2 part in
              if negb (String.eqb field_name "") then
                Some (Raises (FilterSyntaxError RelationKeyNotAtEnd))
              else
                match get_field_by_id schema part with
                | None => Some (Raises SchemaObjectNotFound)
                | Some schema =>
                    match related_table schema with
                    | None => Some (Raises SchemaObjectNotFound)
                    | Some rel =>
                        match related_field_ids schema with
                        | [] => Some (Raises IndexError)
                        | ident :: _ =>
                            let field_name :=
                              ident ++ (if String.eqb field_name "" then ""
                                        else "." ++ field_name) in
                            walk fuel scopes field_name (AtTable rel)
                        end
                    end
                end
            else Some (Raises SchemaObjectNotFound)
        | Some schema =>
            if negb (has_field_access scopes schema) then
              Some (Raises (PermissionDenied (FieldDenied (field_id schema))))
            else
              match related_table schema with
              | Some rel =>
                  match check_idents scopes rel (related_field_ids schema) with
                  | Raises e => Some (Raises e)
                  | Returns _ => walk fuel scopes field_name (AtTable rel)
                  end
              | None => walk fuel scopes field_name (AtField schema)
              end
        end
  end.

(** [_check_field_access(full_field_name, scopes, schema)]. *)
Definition _check_field_access (fuel : nat) (full_field_name : string)
    (scopes : UserScopes) (schema : position) : option (outcome exn unit) :=
  match walk fuel scopes full_field_name schema with
  | None => None
  | Some (Raises e) => Some (Raises e)
  | Some (Returns (AtTable _)) => Some (Raises (FilterSyntaxError NotAField))
  | Some (Returns (AtField _)) => Some (Returns tt)
  end.

(** ** [validate_request] *)

Record Request : Type := mkRequest {
  method : string;
  GET : list (string * list string);    (* request.GET.lists() *)
  user_scopes : UserScopes;
}.

(** What [validate_request] returns: [None], or [True] for the BBGA
    workaround. *)
Inductive retval : Type := PyNone | PyTrue.

(** The fields of a list, checked one after the other. *)
Fixpoint check_fields (fuel : nat) (scopes : UserScopes)
    (schema : DatasetTableSchema) (fields : list string)
  : option (outcome exn unit) :=
  match fields with
  | [] => Some (Returns tt)
  | field :: fields =>
      match _check_field_access fuel field scopes (AtTable schema) with
      | Some (Returns _) => check_fields fuel scopes schema fields
      | r => r
      end
  end.

(** The fields named by the values of a sort parameter, lines 156-159. *)
Definition sort_fields (values : list string) : list string :=
  concat (map (fun value =>
    map (fun field => if startswith field "-" then from_index 1 field else field)
        (split_all "," value)) values).

(** The mandatory filters of the active profiles, lines 147-149. *)
Definition collect_mandatory (scopes : UserScopes) (schema : DatasetTableSchema)
  : gset string :=
  foldl (fun mandatory profile =>
           foldl (fun m fs => m ∪ list_to_set fs) mandatory
                 (mandatory_filtersets profile))
        ∅ (get_active_profile_tables scopes (dataset_id schema) (table_id schema)).

(** One round of the loop over the parameters, lines 152-177. *)
Definition validate_param (fuel : nat) (scopes : UserScopes)
    (schema : DatasetTableSchema) (allowed mandatory : gset string)
    (key : string) (values : list string) : option (outcome exn unit) :=
  if bool_decide (key ∈ allowed) then Some (Returns tt)
  else if String.eqb key "_sort" || String.eqb key "sorteer" then
    check_fields fuel scopes schema (sort_fields values)
  else
    (* Everything else is a filter. *)
    match parse_filter key with
    | Raises e => Some (Raises e)
    | Returns (field_name, op) =>
        if bool_decide (key ∈ mandatory) || bool_decide (field_name ∈ mandatory)
        then Some (Returns tt)
        else
          match
            match temporal schema with
            | Some t => dimensions t !! field_name
            | None => None
            end
          with
          | Some (start, end_) => check_fields fuel scopes schema [start; end_]
          | None => _check_field_access fuel field_name scopes (AtTable schema)
          end
    end.

Fixpoint validate_params (fuel : nat) (scopes : UserScopes)
    (schema : DatasetTableSchema) (allowed mandatory : gset string)
    (params : list (string * list string)) : option (outcome exn retval) :=
  match params with
  | [] => Some (Returns PyNone)
  | (key, values) :: params =>
      match validate_param fuel scopes schema allowed mandatory key values with
      | None => None
      | Some (Raises e) => Some (Raises e)
      | Some (Returns _) => validate_params fuel scopes schema allowed mandatory params
      end
  end.

Definition validate_request (fuel : nat) (request : Request)
    (schema : DatasetTableSchema) (allowed : gset string)
  : option (outcome exn retval) :=
  if String.eqb (method request) "OPTIONS" then Some (Returns PyNone)
  else if negb (String.eqb (method request) "GET") then
    Some (Raises (PermissionDenied (MethodNotAllowed (method request))))
  else if String.eqb (dataset_id schema) "bbga" then Some (Returns PyTrue)
  else
    let scopes := user_scopes request in
    let mandatory := collect_mandatory scopes schema in
    validate_params fuel scopes schema allowed mandatory (GET request).

End Validation.

End Permissions.

(* ====================================================================== *)
(** * Expanded fields *)
(* ====================================================================== *)
Module Expands.
Import Permissions.

Open Scope string_scope.

(** [PermissionDenied("Eager loading not allowed for field '<full_name>'")]. *)
Inductive exn : Type :=
| EagerLoadingNotAllowed (full_name : string).

Section Expands.
Context `{SM : SchemaModel}.

(** [EmbeddedFieldMatch] of [rest_framework_dso.embedding], by what
    [filter_unauthorized_expands] reads of it: [match.full_name],
    [match.field.field_schema], the table schema of
    [match.field.related_model], the truth value of
    [match.nested_expand_scope], and [match.embedded_serializer], which is
    [Some] of its [expanded_fields] when it is an [ExpandableSerializer]. *)
Unset Elimination Schemes.
Inductive EmbeddedFieldMatch : Type :=
| mkMatch (full_name : string) (field_schema : DatasetFieldSchema)
          (related_table_schema : DatasetTableSchema)
          (nested_expand_scope : bool)
          (embedded_serializer : option (list EmbeddedFieldMatch)).
Set Elimination Schemes.

Definition full_name (m : EmbeddedFieldMatch) : string :=
  match m with mkMatch n _ _ _ _ => n end.
Definition field_schema (m : EmbeddedFieldMatch) : DatasetFieldSchema :=
  match m with mkMatch _ f _ _ _ => f end.
Definition related_table_schema (m : EmbeddedFieldMatch) : DatasetTableSchema :=
  match m with mkMatch _ _ t _ _ => t end.
Definition nested_expand_scope (m : EmbeddedFieldMatch) : bool :=
  match m with mkMatch _ _ _ s _ => s end.
Definition embedded_serializer (m : EmbeddedFieldMatch)
  : option (list EmbeddedFieldMatch) :=
  match m with mkMatch _ _ _ _ e => e end.

(** The scopes: [user_scopes.has_field_access] comes with [UserScopes];
    [user_scopes.has_table_access] is given next to it. *)
Variable user_scopes : UserScopes.
Variable has_table_access : DatasetTableSchema -> bool.

(** Both permissions of a match, line 42-44. *)
Definition permitted (m : EmbeddedFieldMatch) : bool :=
  has_field_access user_scopes (field_schema m)
  && has_table_access (related_table_schema m).

(** The [for] loop of [filter_unauthorized_expands]; [visit] handles one
    match and tells whether it goes into the result. *)
Definition expands_loop (visit : EmbeddedFieldMatch -> outcome exn bool)
  : list EmbeddedFieldMatch -> outcome exn (list EmbeddedFieldMatch) :=
  fix loop (expanded_fields : list EmbeddedFieldMatch) :=
    match expanded_fields with
    | [] => Returns []
    | m :: rest =>
        match visit m with
        | Raises e => Raises e
        | Returns keep =>
            match loop rest with
            | Raises e => Raises e
            | Returns result => Returns (if keep then m :: result else result)
            end
        end
    end.

(** The body of the loop, lines 42-62. *)
Fixpoint visit_match (skip_unauth : bool) (m : EmbeddedFieldMatch)
  : outcome exn bool :=
  match m with
  | mkMatch name field_schema table nested_expand_scope embedded_serializer =>
      if has_field_access user_scopes field_schema && has_table_access table then
        (* Only add the field when there is permission *)
        if negb skip_unauth && nested_expand_scope then
          match embedded_serializer with
          | Some expanded_fields =>
              match expands_loop (visit_match skip_unauth) expanded_fields with
              | Raises e => Raises e
              | Returns _ => Returns true
              end
          | None => Returns true
          end
        else Returns true
      else if skip_unauth then Returns false
      else Raises (EagerLoadingNotAllowed name)
  end.

(** [filter_unauthorized_expands(user_scopes, expanded_fields, skip_unauth)]. *)
Definition filter_unauthorized_expands (expanded_fields : list EmbeddedFieldMatch)
    (skip_unauth : bool) : outcome exn (list EmbeddedFieldMatch) :=
  expands_loop (visit_match skip_unauth) expanded_fields.

(** A match and, where its nested expands are looked at, all of those are
    permitted. *)
Fixpoint deep_permitted (m : EmbeddedFieldMatch) : bool :=
  match m with
  | mkMatch _ field_schema table nested_expand_scope embedded_serializer =>
      has_field_access user_scopes field_schema && has_table_access table
      && (if nested_expand_scope then
            match embedded_serializer with
            | Some expanded_fields => forallb deep_permitted expanded_fields
            | None => true
            end
          else true)
  end.

(** [m] is one of the matches, or one of their nested expands. *)
Inductive within (m : EmbeddedFieldMatch) : list EmbeddedFieldMatch -> Prop :=
| within_here l : m ∈ l -> within m l
| within_nested l x nested :
    x ∈ l -> embedded_serializer x = Some nested -> within m nested ->
    within m l.

End Expands.
End Expands.

(* ====================================================================== *)
(** * The serializer factory and its cache *)
(* ====================================================================== *)
Module Factories.

Open Scope string_scope.

Definition MAX_EMBED_NESTING_LEVEL : Z := 10.

(** [LRUCache(maxsize=100000)]. *)
Definition maxsize : Z := 100000.

(** The exceptions of the factory. *)
Inductive exn : Type :=
| RecursionInEmbeddedNesting   (* RuntimeError("recursion in embedded nesting") *)
| ModelNotResolved             (* ImproperlyConfigured("Model ... could not be resolved.") *)
| NotADynamicModel             (* TypeError("serializer_factory() didn't receive a model") *)
| OlderModelReference          (* RuntimeError("... received an older model reference") *)
| FieldError (msg : string).   (* whatever building the fields raises *)

Section Factory.
(** The Django models: classes, compared by identity. *)
Context {Model : Type} `{EqDecision Model}.

(** [is_dangling_model] of schematools. *)
Variable is_dangling_model : Model -> bool.
(** Lines 182-241 of [serializer_factory]: the [_links] serializer and the
    fields of the body.  Embedded serializers are built on demand, so this
    part never calls [serializer_factory]; it gives the names of
    [Meta.fields] or raises. *)
Variable build_fields : Model -> Z -> outcome string (list string).
(** The relations that [_generate_nested_relations] keeps: name and related
    model of each related object that is a nested table of the schema. *)
Variable nested_tables : Model -> list (string * Model).

(** What a caller may pass as [model]. *)
Inductive model_arg : Type :=
| ModelName (name : string)     (* a str: an unresolved model reference *)
| OtherObject (o : nat)         (* anything that is not a DynamicModel subclass *)
| ModelClass (m : Model).

#[local] Instance model_arg_eq_dec : EqDecision model_arg.
Proof. solve_decision. Defined.

(** A serializer class made by [construct_class].  Every call of [type()]
    makes a new class: [class_id] is its identity. *)
Record SerializerClass : Type := mkSerializerClass {
  class_id : nat;
  class_model : Model;
  class_depth : Z;
  class_fields : list string;
  class_nested : list (string * nat);   (* field name, nested serializer class *)
}.

(** [hashkey(model, depth)]. *)
Definition cache_key : Type := model_arg * Z.

(** [_serializer_cache_key(model, depth, nesting_level)]. *)
Definition _serializer_cache_key (model : model_arg) (depth nesting_level : Z)
  : cache_key := (model, depth).

(** The LRU cache: its entries, most recently used first. *)
Definition LRUCache : Type := list (cache_key * SerializerClass).

Definition has_key (k : cache_key) (kv : cache_key * SerializerClass) : bool :=
  bool_decide (kv.1 = k).

(** [cache[k]]: a hit makes the entry the most recently used one; a miss is
    the [KeyError]. *)
Definition cache_getitem (k : cache_key) (cache : LRUCache)
  : option (SerializerClass * LRUCache) :=
  match List.find (has_key k) cache with
  | Some (_, v) =>
      Some (v, (k, v) :: List.filter (fun kv => negb (has_key k kv)) cache)
  | None => None
  end.

(** [cache[k] = v]: make room for a new key by dropping the least recently
    used entries, then store it as the most recently used one. *)
Definition cache_setitem (k : cache_key) (v : SerializerClass) (cache : LRUCache)
  : LRUCache :=
  match List.find (has_key k) cache with
  | Some _ => (k, v) :: List.filter (fun kv => negb (has_key k kv)) cache
  | None =>
      if (Z.of_nat (length cache) + 1 >? maxsize)%Z
      then (k, v) :: take (Z.to_nat (maxsize - 1)) cache
      else (k, v) :: cache
  end.

(** The process-wide state: the cache and the number of classes created. *)
Record state : Type := mkState {
  _serializer_factory_cache : LRUCache;
  classes_created : nat;
}.

Definition clear_serializer_factory_cache (st : state) : state :=
  {| _serializer_factory_cache := []; classes_created := classes_created st |}.

(** [_validate_model]. *)
Definition _validate_model (model : model_arg) : outcome exn Model :=
  match model with
  | ModelName _ => Raises ModelNotResolved
  | OtherObject _ => Raises NotADynamicModel
  | ModelClass m =>
      if is_dangling_model m then Raises OlderModelReference else Returns m
  end.

(** [serializer_part.construct_class]. *)
Definition construct_class (st : state) (m : Model) (depth : Z)
    (fields : list string) (nested : list (string * nat))
  : state * SerializerClass :=
  ({| _serializer_factory_cache := _serializer_factory_cache st;
      classes_created := S (classes_created st) |},
   {| class_id := classes_created st; class_model := m; class_depth := depth;
      class_fields := fields; class_nested := nested |}).

(** The loop of [_generate_nested_relations], [factory] being the decorated
    [serializer_factory]. *)
Fixpoint _generate_nested_relations
    (factory : state -> model_arg -> Z -> Z -> option (state * outcome exn SerializerClass))
    (st : state) (items : list (string * Model)) (nesting_level : Z)
  : option (state * outcome exn (list (string * nat))) :=
  match items with
  | [] => Some (st, Returns [])
  | (name, related_model) :: items =>
      match factory st (ModelClass related_model) 0%Z (nesting_level + 1)%Z with
      | None => None
      | Some (st, Raises e) => Some (st, Raises e)
      | Some (st, Returns related_serializer) =>
          match _generate_nested_relations factory st items nesting_level with
          | None => None
          | Some (st, Raises e) => Some (st, Raises e)
          | Some (st, Returns nested) =>
              Some (st, Returns ((name, class_id related_serializer) :: nested))
          end
      end
  end.

(** [serializer_factory] with its [@cached] decorator: look the key up, and
    on a miss run the body and store what it returns.  The body calls the
    decorated function for every nested table; [fuel] bounds that recursion
    and [None] means it ran out. *)
Fixpoint serializer_factory_rec (fuel : nat) (st : state) (model : model_arg)
    (depth nesting_level : Z) : option (state * outcome exn SerializerClass) :=
  match fuel with
  | O => None
  | S fuel =>
      let k := _serializer_cache_key model depth nesting_level in
      match cache_getitem k (_serializer_factory_cache st) with
      | Some (v, cache) =>
          Some ({| _serializer_factory_cache := cache;
                   classes_created := classes_created st |}, Returns v)
      | None =>
          (* the body of serializer_factory *)
          if (nesting_level >=? MAX_EMBED_NESTING_LEVEL)%Z then
            Some (st, Raises RecursionInEmbeddedNesting)
          else
            match _validate_model model with
            | Raises e => Some (st, Raises e)
            | Returns m =>
                match build_fields m depth with
                | Raises msg => Some (st, Raises (FieldError msg))
                | Returns fields =>
                    match _generate_nested_relations
                            (serializer_factory_rec fuel) st (nested_tables m)
                            nesting_level with
                    | None => None
                    | Some (st, Raises e) => Some (st, Raises e)
                    | Some (st, Returns nested) =>
                        let '(st, v) := construct_class st m depth fields nested in
                        Some ({| _serializer_factory_cache :=
                                   cache_setitem k v (_serializer_factory_cache st);
                                 classes_created := classes_created st |},
                              Returns v)
                    end
                end
            end
      end
  end.

(** The recursion stops at the nesting bound, so this much fuel is enough
    (see [serializer_factory_total]). *)
Definition fuel_for (nesting_level : Z) : nat :=
  S (Z.to_nat (MAX_EMBED_NESTING_LEVEL - nesting_level)).

Definition serializer_factory (st : state) (model : model_arg)
    (depth nesting_level : Z) : option (state * outcome exn SerializerClass) :=
  serializer_factory_rec (fuel_for nesting_level) st model depth nesting_level.

(** The cache answers for the classes it holds: every entry is filed under
    the model and the depth its class was built for. *)
Definition coherent (cache : LRUCache) : Prop :=
  forall k c, (k, c) ∈ cache -> k = (ModelClass (class_model c), class_depth c).

(** A table that can be built at [depth] with at most [levels] levels of
    nested tables below it: the model is current, its fields can be built,
    and so it is for its nested tables, which are built at depth 0. *)
Fixpoint buildable (levels : nat) (depth : Z) (m : Model) : Prop :=
  is_dangling_model m = false
  /\ (exists fields, build_fields m depth = Returns fields)
  /\ match levels with
     | O => nested_tables m = []
     | S levels =>
         forall name related_model,
           (name, related_model) ∈ nested_tables m ->
           buildable levels 0 related_model
     end.

End Factory.
Arguments model_arg : clear implicits.
Arguments SerializerClass : clear implicits.
Arguments cache_key : clear implicits.
Arguments LRUCache : clear implicits.
Arguments state : clear implicits.

End Factories.

(* ====================================================================== *)
(** * The link serializers *)
(* ====================================================================== *)
Module Links.
Open Scope string_scope.

(** What the link factories raise: the [ValueError] of a factory called for
    the wrong kind of table, the [ValueError] of [first()] on an empty
    identifier, the [RuntimeError] of [add_field], and the
    [SchemaObjectNotFound] of [get_field_by_id]. *)
Inductive exn : Type :=
| UseOtherFactory
| EmptyIterable
| RedundantSource
| SchemaObjectNotFound (id : string).

(** A serializer field as far as the assembly line looks at it: its class
    and the [source] it was constructed with. *)
Record Field : Type := mkField {
  field_class : string;
  source : option string;
}.

(** An entry of [Meta.extra_kwargs]. *)
Inductive kwarg : Type :=
| Depth (depth : Z)
| Source (source : string).

(** [SerializerAssemblyLine]: the fields among [class_attrs], and
    [Meta.fields] and [Meta.extra_kwargs]. *)
Record SerializerAssemblyLine : Type := mkAssembly {
  class_attrs : list (string * Field);
  meta_fields : list string;
  meta_extra_kwargs : list (string * kwarg);
}.

(** [d[k] = v] on a dict: a key that is there keeps its place. *)
Definition dict_set {V : Type} (k : string) (v : V) (d : list (string * V))
  : list (string * V) :=
  if existsb (fun kv => String.eqb kv.1 k) d
  then map (fun kv => if String.eqb kv.1 k then (k, v) else kv) d
  else (d ++ [(k, v)])%list.

(** [d[k]]. *)
Definition dict_get {V : Type} (k : string) (d : list (string * V)) : option V :=
  snd <$> List.find (fun kv => String.eqb kv.1 k) d.

(** [SerializerAssemblyLine.__init__] with [fields=None] and [depth=0]. *)
Definition new_assembly : SerializerAssemblyLine :=
  {| class_attrs := []; meta_fields := []; meta_extra_kwargs := [("depth", Depth 0)] |}.

(** [field.source == name]. *)
Definition source_is (field : Field) (name : string) : bool :=
  match source field with
  | Some s => String.eqb s name
  | None => false
  end.

(** [SerializerAssemblyLine.add_field]; the assembly is lost to the caller
    when the check raises. *)
Definition add_field (part : SerializerAssemblyLine) (name : string) (field : Field)
  : outcome exn SerializerAssemblyLine :=
  let part := {| class_attrs := dict_set name field (class_attrs part);
                 meta_fields := (meta_fields part ++ [name])%list;
                 meta_extra_kwargs := meta_extra_kwargs part |} in
  if source_is field name then Raises RedundantSource else Returns part.

(** [SerializerAssemblyLine.add_field_name]. *)
Definition add_field_name (part : SerializerAssemblyLine) (name : string)
    (source : option string) : SerializerAssemblyLine :=
  {| class_attrs := class_attrs part;
     meta_fields := (meta_fields part ++ [name])%list;
     meta_extra_kwargs :=
       match source with
       | Some s =>
           if negb (String.eqb s name)
           then dict_set name (Source s) (meta_extra_kwargs part)
           else meta_extra_kwargs part
       | None => meta_extra_kwargs part
       end |}.

(** [_build_href_field]: the field reads the whole object. *)
Definition _build_href_field (field_cls : string) : Field :=
  {| field_class := field_cls; source := Some "*" |}.

(** [serializers.CharField(source=...)]. *)
Definition CharField (source : option string) : Field :=
  {| field_class := "CharField"; source := source |}.

(** [first(iterable)] of more_itertools. *)
Definition first {A : Type} (l : list A) : outcome exn A :=
  match l with
  | x :: _ => Returns x
  | [] => Raises EmptyIterable
  end.

Section Models.
(** The dynamic models and what the factories ask of them and of their
    table schema. *)
Context {Model : Type}.
Variable is_temporal : Model -> bool.
Variable has_display_field : Model -> bool.
Variable get_display_field : Model -> string.
(** [table_schema.identifier] *)
Variable identifier : Model -> list string.
(** [table_schema.temporal.identifier], read for temporal tables only *)
Variable temporal_identifier : Model -> string.
(** [table_schema.get_field_by_id(id).name]; [None] when the schema has no
    such field *)
Variable field_name_by_id : Model -> string -> option string.
Variable toCamelCase : string -> string.
Variable to_snake_case : string -> string.

Definition get_field_by_id_name (related_model : Model) (id : string)
  : outcome exn string :=
  match field_name_by_id related_model id with
  | Some name => Returns name
  | None => Raises (SchemaObjectNotFound id)
  end.

(** [_nontemporal_link_serializer_factory], up to the class construction. *)
Definition _nontemporal_link_serializer_factory (related_model : Model)
  : outcome exn SerializerAssemblyLine :=
  if is_temporal related_model then Raises UseOtherFactory
  else
    let serializer_part := new_assembly in
    match add_field serializer_part "href" (_build_href_field "HyperlinkedRelatedField") with
    | Raises e => Raises e
    | Returns serializer_part =>
        let titled :=
          if has_display_field related_model then
            let source := get_display_field related_model in
            add_field serializer_part "title"
              (CharField (if negb (String.eqb source "title") then Some source else None))
          else Returns serializer_part in
        match titled with
        | Raises e => Raises e
        | Returns serializer_part =>
            match first (identifier related_model) with
            | Raises e => Raises e
            | Returns primary_id =>
                Returns (add_field_name serializer_part (toCamelCase primary_id)
                           (Some (to_snake_case primary_id)))
            end
        end
    end.

(** The body of [_temporal_link_serializer_factory], up to the class
    construction.  The function is cached by model; a raised exception is
    not cached. *)
Definition _temporal_link_serializer_factory (related_model : Model)
  : outcome exn SerializerAssemblyLine :=
  if negb (is_temporal related_model) then Raises UseOtherFactory
  else
    let serializer_part := new_assembly in
    match add_field serializer_part "href"
            (_build_href_field "TemporalHyperlinkedRelatedField") with
    | Raises e => Raises e
    | Returns serializer_part =>
        let titled :=
          if has_display_field related_model then
            add_field serializer_part "title"
              (CharField (Some (get_display_field related_model)))
          else Returns serializer_part in
        match titled with
        | Raises e => Raises e
        | Returns serializer_part =>
            match get_field_by_id_name related_model
                    (temporal_identifier related_model) with
            | Raises e => Raises e
            | Returns temporal_id =>
                match first (identifier related_model) with
                | Raises e => Raises e
                | Returns id =>
                    match get_field_by_id_name related_model id with
                    | Raises e => Raises e
                    | Returns primary_id =>
                        let serializer_part :=
                          add_field_name serializer_part (toCamelCase temporal_id)
                            (Some (to_snake_case temporal_id)) in
                        Returns (add_field_name serializer_part (toCamelCase primary_id)
                                   (Some (to_snake_case primary_id)))
                    end
                end
            end
        end
    end.

(** The choice [_links_serializer_factory] makes for the link to [self]. *)
Definition self_link_class (model : Model) : outcome exn SerializerAssemblyLine :=
  if is_temporal model then _temporal_link_serializer_factory model
  else _nontemporal_link_serializer_factory model.

End Models.
End Links.

(* ====================================================================== *)
(** * Temporal keys: [utils.split_on_separator] and the fields that use it *)
(* ====================================================================== *)
Module Temporal.
Open Scope string_scope.

(** [PK_SPLIT = re.compile("[_.]")]. *)
Definition PK_SPLIT (c : ascii) : bool :=
  Ascii.eqb c "_" || Ascii.eqb c ".".

(** [PK_SPLIT.split(s, 1)]: split at the first separator, if there is one. *)
Fixpoint PK_SPLIT_split_1 (s : list ascii) : list (list ascii) :=
  match s with
  | [] => [[]]
  | c :: s =>
      if PK_SPLIT c then [[]; s]
      else match PK_SPLIT_split_1 s with
           | part :: parts => (c :: part) :: parts
           | [] => []
           end
  end.

(** [s[::-1]]. *)
Definition reversed (s : string) : string :=
  String.string_of_list_ascii (rev (String.list_ascii_of_string s)).

(** [split_on_separator]: reverse the value, split at the first separator,
    reverse every part and the list of parts. *)
Definition split_on_separator (value : string) : list string :=
  rev (map (fun part => reversed (String.string_of_list_ascii part))
         (PK_SPLIT_split_1 (String.list_ascii_of_string (reversed value)))).

(** [c in value] for a character class. *)
Definition has_separator (value : string) : bool :=
  existsb PK_SPLIT (String.list_ascii_of_string value).

(** What the fields raise: the [ValueError] of unpacking a list of the
    wrong length, the [IndexError] of indexing an empty list, and the
    [AttributeError] of reading an attribute of [None]. *)
Inductive exn : Type :=
| ValueError
| IndexError
| AttributeError.

(** The request as the fields read it: [request.versioned],
    [request.dataset_temporal_slice] as its [key] and [value], and
    [request.dataset.temporal], which is [None] or a dict that may hold an
    [identifier]. *)
Record Request : Type := mkRequest {
  versioned : bool;
  dataset_temporal_slice : option (string * string);
  dataset_temporal : option (option string);
}.

(** The object a link points to: [obj.pk] and [obj.is_temporal()]. *)
Record Obj : Type := mkObj {
  pk : option string;
  is_temporal : bool;
}.

(** [str(x)] of an optional string, as [str.format] prints it. *)
Definition format_opt (x : option string) : string :=
  match x with
  | Some s => s
  | None => "None"
  end.

(** [TemporalReadOnlyField.to_representation]; [request] is
    [self.parent.context.get("request")]. *)
Definition to_representation (request : option Request) (value : string)
  : outcome exn string :=
  match request with
  | Some r =>
      if versioned r then
        match split_on_separator value with
        | part :: _ => Returns part
        | [] => Raises IndexError
        end
      else Returns value
  | None => Returns value
  end.

Section Reverse.
(** [self.reverse(view_name, kwargs={self.lookup_field: value}, ...)] for
    the view and the format of the call. *)
Variable reverse : string -> string.

(** [TemporalHyperlinkedRelatedField.get_url]; the objects are model
    instances, which have a [pk]. *)
Definition get_url (obj : Obj) (request : Request) : outcome exn (option string) :=
  match pk obj with
  | None => Returns None
  | Some obj_pk =>
      if String.eqb obj_pk "" then Returns None
      else if versioned request && is_temporal obj then
        match split_on_separator obj_pk with
        | [lookup_value; version] =>
            let base_url := reverse lookup_value in
            match dataset_temporal_slice request with
            | None =>
                match dataset_temporal request with
                | None => Raises AttributeError
                | Some identifier =>
                    Returns (Some (base_url ++ "?" ++ format_opt identifier
                                     ++ "=" ++ version))
                end
            | Some (key, value) =>
                Returns (Some (base_url ++ "?" ++ key ++ "=" ++ value))
            end
        | _ => Raises ValueError
        end
      else Returns (Some (reverse obj_pk))
  end.

End Reverse.
End Temporal.

(* ====================================================================== *)
(** * Validation errors as problem details: [views.get_invalid_params] *)
(* ====================================================================== *)
Module Views.
Open Scope string_scope.

(** The [detail] of a [ValidationError]: an [ErrorDetail] (its text and its
    code), a dict, a list, or a value of any other type. *)
Unset Elimination Schemes.
Inductive Detail : Type :=
| ErrorDetail (message code : string)
| DictDetail (items : list (string * Detail))
| ListDetail (items : list Detail)
| OtherValue.
Set Elimination Schemes.

Inductive exn : Type :=
| TypeError.

(** An entry of [invalid-params]. *)
Record InvalidParam : Type := mkInvalidParam {
  type : string;
  name : string;
  reason : string;
}.

(** The truth value of [field_name]: [None] and the empty string are false. *)
Definition truthy (field_name : option string) : bool :=
  match field_name with
  | Some s => negb (String.eqb s "")
  | None => false
  end.

(** [f"{field_name}"]. *)
Definition format_name (field_name : option string) : string :=
  match field_name with
  | Some s => s
  | None => "None"
  end.

(** [f"{i}"] of a list index. *)
Definition format_index (i : nat) : string :=
  NilEmpty.string_of_uint (Nat.to_uint i).

(** [isinstance(error, dict)]. *)
Definition is_dict (error : Detail) : bool :=
  match error with
  | DictDetail _ => true
  | _ => false
  end.

Section Loops.
(** The recursive call, for the loops over a dict and over a list. *)
Variable get_invalid_params : Detail -> option string -> outcome exn (list InvalidParam).

(** [for name, errors in detail.items()]. *)
Fixpoint dict_loop (field_name : option string) (items : list (string * Detail))
  : outcome exn (list InvalidParam) :=
  match items with
  | [] => Returns []
  | (name, errors) :: items =>
      let full_name :=
        if truthy field_name then format_name field_name ++ "." ++ name else name in
      match get_invalid_params errors (Some full_name) with
      | Raises e => Raises e
      | Returns params =>
          match dict_loop field_name items with
          | Raises e => Raises e
          | Returns result => Returns (params ++ result)%list
          end
      end
  end.

(** [for i, error in enumerate(detail)], from index [i] on. *)
Fixpoint list_loop (field_name : option string) (i : nat) (items : list Detail)
  : outcome exn (list InvalidParam) :=
  match items with
  | [] => Returns []
  | error :: items =>
      let full_name :=
        if is_dict error
        then Some (format_name field_name ++ "[" ++ format_index i ++ "]")
        else field_name in
      match get_invalid_params error full_name with
      | Raises e => Raises e
      | Returns params =>
          match list_loop field_name (S i) items with
          | Raises e => Raises e
          | Returns result => Returns (params ++ result)%list
          end
      end
  end.

End Loops.

(** [get_invalid_params(exc, detail, field_name)]; [default_code] is
    [exc.default_code]. *)
Fixpoint get_invalid_params (default_code : string) (detail : Detail)
    (field_name : option string) : outcome exn (list InvalidParam) :=
  match detail with
  | DictDetail items =>
      dict_loop (get_invalid_params default_code) field_name items
  | ListDetail items =>
      list_loop (get_invalid_params default_code) field_name 0 items
  | ErrorDetail message code =>
      let field_name :=
        match field_name with
        | None => code
        | Some s => s
        end in
      Returns [ {| type := "urn:apiexception:" ++ default_code ++ ":" ++ code;
                   name := field_name;
                   reason := message |} ]
  | OtherValue => Raises TypeError
  end.

(** The errors of a detail, from left to right: text and code. *)
Fixpoint errors_of (detail : Detail) : list (string * string) :=
  match detail with
  | ErrorDetail message code => [(message, code)]
  | DictDetail items => flat_map (fun '(_, errors) => errors_of errors) items
  | ListDetail items => flat_map errors_of items
  | OtherValue => []
  end.

(** The detail holds a value that is no error, dict or list. *)
Fixpoint has_other_value (detail : Detail) : bool :=
  match detail with
  | ErrorDetail _ _ => false
  | DictDetail items => existsb (fun '(_, errors) => has_other_value errors) items
  | ListDetail items => existsb has_other_value items
  | OtherValue => true
  end.

End Views.

(** ** The schema of the request-validation tests

    [tests/test_dynamic_api/test_request_validation.py] walks two small
    schemas: a table [refers] with a plain field [name] and a relation [base]
    to a table [base], whose identifier is [id] (simple key) or [id, volgnr]
    (composite key).  A field is open to a set of scopes when the set holds
    the scopes of its dataset and of the field, as in the test cases. *)
Module RelationAuth.
Import Permissions.
Open Scope string_scope.

Inductive table : Type := Refers | Base.
Inductive field : Type := RefersName | RefersBase | BaseId | BaseVolgnr.

Definition table_field (composite : bool) (t : table) (name : string)
  : option field :=
  match t with
  | Refers =>
      if String.eqb name "name" then Some RefersName
      else if String.eqb name "base" then Some RefersBase
      else None
  | Base =>
      if String.eqb name "id" then Some BaseId
      else if composite && String.eqb name "volgnr" then Some BaseVolgnr
      else None
  end.

Definition field_name (f : field) : string :=
  match f with
  | RefersName => "name" | RefersBase => "base"
  | BaseId => "id" | BaseVolgnr => "volgnr"
  end.

#[export] Instance schema (composite : bool) : SchemaModel := {|
  DatasetTableSchema := table;
  DatasetFieldSchema := field;
  table_get_field_by_id := table_field composite;
  field_get_field_by_id := fun _ _ => None;
  field_id := field_name;
  related_table := fun f => match f with RefersBase => Some Base | _ => None end;
  related_field_ids := fun f =>
    match f with
    | RefersBase => if composite then ["id"; "volgnr"] else ["id"]
    | _ => []
    end;
  table_id := fun t => match t with Refers => "refers" | Base => "base" end;
  dataset_id := fun _ => "relationauth";
  temporal := fun _ => None;
|}.

(** The scopes a field asks for. *)
Definition required (f : field) : list string :=
  match f with
  | RefersName => ["REFERS"; "REFERS/NAME"]
  | RefersBase => ["REFERS"; "REFERS/BASE"]
  | BaseId | BaseVolgnr => ["BASE"; "BASE/TABLE"]
  end.

Definition holds (request_scopes : list string) (scope : string) : bool :=
  existsb (String.eqb scope) request_scopes.

(** [UserScopes(query_params={}, request_scopes=...)], with the profile
    tables given apart. *)
Definition scopes (composite : bool) (request_scopes : list string)
    (profiles : list (@ProfileTable)) : @UserScopes (schema composite) :=
  @mkUserScopes (schema composite)
    (fun f : field => forallb (holds request_scopes) (required f))
    (fun _ _ => profiles).

(** [_check_field_access(field_name, scopes, schema)] as the tests call it:
    from the table [refers]. *)
Definition check_from_refers (fuel : nat) (composite : bool)
    (field_name : string) (request_scopes : list string)
  : option (outcome exn unit) :=
  @_check_field_access (schema composite) fuel field_name
    (scopes composite request_scopes []) (@AtTable (schema composite) Refers).

(** [scopes.has_field_access(field)]. *)
Definition may_read (composite : bool) (request_scopes : list string)
    (f : field) : bool :=
  @has_field_access (schema composite) (scopes composite request_scopes []) f.

(** The scopes of both datasets and of the related table, without the scope
    of the relation field [refers.base]. *)
Definition without_relation : list string := ["REFERS"; "BASE"; "BASE/TABLE"].

(** A request for the table [refers]. *)
Definition request_on_refers (fuel : nat) (method : string)
    (params : list (string * list string)) (request_scopes : list string)
    (profiles : list (@ProfileTable)) (allowed : gset string)
  : option (outcome exn retval) :=
  @validate_request (schema false) fuel
    (@mkRequest (schema false) method params (scopes false request_scopes profiles))
    Refers allowed.

(** A profile with the mandatory filter set [name]. *)
Definition name_profile : @ProfileTable :=
  {| mandatory_filtersets := [["name"]] |}.

(** Every scope of the two datasets. *)
Definition all_scopes : list string :=
  ["REFERS"; "REFERS/NAME"; "REFERS/BASE"; "BASE"; "BASE/TABLE"].

End RelationAuth.

(** ** A small model universe for the factory

    A table [Parent] with one nested table [Child], and a table [Loop] that
    is declared as a nested table of itself. *)
Module ExampleModels.
Import Factories.
Open Scope string_scope.

Inductive model : Type := Parent | Child | Loop.

#[export] Instance model_eq_dec : EqDecision model.
Proof. solve_decision. Defined.

Definition dangling (m : model) : bool := false.

Definition body_fields (m : model) (depth : Z) : outcome string (list string) :=
  match m with
  | Parent => Returns ["_links"; "id"; "name"]
  | Child => Returns ["value"]
  | Loop => Returns ["_links"; "id"]
  end.

Definition nested (m : model) : list (string * model) :=
  match m with
  | Parent => [("child", Child)]
  | Child => []
  | Loop => [("loop", Loop)]
  end.

Definition factory := serializer_factory dangling body_fields nested.

Definition empty : state model :=
  {| _serializer_factory_cache := []; classes_created := 0 |}.

End ExampleModels.

(** ** Examples for the link serializers, the temporal keys and the
    validation errors *)
Module ExampleLinks.
Import Links.
Open Scope string_scope.

(** A plain table and a temporal table, both with a display field that is
    called [title]; their field names are written the same way in camel
    case and in snake case. *)
Inductive model : Type := Plain | Versioned.

Definition temporal_model (m : model) : bool :=
  match m with Plain => false | Versioned => true end.

Definition model_identifier (m : model) : list string :=
  match m with
  | Plain => ["id"]
  | Versioned => ["identificatie"; "volgnummer"]
  end.

Definition nontemporal_link (m : model) : outcome exn SerializerAssemblyLine :=
  _nontemporal_link_serializer_factory temporal_model (fun _ => true)
    (fun _ => "title") model_identifier (fun s => s) (fun s => s) m.

Definition temporal_link (m : model) : outcome exn SerializerAssemblyLine :=
  _temporal_link_serializer_factory temporal_model (fun _ => true)
    (fun _ => "title") model_identifier (fun _ => "volgnummer")
    (fun _ id => Some id) (fun s => s) (fun s => s) m.

End ExampleLinks.

Module ExampleKeys.
Import Temporal.
Open Scope string_scope.

(** A versioned request without temporal slice, on a dataset whose temporal
    identifier is [volgnummer]. *)
Definition versioned_request : Request :=
  {| versioned := true; dataset_temporal_slice := None;
     dataset_temporal := Some (Some "volgnummer") |}.

Definition detail_url (lookup_value : string) : string :=
  "/v1/gebieden/buurten/" ++ lookup_value ++ "/".

End ExampleKeys.

Module ExampleErrors.
Import Views.
Open Scope string_scope.

(** The error of one field, below the field [body]. *)
Definition field_errors : Detail :=
  DictDetail [("naam", ListDetail [ErrorDetail "This field is required." "required"])].

Definition field_param : InvalidParam :=
  {| type := "urn:apiexception:invalid:required";
     name := "body.naam";
     reason := "This field is required." |}.

(** The errors of a list of two objects, the first of which is in order. *)
Definition many_errors : Detail :=
  ListDetail [DictDetail [];
              DictDetail [("naam", ListDetail [ErrorDetail "This field is required."
                                                 "required"])]].

Definition many_param : InvalidParam :=
  {| type := "urn:apiexception:invalid:required";
     name := "None[1].naam";
     reason := "This field is required." |}.

End ExampleErrors.

(** ** The pagination example of the specification: five rows, two a page *)
Module ExamplePages.
Import Paginator.

Definition backing : list Z := [10; 11; 12; 13; 14].

(** Page 1 as [DSOPage.__init__] leaves it: rows 10 and 11 and the
    sentinel 12. *)
Definition page_1 : DSOPage Z :=
  {| number := 1; per_page := 2; _length := 0; _has_next := None;
     object_list :=
       PlainIterator {| number_returned := 0; _iterable := [10; 11; 12];
                        _has_items := Some true; _is_iterated := false |} |}.

(** Page 3: the last row, no sentinel. *)
Definition page_3 : DSOPage Z :=
  {| number := 3; per_page := 2; _length := 0; _has_next := None;
     object_list :=
       PlainIterator {| number_returned := 0; _iterable := [14];
                        _has_items := Some true; _is_iterated := false |} |}.

(** The pages after the rendering layer has asked for up to four rows. *)
Definition page_1_drained : DSOPage Z := (stream 4 page_1).1.
Definition page_3_drained : DSOPage Z := (stream 4 page_3).1.


(** Page 1 over no rows at all. *)
Definition empty_page_1 : DSOPage Z :=
  {| number := 1; per_page := 2; _length := 0; _has_next := Some false;
     object_list :=
       PlainIterator {| number_returned := 0; _iterable := [];
                        _has_items := Some false; _is_iterated := false |} |}.

End ExamplePages.

(* ====================================================================== *)
(** * Properties of the paginator *)
(* ====================================================================== *)
Module PaginatorFacts.
Import Paginator.

Section Facts.
Context {A : Type}.
Implicit Types (self : DSOPage A) (it : ObservableIterator A) (rows : list A).

(** *** One pull *)

(** The page after the observer has seen a produced count of [k]. *)
Local Abbreviation seen self k :=
  (set_bookkeeping self (Z.min (per_page self) k) (Some (k >? per_page self))).

(** A pull, case by case: exhaustion; the row that completes the page, with
    nothing or with the sentinel behind it; any other row. *)
Lemma next_from_cases rows self it :
  next_from rows self it =
  let n := number_returned it in
  match rows with
  | [] =>
      ((self, mkObservableIterator n [] (_has_items it) true), Raises StopIteration)
  | value :: rest =>
      if n + 1 =? per_page self then
        match rest with
        | [] =>
            ((seen self (n + 1), mkObservableIterator (n + 1) [] (Some true) true),
             Raises StopIteration)
        | _ :: rest' =>
            ((seen self (n + 1 + 1),
              mkObservableIterator (n + 1 + 1) rest' (Some true) (_is_iterated it)),
             Returns value)
        end
      else
        ((seen self (n + 1),
          mkObservableIterator (n + 1) rest (Some true) (_is_iterated it)),
         Returns value)
  end.
Proof.
  destruct rows as [|value rest]; [reflexivity|].
  cbn [next_from]. unfold _watch_object_list.
  cbn [andb number_returned per_page set_bookkeeping].
  destruct (number_returned it + 1 =? per_page self) eqn:E; [|reflexivity].
  destruct rest as [|s rest']; [reflexivity|].
  cbn [next_from]. unfold _watch_object_list.
  cbn [andb number_returned per_page set_bookkeeping].
  apply Z.eqb_eq in E.
  destruct (number_returned it + 1 + 1 =? per_page self) eqn:E2;
    [apply Z.eqb_eq in E2; lia | reflexivity].
Qed.

Ltac next_cases H it :=
  unfold ObservableIterator_next in H; rewrite next_from_cases in H;
  cbn zeta in H;
  let v := fresh "v" in let s := fresh "s" in let rest := fresh "rest" in
  let Hrows := fresh "Hrows" in let E := fresh "E" in
  destruct (_iterable it) as [|v [|s rest]] eqn:Hrows;
  [ | destruct (number_returned it + 1 =? _) eqn:E
    | destruct (number_returned it + 1 =? _) eqn:E ];
  simplify_eq.

(** A pull touches the bookkeeping only. *)
Lemma next_frame self it self' it' r :
  ObservableIterator_next self it = ((self', it'), r) ->
  per_page self' = per_page self /\ number self' = number self
  /\ object_list self' = object_list self.
Proof. intros Hn. next_cases Hn it; done. Qed.

(** Only exhaustion ends a pull with an exception, and it marks the
    iterator. *)
Lemma next_raises self it self' it' e :
  ObservableIterator_next self it = ((self', it'), Raises e) ->
  e = StopIteration /\ _is_iterated it' = true /\ _iterable it' = [].
Proof. intros Hn. next_cases Hn it; done. Qed.

(** A row that is handed over has been seen by the observer. *)
Lemma next_returns self it self' it' x :
  ObservableIterator_next self it = ((self', it'), Returns x) ->
  current self' it' /\ _is_iterated it' = _is_iterated it
  /\ exists rest, _iterable it = x :: rest /\
       (_iterable it' = rest \/
        (number_returned it + 1 = per_page self /\ exists s, rest = s :: _iterable it')).
Proof.
  intros Hn. next_cases Hn it; unfold current; simpl.
  all: (split; [done|]); (split; [done|]); eexists; (split; [done|]).
  all: try (left; done).
  right. apply Z.eqb_eq in E. eauto.
Qed.

Lemma next_in_step rows self it self' it' r :
  in_step rows self it ->
  ObservableIterator_next self it = ((self', it'), r) ->
  in_step rows self' it'.
Proof.
  intros (Hcur & Hit & Hn & Hlen) Hnext. unfold in_step, current in *.
  next_cases Hnext it; simpl in *; (repeat split; try done; try lia).
  all: try (intros Hi; specialize (Hit Hi); done).
  all: by apply Hcur.
Qed.

Lemma next_mono self it self' it' r :
  ObservableIterator_next self it = ((self', it'), r) ->
  number_returned it <= number_returned it'.
Proof. intros Hn. next_cases Hn it; simpl; lia. Qed.

(** [len] follows the produced count through a pull. *)
Lemma next_length self it self' it' r :
  _length self = Z.min (per_page self) (number_returned it) ->
  ObservableIterator_next self it = ((self', it'), r) ->
  _length self' = Z.min (per_page self') (number_returned it').
Proof. intros Hl Hn. next_cases Hn it; done. Qed.

(** *** A run of pulls *)

Lemma pulls_frame m : forall self it self' it' xs,
  pulls m self it = ((self', it'), xs) ->
  per_page self' = per_page self /\ number self' = number self
  /\ object_list self' = object_list self.
Proof.
  induction m as [|m IH]; intros self it self' it' xs Hp; simpl in Hp.
  { by simplify_eq. }
  destruct (ObservableIterator_next self it) as [[self1 it1] [x|e]] eqn:Hn.
  - destruct (pulls m self1 it1) as [[self2 it2] ys] eqn:Hm. simplify_eq.
    apply next_frame in Hn as (E1 & E2 & E3). apply IH in Hm as (F1 & F2 & F3).
    by rewrite F1, F2, F3.
  - simplify_eq. by eapply next_frame.
Qed.

Lemma pulls_in_step rows m : forall self it self' it' xs,
  in_step rows self it ->
  pulls m self it = ((self', it'), xs) ->
  in_step rows self' it'.
Proof.
  induction m as [|m IH]; intros self it self' it' xs Hi Hp; simpl in Hp.
  { by simplify_eq. }
  destruct (ObservableIterator_next self it) as [[self1 it1] [x|e]] eqn:Hn.
  - destruct (pulls m self1 it1) as [[self2 it2] ys] eqn:Hm. simplify_eq.
    eapply IH; [|done]. by eapply next_in_step.
  - simplify_eq. by eapply next_in_step.
Qed.

Lemma pulls_length m : forall self it self' it' xs,
  _length self = Z.min (per_page self) (number_returned it) ->
  pulls m self it = ((self', it'), xs) ->
  _length self' = Z.min (per_page self') (number_returned it').
Proof.
  induction m as [|m IH]; intros self it self' it' xs Hl Hp; simpl in Hp.
  { by simplify_eq. }
  destruct (ObservableIterator_next self it) as [[self1 it1] [x|e]] eqn:Hn.
  - destruct (pulls m self1 it1) as [[self2 it2] ys] eqn:Hm. simplify_eq.
    eapply IH; [|done]. by eapply next_length.
  - simplify_eq. by eapply next_length.
Qed.


(** Enough pulls drain the iterator. *)
Lemma pulls_drains m : forall self it self' it' xs,
  (length (_iterable it) < m)%nat ->
  pulls m self it = ((self', it'), xs) ->
  _is_iterated it' = true.
Proof.
  induction m as [|m IH]; intros self it self' it' xs Hlt Hp; [lia|].
  simpl in Hp.
  destruct (ObservableIterator_next self it) as [[self1 it1] [x|e]] eqn:Hn.
  - destruct (pulls m self1 it1) as [[self2 it2] ys] eqn:Hm. simplify_eq.
    eapply IH; [|done].
    apply next_returns in Hn as (_ & _ & rest & Hr & [Hr'|[_ [s Hr']]]);
      rewrite Hr in Hlt; simpl in Hlt; subst; simpl in *; lia.
  - simplify_eq. by apply next_raises in Hn as (_ & ? & _).
Qed.

(** Nothing comes out of an exhausted iterator. *)
Lemma pulls_exhausted m self it :
  _iterable it = [] -> (pulls m self it).2 = [].
Proof.
  intros He. destruct m as [|m]; [done|]. simpl.
  unfold ObservableIterator_next. rewrite next_from_cases, He. done.
Qed.

(** The consumer never sees the sentinel: what it receives is a prefix of
    the rows before the page boundary. *)
Lemma pulls_prefix m : forall self it,
  number_returned it < per_page self ->
  Z.of_nat (length (_iterable it)) <= per_page self + 1 - number_returned it ->
  (pulls m self it).2
    `prefix_of` take (Z.to_nat (per_page self - number_returned it)) (_iterable it).
Proof.
  induction m as [|m IH]; intros self it Hn Hlen; [apply prefix_nil|].
  cbn [pulls]. unfold ObservableIterator_next. rewrite next_from_cases. cbn zeta.
  assert (Hs : Z.to_nat (per_page self - number_returned it)
               = S (Z.to_nat (per_page self - (number_returned it + 1)))) by lia.
  destruct (_iterable it) as [|v rest] eqn:Hrows; [apply prefix_nil|].
  rewrite Hs. cbn [take].
  destruct (number_returned it + 1 =? per_page self) eqn:E.
  - destruct rest as [|s rest']; [apply prefix_nil|].
    assert (rest' = []) as ->.
    { simpl in Hlen. apply Z.eqb_eq in E. destruct rest'; [done|simpl in Hlen; lia]. }
    match goal with |- context [pulls m ?s ?i] =>
      pose proof (pulls_exhausted m s i eq_refl) as Hex;
      destruct (pulls m s i) as [st ys] end.
    simpl in Hex. subst ys. simpl. apply prefix_cons, prefix_nil.
  - apply Z.eqb_neq in E.
    match goal with |- context [pulls m ?s ?i] =>
      pose proof (IH s i) as IH'; destruct (pulls m s i) as [st ys] end.
    simpl in IH'. simpl. apply prefix_cons, IH'; [lia|].
    simpl in Hlen. lia.
Qed.

(** The produced count runs ahead of the consumer by at most one row, and
    only once the page boundary has been reached. *)
Lemma pulls_count m : forall self it self' it' xs,
  pulls m self it = ((self', it'), xs) ->
  number_returned it' <= number_returned it + Z.of_nat (length xs) + 1
  /\ (per_page self <= number_returned it ->
      number_returned it' = number_returned it + Z.of_nat (length xs)).
Proof.
  induction m as [|m IH]; intros self it self' it' xs Hp; simpl in Hp.
  { simplify_eq. simpl. lia. }
  destruct (ObservableIterator_next self it) as [[self1 it1] [x|e]] eqn:Hn.
  - destruct (pulls m self1 it1) as [[self2 it2] ys] eqn:Hm. simplify_eq.
    apply IH in Hm as [Hle Heq].
    next_cases Hn it; simpl in *;
      first [apply Z.eqb_eq in E | apply Z.eqb_neq in E]; lia.
  - simplify_eq.
    next_cases Hn it; simpl in *; try apply Z.eqb_eq in E; lia.
Qed.

(** *** A fresh page and one pass over it *)

Lemma init_cases (b : list A + list A) N P pg0 :
  DSOPage_init b N P = Returns pg0 ->
  number pg0 = N /\ per_page pg0 = P /\
  match b with
  | inl rows =>
      exists it, object_list pg0 = PlainIterator it
        /\ number_returned it = 0 /\ _iterable it = rows
        /\ _is_iterated it = false
        /\ (rows = [] -> current pg0 it /\ N <= 1)
        /\ (rows <> [] -> _length pg0 = 0 /\ _has_next pg0 = None)
  | inr rows =>
      object_list pg0 = ObservableQuerySet rows None
      /\ _length pg0 = 0 /\ _has_next pg0 = None
  end.
Proof.
  destruct b as [rows|rows]; unfold DSOPage_init.
  - destruct rows as [|v rows]; cbn -[Z.eqb Z.gtb Z.min].
    + unfold _watch_object_list, ObservableIterator_next; cbn -[Z.eqb Z.gtb Z.min].
      destruct (N >? 1) eqn:EN; [done|].
      destruct (0 =? P) eqn:EP; [done|].
      intros [= <-]. cbn. repeat split.
      eexists. repeat split; try done.
      rewrite Z.gtb_ltb in EN. apply Z.ltb_ge in EN. lia.
    + intros [= <-]. cbn. repeat split. eexists. repeat split; done.
  - intros [= <-]. done.
Qed.

(** One pass over a page built around a plain sequence. *)
Lemma stream_plain m self it :
  object_list self = PlainIterator it ->
  stream m self =
    let '((self', it'), xs) := pulls m self it in
    (set_object_list self' (PlainIterator it'), Returns xs).
Proof.
  intros Ho. unfold stream, page_iter. rewrite Ho.
  destruct (pulls m self it) as [[self' it'] xs] eqn:Hp.
  apply pulls_frame in Hp as (_ & _ & Ho'). unfold store. by rewrite Ho', Ho.
Qed.

(** One pass over a fresh page built around a queryset. *)
Lemma stream_queryset m self rows :
  object_list self = ObservableQuerySet rows None ->
  let it0 := mkObservableIterator 0 rows
               (Some (match rows with [] => false | _ => true end)) false in
  let self0 := set_object_list self
                 (ObservableQuerySet rows (Some (ObservableIterator_init rows))) in
  stream m self =
    match rows with
    | [] =>
        if number self >? 1 then
          (set_object_list self (ObservableQuerySet rows (Some it0)), Raises Http404)
        else
          let self1 := set_bookkeeping self0 (Z.min (per_page self) 0)
                                       (Some (0 >? per_page self)) in
          if 0 =? per_page self then
            (set_object_list self1
               (ObservableQuerySet rows (Some (mkObservableIterator 0 [] (Some false) true))),
             Raises StopIteration)
          else
            let '((self', it'), xs) := pulls m self1 it0 in
            (set_object_list self' (ObservableQuerySet rows (Some it')), Returns xs)
    | _ :: _ =>
        let '((self', it'), xs) := pulls m self0 it0 in
        (set_object_list self' (ObservableQuerySet rows (Some it')), Returns xs)
    end.
Proof.
  intros Ho. unfold stream, page_iter. rewrite Ho.
  destruct rows as [|v rows]; cbn -[Z.eqb Z.gtb Z.min].
  - unfold _watch_object_list, ObservableIterator_next; cbn -[Z.eqb Z.gtb Z.min].
    destruct (number self >? 1); [done|].
    destruct (0 =? per_page self); [done|].
    match goal with |- context [pulls m ?s ?i] =>
      destruct (pulls m s i) as [[self' it'] xs] eqn:Hp end.
    apply pulls_frame in Hp as (_ & _ & Ho'). unfold store. by rewrite Ho'.
  - match goal with |- context [pulls m ?s ?i] =>
      destruct (pulls m s i) as [[self' it'] xs] eqn:Hp end.
    apply pulls_frame in Hp as (_ & _ & Ho'). unfold store. by rewrite Ho'.
Qed.

(** A run of pulls on an iterator nothing has been pulled from yet. *)
Lemma pulls_fresh rows m self0 it0 self' it' xs :
  number_returned it0 = 0 -> _iterable it0 = rows -> _is_iterated it0 = false ->
  (rows = [] -> current self0 it0) ->
  pulls m self0 it0 = ((self', it'), xs) ->
  per_page self' = per_page self0 /\ number self' = number self0
  /\ object_list self' = object_list self0
  /\ in_step rows self' it'
  /\ (_length self0 = Z.min (per_page self0) 0 ->
      _length self' = Z.min (per_page self0) (number_returned it'))
  /\ number_returned it' <= Z.of_nat (length xs) + 1
  /\ ((length rows < m)%nat -> _is_iterated it' = true)
  /\ (0 < per_page self0 -> Z.of_nat (length rows) <= per_page self0 + 1 ->
      xs `prefix_of` take (Z.to_nat (per_page self0)) rows).
Proof.
  intros Hn0 Hr0 Hi0 He Hp.
  pose proof (pulls_frame _ _ _ _ _ _ Hp) as (F1 & F2 & F3).
  assert (Hstep : in_step rows self0 it0).
  { unfold in_step. rewrite Hr0, Hn0, Hi0. split; [done|]. split; [done|]. lia. }
  split; [done|]. split; [done|]. split; [done|].
  split; [by eapply pulls_in_step|]. split.
  { intros Hl. rewrite <- F1. eapply pulls_length; [|done]. by rewrite Hn0. }
  split.
  { apply pulls_count in Hp as [Hle _]. lia. }
  split.
  { intros Hlt. eapply pulls_drains; [|done]. by rewrite Hr0. }
  intros HP Hlen. pose proof (pulls_prefix m self0 it0) as Hpre.
  rewrite Hp, Hn0, Hr0 in Hpre.
  replace (per_page self0 - 0) with (per_page self0) in Hpre by lia.
  apply Hpre; lia.
Qed.

(** What one pass over a fresh page leaves behind: the page watches an
    iterator and is in step with it, unless the pass was refused because the
    page lies beyond the last one. *)
Lemma stream_fresh (b : list A + list A) N P m pg0 pg r :
  DSOPage_init b N P = Returns pg0 ->
  stream m pg0 = (pg, r) ->
  per_page pg = P /\ number pg = N /\
  exists it, watched pg = Some it /\ remaining pg = _iterable it /\
    ((in_step (rows_of b) pg it
      /\ (0 <= P -> _length pg = Z.min P (number_returned it))
      /\ (forall xs, r = Returns xs ->
            number_returned it <= Z.of_nat (length xs) + 1
            /\ ((length (rows_of b) < m)%nat -> _is_iterated it = true)
            /\ (0 < P -> Z.of_nat (length (rows_of b)) <= P + 1 ->
                xs `prefix_of` take (Z.to_nat P) (rows_of b))))
     \/ (r = Raises Http404 /\ rows_of b = [] /\ 1 < N
         /\ _is_iterated it = false /\ number_returned it = 0
         /\ _iterable it = []
         /\ _length pg = 0 /\ _has_next pg = None)).
Proof.
  intros Hinit Hs. apply init_cases in Hinit as (HN & HP & Hb).
  destruct b as [rows|rows]; cbn [rows_of].
  - destruct Hb as (it0 & Ho & Hn0 & Hr0 & Hi0 & He & Hne).
    rewrite (stream_plain m pg0 it0 Ho) in Hs.
    destruct (pulls m pg0 it0) as [[self' it'] xs] eqn:Hp.
    injection Hs as <- <-.
    assert (He' : rows = [] -> current pg0 it0) by (intros; by apply He).
    destruct (pulls_fresh rows m pg0 it0 self' it' xs Hn0 Hr0 Hi0 He' Hp)
      as (F1 & F2 & F3 & Hstep & Hl & Hc & Hd & Hpre).
    cbn. rewrite F1, F2, HP, HN in *. split; [done|]. split; [done|].
    exists it'. split; [done|]. split; [done|]. left.
    split; [exact Hstep|]. split.
    + intros HP0. apply Hl. destruct rows as [|v rows].
      * destruct (He eq_refl) as [[_ Hc0] _]. by rewrite Hc0, HP, Hn0.
      * destruct Hne as [-> _]; [done|lia].
    + intros ys [= <-]. done.
  - destruct Hb as (Ho & Hl0 & Hh0).
    rewrite (stream_queryset m pg0 rows Ho) in Hs. cbn zeta in Hs.
    destruct rows as [|v rows].
    + destruct (number pg0 >? 1) eqn:EN.
      * injection Hs as <- <-. cbn. split; [done|]. split; [done|].
        eexists. split; [done|]. split; [done|]. right. cbn.
        rewrite Z.gtb_ltb in EN. apply Z.ltb_lt in EN.
        rewrite <- HN. done.
      * destruct (0 =? per_page pg0) eqn:EP.
        { injection Hs as <- <-. cbn. split; [done|]. split; [done|].
          eexists. split; [done|]. split; [done|]. left. cbn.
          split; [|split; [by rewrite HP|done]].
          unfold in_step, current. cbn. done. }
        match type of Hs with context [pulls m ?s ?i] =>
          destruct (pulls m s i) as [[self' it'] xs] eqn:Hp;
          edestruct (pulls_fresh [] m s i self' it' xs)
            as (F1 & F2 & F3 & Hstep & Hl & Hc & Hd & Hpre); [done..|]
        end.
        injection Hs as <- <-. cbn in *.
        rewrite F1, F2, HP, HN in *. split; [done|]. split; [done|].
        exists it'. split; [done|]. split; [done|]. left.
        split; [exact Hstep|]. split; [intros _; by apply Hl|].
        intros ys [= <-]. done.
    + match type of Hs with context [pulls m ?s ?i] =>
        destruct (pulls m s i) as [[self' it'] xs] eqn:Hp;
        edestruct (pulls_fresh (v :: rows) m s i self' it' xs)
          as (F1 & F2 & F3 & Hstep & Hl & Hc & Hd & Hpre); [done..|]
      end.
      injection Hs as <- <-. cbn in *.
      rewrite F1, F2, HP, HN in *. split; [done|]. split; [done|].
      exists it'. split; [done|]. split; [done|]. left.
      split; [exact Hstep|]. split.
      * intros HP0. apply Hl. rewrite Hl0. lia.
      * intros ys [= <-]. done.
Qed.

Lemma is_iterated_watched self it :
  watched self = Some it -> is_iterated self = _is_iterated it.
Proof.
  unfold watched, is_iterated.
  destruct (object_list self) as [it0|rows [it0|]]; by intros [= ->].
Qed.

Lemma produced_watched self it :
  watched self = Some it -> produced self = number_returned it.
Proof. unfold produced. by intros ->. Qed.

(** C4: [has_next] is the unknown marker until the backing sequence of the
    page has been drained (and enough pulls drain it); once it is drained,
    no row is left, [has_next] tells whether the
    produced count exceeds the page size [P] and the length of the page is
    [min(P, produced count)]; the sentinel row is never handed to the
    consumer, and when the produced count reaches [P + 1] the sentinel has
    been pulled and dropped, the consumer holding the [P] rows before it. *)
Theorem has_next_after_drain (b : list A + list A) N P m pg0 pg r :
  DSOPage_init b N P = Returns pg0 ->
  stream m pg0 = (pg, r) ->
  (has_next pg = None <-> is_iterated pg = false)
  /\ (is_iterated pg = true ->
        remaining pg = []
        /\ has_next pg = Some (produced pg >? P)
        /\ len pg = Z.min P (produced pg))
  /\ (forall xs, r = Returns xs ->
        (length (rows_of b) < m)%nat -> is_iterated pg = true)
  /\ (0 < P -> Z.of_nat (length (rows_of b)) <= P + 1 ->
      forall xs, r = Returns xs ->
        xs `prefix_of` take (Z.to_nat P) (rows_of b)
        /\ (produced pg = P + 1 ->
            remaining pg = [] /\ xs = take (Z.to_nat P) (rows_of b))).
Proof.
  intros Hinit Hs.
  destruct (stream_fresh b N P m pg0 pg r Hinit Hs)
    as (HP & HN & it & Hw & Hrem & Hcases).
  rewrite (produced_watched pg it Hw), (is_iterated_watched pg it Hw).
  unfold has_next, len. rewrite (is_iterated_watched pg it Hw), Hrem.
  destruct Hcases as [(Hstep & Hlen & Hxs)|(-> & He & HN1 & Hi & Hn & _ & Hl & Hh)].
  - destruct Hstep as (Hcur & Hit & Hcount & Hle).
    assert (Hdone : _is_iterated it = true -> current pg it).
    { intros Hi. apply Hcur, Hit, Hi. }
    unfold current in Hdone. rewrite HP in Hdone.
    split; [|split; [|split]].
    + destruct (_is_iterated it); [|done].
      destruct (Hdone eq_refl) as [-> _]. done.
    + intros Hi. rewrite Hi. split; [by apply Hit|by apply Hdone].
    + intros xs Hr Hm. by apply (Hxs xs Hr).
    + intros HP0 Hrows xs Hr. destruct (Hxs xs Hr) as (Hc & _ & Hpre).
      specialize (Hpre HP0 Hrows). split; [done|]. intros Hfull.
      split.
      * apply nil_length_inv. lia.
      * apply prefix_length_eq; [done|]. rewrite length_take. lia.
  - rewrite Hi. split; [done|]. split; [done|]. split; intros; done.
Qed.



(** *** The paginator *)

(** A slice with indices that are not negative keeps the rows in between. *)
Lemma py_slice_nonneg (l : list A) (a b : Z) :
  0 <= a -> 0 <= b ->
  py_slice l a b = rows_between (Z.to_nat a) (Z.to_nat b) l.
Proof.
  intros Ha Hb. unfold py_slice, rows_between, slice_index.
  destruct (a <? 0) eqn:Ea; [apply Z.ltb_lt in Ea; lia|].
  destruct (b <? 0) eqn:Eb; [apply Z.ltb_lt in Eb; lia|].
  apply list_eq. intros i.
  rewrite lookup_take, !lookup_drop, lookup_take.
  repeat case_decide; try done; try lia.
  all: first [f_equal; lia | symmetry; apply lookup_ge_None_2; lia
             | apply lookup_ge_None_2; lia].
Qed.

(** C6: for a valid page number [N] and a page size [P], [page(N)] hands the
    page the rows of the backing sequence with an index in the half-open
    range from [(N-1)*P] to [N*P+1]: the [P] rows of the page and one more,
    the sentinel. *)
Theorem page_fetch_range (l : list A) (P N : Z) :
  0 <= P -> 1 <= N ->
  let lo := Z.to_nat ((N - 1) * P) in
  let hi := Z.to_nat (N * P + 1) in
  page (Sequence l) P (NumInt N) = DSOPage_init (inl (rows_between lo hi l)) N P
  /\ page (QuerySet l) P (NumInt N) = DSOPage_init (inr (rows_between lo hi l)) N P
  /\ (forall i : nat,
        rows_between lo hi l !! i
        = if decide (lo + i < hi)%nat then l !! (lo + i)%nat else None)
  /\ (hi - lo = Z.to_nat P + 1)%nat.
Proof.
  intros HP HN lo hi.
  assert (Hlo : 0 <= (N - 1) * P) by nia.
  assert (Hhi : (N - 1) * P + P + 1 = N * P + 1) by lia.
  unfold page, validate_number, backing_slice.
  destruct (N <? 1) eqn:EN; [apply Z.ltb_lt in EN; lia|]. cbn zeta.
  destruct ((N - 1) * P <? 0) eqn:E1; [apply Z.ltb_lt in E1; lia|].
  destruct ((N - 1) * P + P + 1 <? 0) eqn:E2; [apply Z.ltb_lt in E2; lia|].
  cbn [orb]. rewrite !py_slice_nonneg by lia. rewrite Hhi.
  split; [done|]. split; [done|]. split.
  - intros i. unfold rows_between. rewrite lookup_drop, lookup_take.
    by repeat case_decide.
  - subst lo hi. nia.
Qed.

(** C5: with a positive page size, a page [N > 1] whose slice of the
    backing rows is empty is refused with [Http404], when the page is built
    (plain sequence) or when the rendering layer starts to pull (queryset);
    page 1 with an empty slice is built, and once the consumer has found it
    exhausted it has length 0 and no next page. *)
Theorem empty_slice_boundary (b : Backing A) (P N : Z) (sl : list A + list A) :
  0 < P ->
  backing_slice b ((N - 1) * P) ((N - 1) * P + P + 1) = Returns sl ->
  rows_of sl = [] ->
  (1 < N ->
     match sl with
     | inl _ => page b P (NumInt N) = Raises Http404
     | inr _ =>
         exists pg0, page b P (NumInt N) = Returns pg0
           /\ forall m, exists pg, stream m pg0 = (pg, Raises Http404)
     end)
  /\ (N = 1 ->
      exists pg0, page b P (NumInt N) = Returns pg0
        /\ forall m pg r, stream (S m) pg0 = (pg, r) ->
             r = Returns [] /\ is_iterated pg = true
             /\ len pg = 0 /\ has_next pg = Some false).
Proof.
  intros HP Hsl Hrows. unfold page, validate_number. split.
  - intros HN. destruct (N <? 1) eqn:EN; [apply Z.ltb_lt in EN; lia|].
    cbn zeta. rewrite Hsl.
    assert ((N >? 1) = true) as EN1 by (rewrite Z.gtb_ltb; apply Z.ltb_lt; lia).
    destruct sl as [rows|rows]; cbn in Hrows; subst rows.
    + unfold DSOPage_init, _watch_object_list. cbn -[Z.eqb Z.gtb Z.min].
      by rewrite EN1.
    + exists (mkDSOPage N P 0 None (ObservableQuerySet [] None)).
      split; [reflexivity|]. intros m. eexists.
      rewrite (stream_queryset m (mkDSOPage N P 0 None (ObservableQuerySet [] None))
                 [] eq_refl).
      cbn -[Z.eqb Z.gtb Z.min]. by rewrite EN1.
  - intros ->. cbn -[Z.eqb Z.gtb Z.min Z.mul Z.add Z.sub]. cbn zeta.
    rewrite Hsl.
    assert ((0 =? P) = false) as EP by (apply Z.eqb_neq; lia).
    assert ((0 >? P) = false) as EG by (rewrite Z.gtb_ltb; apply Z.ltb_ge; lia).
    assert (Z.min P 0 = 0) as EM by lia.
    destruct sl as [rows|rows]; cbn in Hrows; subst rows.
    + unfold DSOPage_init, _watch_object_list. cbn -[Z.eqb Z.gtb Z.min].
      rewrite EP, EG, EM.
      exists (mkDSOPage 1 P 0 (Some false)
                (PlainIterator (mkObservableIterator 0 [] (Some false) false))).
      split; [reflexivity|]. intros m pg r.
      rewrite (stream_plain (S m)
                 (mkDSOPage 1 P 0 (Some false)
                    (PlainIterator (mkObservableIterator 0 [] (Some false) false)))
                 (mkObservableIterator 0 [] (Some false) false) eq_refl).
      cbn -[Z.eqb Z.gtb Z.min]. by intros [= <- <-].
    + exists (mkDSOPage 1 P 0 None (ObservableQuerySet [] None)).
      split; [reflexivity|]. intros m pg r.
      rewrite (stream_queryset (S m) (mkDSOPage 1 P 0 None (ObservableQuerySet [] None))
                 [] eq_refl).
      cbn -[Z.eqb Z.gtb Z.min]. rewrite EP, EG, EM. by intros [= <- <-].
Qed.

(** *** Whole pages *)

Lemma pulls_ge m : forall self it self' it' xs,
  pulls m self it = ((self', it'), xs) ->
  number_returned it <= number_returned it'.
Proof.
  induction m as [|m IH]; intros self it self' it' xs Hp; simpl in Hp.
  { simplify_eq. lia. }
  destruct (ObservableIterator_next self it) as [[self1 it1] [x|e]] eqn:Hn.
  - destruct (pulls m self1 it1) as [[self2 it2] ys] eqn:Hm. simplify_eq.
    apply next_mono in Hn. apply IH in Hm. lia.
  - simplify_eq. by apply next_mono in Hn.
Qed.

(** As long as the page boundary is not reached, every row produced is a
    row handed over. *)
Lemma pulls_count_below m : forall self it self' it' xs,
  pulls m self it = ((self', it'), xs) ->
  number_returned it' < per_page self ->
  number_returned it' = number_returned it + Z.of_nat (length xs).
Proof.
  induction m as [|m IH]; intros self it self' it' xs Hp Hlt; simpl in Hp.
  { simplify_eq. simpl. lia. }
  destruct (ObservableIterator_next self it) as [[self1 it1] [x|e]] eqn:Hn.
  - destruct (pulls m self1 it1) as [[self2 it2] ys] eqn:Hm. simplify_eq.
    pose proof (next_frame _ _ _ _ _ Hn) as (F1 & _).
    pose proof (pulls_ge _ _ _ _ _ _ Hm) as Hge.
    apply IH in Hm; [|by rewrite F1].
    next_cases Hn it; simpl in *;
      first [apply Z.eqb_eq in E | apply Z.eqb_neq in E]; lia.
  - simplify_eq.
    next_cases Hn it; simpl in *; try apply Z.eqb_eq in E; lia.
Qed.

(** Draining a slice that carries a sentinel: the consumer gets the [P]
    rows before it, and the page knows there is a next one. *)
Lemma pulls_full rows m self0 it0 self' it' xs :
  number_returned it0 = 0 -> _iterable it0 = rows -> _is_iterated it0 = false ->
  0 < per_page self0 ->
  Z.of_nat (length rows) = per_page self0 + 1 ->
  (length rows < m)%nat ->
  pulls m self0 it0 = ((self', it'), xs) ->
  xs = take (Z.to_nat (per_page self0)) rows
  /\ _is_iterated it' = true /\ _iterable it' = []
  /\ _has_next self' = Some true
  /\ _length self' = per_page self0.
Proof.
  intros Hn0 Hr0 Hi0 HP Hlen Hm Hp.
  assert (He : rows = [] -> current self0 it0).
  { intros ->. simpl in Hlen. lia. }
  destruct (pulls_fresh rows m self0 it0 self' it' xs Hn0 Hr0 Hi0 He Hp)
    as (F1 & _ & _ & Hstep & _ & Hc & Hd & Hpre).
  destruct Hstep as (Hcur & Hit & Hcount & Hle).
  specialize (Hd Hm). specialize (Hit Hd). specialize (Hcur Hit).
  specialize (Hpre HP ltac:(lia)).
  rewrite Hit in Hcount. simpl in Hcount.
  destruct Hcur as [Hh Hl]. rewrite F1 in Hh, Hl.
  split.
  { apply prefix_length_eq; [done|]. rewrite length_take. lia. }
  split; [done|]. split; [done|]. split.
  - rewrite Hh. f_equal. rewrite Z.gtb_ltb. apply Z.ltb_lt. lia.
  - rewrite Hl. lia.
Qed.

(** Draining a slice of fewer than [P] rows: the consumer gets them all,
    and the page knows it is the last one. *)
Lemma pulls_short rows m self0 it0 self' it' xs :
  number_returned it0 = 0 -> _iterable it0 = rows -> _is_iterated it0 = false ->
  rows <> [] ->
  Z.of_nat (length rows) < per_page self0 ->
  (length rows < m)%nat ->
  pulls m self0 it0 = ((self', it'), xs) ->
  xs = rows
  /\ _is_iterated it' = true /\ _iterable it' = []
  /\ _has_next self' = Some false
  /\ _length self' = Z.of_nat (length rows).
Proof.
  intros Hn0 Hr0 Hi0 Hne Hlen Hm Hp.
  assert (He : rows = [] -> current self0 it0) by done.
  destruct (pulls_fresh rows m self0 it0 self' it' xs Hn0 Hr0 Hi0 He Hp)
    as (F1 & _ & _ & Hstep & _ & Hc & Hd & Hpre).
  destruct Hstep as (Hcur & Hit & Hcount & Hle).
  specialize (Hd Hm). specialize (Hit Hd). specialize (Hcur Hit).
  specialize (Hpre ltac:(lia) ltac:(lia)).
  rewrite Hit in Hcount. simpl in Hcount.
  pose proof (pulls_count_below _ _ _ _ _ _ Hp ltac:(lia)) as Hxs.
  destruct Hcur as [Hh Hl]. rewrite F1 in Hh, Hl.
  rewrite take_ge in Hpre by lia.
  split.
  { apply prefix_length_eq; [done|]. lia. }
  split; [done|]. split; [done|]. split.
  - rewrite Hh. f_equal. rewrite Z.gtb_ltb. apply Z.ltb_ge. lia.
  - rewrite Hl. lia.
Qed.

(** A page over rows: built without more ado, and one pass over it is a
    run of pulls on a fresh iterator. *)
Lemma stream_nonempty (b : list A + list A) N P m :
  rows_of b <> [] ->
  exists pg0 self0 it0,
    DSOPage_init b N P = Returns pg0
    /\ number_returned it0 = 0 /\ _iterable it0 = rows_of b
    /\ _is_iterated it0 = false /\ per_page self0 = P
    /\ forall self' it' xs,
         pulls m self0 it0 = ((self', it'), xs) ->
         exists pg, stream m pg0 = (pg, Returns xs)
           /\ watched pg = Some it' /\ remaining pg = _iterable it'
           /\ _has_next pg = _has_next self' /\ _length pg = _length self'.
Proof.
  intros Hne. destruct b as [rows|rows]; cbn [rows_of] in *.
  - destruct rows as [|v rows]; [done|].
    pose (it0 := mkObservableIterator 0 (v :: rows) (Some true) false).
    exists (mkDSOPage N P 0 None (PlainIterator it0)),
           (mkDSOPage N P 0 None (PlainIterator it0)), it0.
    split; [reflexivity|]. do 4 (split; [reflexivity|]).
    intros self' it' xs Hp. eexists.
    rewrite (stream_plain m (mkDSOPage N P 0 None (PlainIterator it0)) it0 eq_refl).
    rewrite Hp. done.
  - destruct rows as [|v rows]; [done|].
    pose (it0 := mkObservableIterator 0 (v :: rows) (Some true) false).
    exists (mkDSOPage N P 0 None (ObservableQuerySet (v :: rows) None)),
           (mkDSOPage N P 0 None
              (ObservableQuerySet (v :: rows)
                 (Some (ObservableIterator_init (v :: rows))))), it0.
    split; [reflexivity|]. do 4 (split; [reflexivity|]).
    intros self' it' xs Hp. eexists.
    rewrite (stream_queryset m
               (mkDSOPage N P 0 None (ObservableQuerySet (v :: rows) None))
               (v :: rows) eq_refl).
    cbn zeta.
    match goal with |- context [pulls m ?s ?i] =>
      replace (pulls m s i) with (self', it', xs) by (symmetry; exact Hp) end.
    done.
Qed.

Lemma has_next_watched self it :
  watched self = Some it ->
  has_next self = if _is_iterated it then _has_next self else None.
Proof. intros Hw. unfold has_next. by rewrite (is_iterated_watched self it Hw). Qed.

(** What [page] builds for a valid page number. *)
Lemma page_unfold (l : list A) (P N : Z) :
  0 <= P -> 1 <= N ->
  let sl := rows_between (Z.to_nat ((N - 1) * P)) (Z.to_nat (N * P + 1)) l in
  page (Sequence l) P (NumInt N) = DSOPage_init (inl sl) N P
  /\ page (QuerySet l) P (NumInt N) = DSOPage_init (inr sl) N P.
Proof.
  intros HP HN sl. subst sl.
  assert (Hlo : 0 <= (N - 1) * P) by nia.
  assert (Hhi : (N - 1) * P + P + 1 = N * P + 1) by lia.
  unfold page, validate_number, backing_slice.
  destruct (N <? 1) eqn:EN; [apply Z.ltb_lt in EN; lia|]. cbn zeta.
  destruct ((N - 1) * P <? 0) eqn:E1; [apply Z.ltb_lt in E1; lia|].
  destruct ((N - 1) * P + P + 1 <? 0) eqn:E2; [apply Z.ltb_lt in E2; lia|].
  cbn [orb]. rewrite !py_slice_nonneg by lia. by rewrite Hhi.
Qed.

Lemma length_rows_between (lo hi : nat) (l : list A) :
  length (rows_between lo hi l) = (Nat.min hi (length l) - lo)%nat.
Proof. unfold rows_between. by rewrite length_drop, length_take. Qed.

(** X1: page [N] of a backing sequence that goes on beyond it: once the
    rendering layer has drained the page, it has received exactly the rows
    with an index from [(N-1)*P] up to [N*P], the page has length [P] and
    [has_next] is true. *)
Theorem page_with_successor (b : Backing A) (l : list A) (P N : Z) (m : nat) :
  b = Sequence l \/ b = QuerySet l ->
  0 < P -> 1 <= N ->
  N * P < Z.of_nat (length l) ->
  (Z.to_nat P + 1 < m)%nat ->
  exists pg0 pg,
    page b P (NumInt N) = Returns pg0
    /\ stream m pg0
       = (pg, Returns (rows_between (Z.to_nat ((N - 1) * P)) (Z.to_nat (N * P)) l))
    /\ is_iterated pg = true /\ remaining pg = []
    /\ has_next pg = Some true /\ len pg = P.
Proof.
  intros Hb HP HN Hlen Hm.
  destruct (page_unfold l P N ltac:(lia) HN) as [Hseq Hqs].
  set (lo := Z.to_nat ((N - 1) * P)) in *.
  set (sl := rows_between lo (Z.to_nat (N * P + 1)) l) in *.
  assert (Hsl : length sl = (Z.to_nat P + 1)%nat).
  { subst sl. rewrite length_rows_between. subst lo. nia. }
  assert (Htake : take (Z.to_nat P) sl = rows_between lo (Z.to_nat (N * P)) l).
  { subst sl. unfold rows_between.
    rewrite take_drop_commute, take_take. do 2 f_equal. subst lo. nia. }
  assert (Hpage : exists s : list A + list A,
             page b P (NumInt N) = DSOPage_init s N P /\ rows_of s = sl).
  { destruct Hb as [-> | ->]; [exists (inl sl)|exists (inr sl)]; done. }
  destruct Hpage as (s & -> & Hrows).
  assert (Hne : rows_of s <> []).
  { rewrite Hrows. intros E. rewrite E in Hsl. simpl in Hsl. lia. }
  destruct (stream_nonempty s N P m Hne)
    as (pg0 & self0 & it0 & Hinit & Hn0 & Hr0 & Hi0 & HP0 & Hstream).
  destruct (pulls m self0 it0) as [[self' it'] xs] eqn:Hp.
  destruct (Hstream self' it' xs eq_refl) as (pg & Hs & Hw & Hrem & Hh & Hl).
  rewrite Hrows in Hr0.
  destruct (pulls_full sl m self0 it0 self' it' xs Hn0 Hr0 Hi0)
    as (-> & Hit & Hnil & Hhn & Hln); [lia..|done|].
  exists pg0, pg. split; [done|]. rewrite HP0, Htake in Hs. split; [done|].
  rewrite (is_iterated_watched pg it' Hw), (has_next_watched pg it' Hw), Hit, Hrem.
  unfold len. rewrite Hh, Hl, Hhn, Hln. done.
Qed.

(** X2: the last page, when it holds fewer than [P] rows: the consumer
    receives every row from index [(N-1)*P] on, the length of the page is
    their number and [has_next] is false. *)
Theorem short_last_page (b : Backing A) (l : list A) (P N : Z) (m : nat) :
  b = Sequence l \/ b = QuerySet l ->
  0 < P -> 1 <= N ->
  (N - 1) * P < Z.of_nat (length l) < N * P ->
  (length l < m)%nat ->
  exists pg0 pg,
    page b P (NumInt N) = Returns pg0
    /\ stream m pg0 = (pg, Returns (drop (Z.to_nat ((N - 1) * P)) l))
    /\ is_iterated pg = true
    /\ has_next pg = Some false
    /\ len pg = Z.of_nat (length l) - (N - 1) * P.
Proof.
  intros Hb HP HN Hlen Hm.
  destruct (page_unfold l P N ltac:(lia) HN) as [Hseq Hqs].
  set (lo := Z.to_nat ((N - 1) * P)) in *.
  set (sl := rows_between lo (Z.to_nat (N * P + 1)) l) in *.
  assert (Hsl : sl = drop lo l).
  { subst sl. unfold rows_between. rewrite take_ge; [done|]. nia. }
  assert (Hlsl : Z.of_nat (length sl) = Z.of_nat (length l) - (N - 1) * P).
  { rewrite Hsl, length_drop. subst lo. nia. }
  assert (Hpage : exists s : list A + list A,
             page b P (NumInt N) = DSOPage_init s N P /\ rows_of s = sl).
  { destruct Hb as [-> | ->]; [exists (inl sl)|exists (inr sl)]; done. }
  destruct Hpage as (s & -> & Hrows).
  assert (Hne : rows_of s <> []).
  { rewrite Hrows. intros E. rewrite E in Hlsl. simpl in Hlsl. lia. }
  destruct (stream_nonempty s N P m Hne)
    as (pg0 & self0 & it0 & Hinit & Hn0 & Hr0 & Hi0 & HP0 & Hstream).
  destruct (pulls m self0 it0) as [[self' it'] xs] eqn:Hp.
  destruct (Hstream self' it' xs eq_refl) as (pg & Hs & Hw & Hrem & Hh & Hl).
  rewrite Hrows in Hr0, Hne.
  destruct (pulls_short sl m self0 it0 self' it' xs Hn0 Hr0 Hi0 Hne)
    as (-> & Hit & Hnil & Hhn & Hln); [lia| |done|].
  { rewrite Hsl, length_drop. lia. }
  exists pg0, pg. split; [done|]. rewrite Hsl in Hs. split; [done|].
  rewrite (is_iterated_watched pg it' Hw), (has_next_watched pg it' Hw), Hit.
  unfold len. rewrite Hh, Hl, Hhn, Hln. done.
Qed.

(** X3: for a plain sequence and a positive page size, [page(N)] is refused
    with [Http404] exactly when [N > 1] and the sequence has no row at index
    [(N-1)*P]; for a queryset the page is always built, and the refusal
    comes with the first pass, under the same condition. *)
Theorem page_out_of_range (l : list A) (P N : Z) :
  0 < P -> 1 <= N ->
  (page (Sequence l) P (NumInt N) = Raises Http404
   <-> 1 < N /\ Z.of_nat (length l) <= (N - 1) * P)
  /\ exists pg0, page (QuerySet l) P (NumInt N) = Returns pg0
       /\ forall m, (exists pg, stream m pg0 = (pg, Raises Http404))
                    <-> 1 < N /\ Z.of_nat (length l) <= (N - 1) * P.
Proof.
  intros HP HN.
  destruct (page_unfold l P N ltac:(lia) HN) as [-> ->].
  set (lo := Z.to_nat ((N - 1) * P)) in *.
  set (sl := rows_between lo (Z.to_nat (N * P + 1)) l) in *.
  assert (Hsl : sl = [] <-> Z.of_nat (length l) <= (N - 1) * P).
  { split.
    - intros E. assert (Hl : length sl = 0%nat) by (by rewrite E).
      subst sl. rewrite length_rows_between in Hl. subst lo. nia.
    - intros Hle. apply nil_length_inv. subst sl.
      rewrite length_rows_between. subst lo. nia. }
  assert (EP : (0 =? P) = false) by (apply Z.eqb_neq; lia).
  split.
  - destruct sl as [|v sl'] eqn:Esl.
    + unfold DSOPage_init, _watch_object_list. cbn -[Z.eqb Z.gtb Z.min].
      destruct (N >? 1) eqn:EN.
      * rewrite Z.gtb_ltb in EN. apply Z.ltb_lt in EN.
        split; [intros _; split; [lia|by apply Hsl]|done].
      * rewrite Z.gtb_ltb in EN. apply Z.ltb_ge in EN. rewrite EP.
        split; [done|]. intros [? _]. lia.
    + cbn. split; [done|]. intros [_ Hle]. apply Hsl in Hle. done.
  - exists (mkDSOPage N P 0 None (ObservableQuerySet sl None)).
    split; [reflexivity|]. intros m.
    rewrite (stream_queryset m (mkDSOPage N P 0 None (ObservableQuerySet sl None))
               sl eq_refl).
    cbn zeta. cbn [number per_page]. destruct sl as [|v sl'] eqn:Esl.
    + destruct (N >? 1) eqn:EN.
      * rewrite Z.gtb_ltb in EN. apply Z.ltb_lt in EN.
        split; [intros _; split; [lia|by apply Hsl]|eauto].
      * rewrite Z.gtb_ltb in EN. apply Z.ltb_ge in EN. rewrite EP.
        match goal with |- context [pulls m ?s ?i] =>
          destruct (pulls m s i) as [[s1 i1] xs1] end.
        split; [by intros [pg [= ]]|]. intros [? _]. lia.
    + match goal with |- context [pulls m ?s ?i] =>
        destruct (pulls m s i) as [[s1 i1] xs1] end.
      split; [by intros [pg [= ]]|]. intros [_ Hle]. apply Hsl in Hle. done.
Qed.

(** One pass over the queryset of a page, whatever passes came before. *)
Lemma stream_queryset_again m self rows o :
  object_list self = ObservableQuerySet rows o ->
  let it0 := mkObservableIterator 0 rows
               (Some (match rows with [] => false | _ => true end)) false in
  let self0 := set_object_list self
                 (ObservableQuerySet rows (Some (ObservableIterator_init rows))) in
  stream m self =
    match rows with
    | [] =>
        if number self >? 1 then
          (set_object_list self (ObservableQuerySet rows (Some it0)), Raises Http404)
        else
          let self1 := set_bookkeeping self0 (Z.min (per_page self) 0)
                                       (Some (0 >? per_page self)) in
          if 0 =? per_page self then
            (set_object_list self1
               (ObservableQuerySet rows (Some (mkObservableIterator 0 [] (Some false) true))),
             Raises StopIteration)
          else
            let '((self', it'), xs) := pulls m self1 it0 in
            (set_object_list self' (ObservableQuerySet rows (Some it')), Returns xs)
    | _ :: _ =>
        let '((self', it'), xs) := pulls m self0 it0 in
        (set_object_list self' (ObservableQuerySet rows (Some it')), Returns xs)
    end.
Proof.
  intros Ho. unfold stream, page_iter. rewrite Ho.
  destruct rows as [|v rows]; cbn -[Z.eqb Z.gtb Z.min].
  - unfold _watch_object_list, ObservableIterator_next; cbn -[Z.eqb Z.gtb Z.min].
    destruct (number self >? 1); [done|].
    destruct (0 =? per_page self); [done|].
    match goal with |- context [pulls m ?s ?i] =>
      destruct (pulls m s i) as [[self' it'] xs] eqn:Hp end.
    apply pulls_frame in Hp as (_ & _ & Ho'). unfold store. by rewrite Ho'.
  - match goal with |- context [pulls m ?s ?i] =>
      destruct (pulls m s i) as [[self' it'] xs] eqn:Hp end.
    apply pulls_frame in Hp as (_ & _ & Ho'). unfold store. by rewrite Ho'.
Qed.

(** X4: the queryset of a page can be iterated again.  Every pass starts a
    new iterator, whatever the page had recorded: [has_next] is unknown
    again while rows are left to pull, and once the pass is drained
    [has_next] and [len] describe that pass. *)
Theorem queryset_iterated_again self rows o m pg r :
  object_list self = ObservableQuerySet rows o ->
  stream m self = (pg, r) ->
  (is_iterated pg = true ->
     remaining pg = []
     /\ has_next pg = Some (produced pg >? per_page self)
     /\ len pg = Z.min (per_page self) (produced pg))
  /\ (remaining pg <> [] -> has_next pg = None)
  /\ (forall xs, r = Returns xs -> (length rows < m)%nat -> is_iterated pg = true).
Proof.
  intros Ho Hs. rewrite (stream_queryset_again m self rows o Ho) in Hs.
  cbn zeta in Hs.
  assert (Hgen : forall self0 it0 self' it' xs,
    number_returned it0 = 0 -> _iterable it0 = rows -> _is_iterated it0 = false ->
    (rows = [] -> current self0 it0) -> per_page self0 = per_page self ->
    pulls m self0 it0 = ((self', it'), xs) ->
    let pg := set_object_list self' (ObservableQuerySet rows (Some it')) in
    (is_iterated pg = true ->
       remaining pg = []
       /\ has_next pg = Some (produced pg >? per_page self)
       /\ len pg = Z.min (per_page self) (produced pg))
    /\ (remaining pg <> [] -> has_next pg = None)
    /\ ((length rows < m)%nat -> is_iterated pg = true)).
  { intros self0 it0 self' it' xs Hn0 Hr0 Hi0 He HP Hp.
    destruct (pulls_fresh rows m self0 it0 self' it' xs Hn0 Hr0 Hi0 He Hp)
      as (F1 & _ & _ & Hstep & _ & _ & Hd & _).
    destruct Hstep as (Hcur & Hit & _ & _).
    unfold is_iterated, has_next, is_iterated, produced, remaining, len. cbn.
    split; [|split; [|done]].
    - intros Hi. rewrite Hi. specialize (Hit Hi).
      destruct (Hcur Hit) as [Hh Hl]. rewrite F1, HP in Hh, Hl. done.
    - intros Hrem. destruct (_is_iterated it') eqn:Hi; [|done].
      by specialize (Hit eq_refl). }
  destruct rows as [|v rows].
  - destruct (number self >? 1) eqn:EN.
    + injection Hs as <- <-. cbn. done.
    + destruct (0 =? per_page self) eqn:EP.
      * injection Hs as <- <-.
        unfold is_iterated, has_next, is_iterated, produced, remaining, len.
        cbn -[Z.gtb Z.min]. done.
      * match type of Hs with context [pulls m ?s ?i] =>
          destruct (pulls m s i) as [[self' it'] xs] eqn:Hp;
          pose proof (Hgen s i self' it' xs eq_refl eq_refl eq_refl) as Hg
        end.
        injection Hs as <- <-.
        destruct Hg as (G1 & G2 & G3); [done..|].
        split; [done|]. split; [done|]. intros ys _. done.
  - match type of Hs with context [pulls m ?s ?i] =>
      destruct (pulls m s i) as [[self' it'] xs] eqn:Hp;
      pose proof (Hgen s i self' it' xs eq_refl eq_refl eq_refl) as Hg
    end.
    injection Hs as <- <-.
    destruct Hg as (G1 & G2 & G3); [done..|].
    split; [done|]. split; [done|]. intros ys _. done.
Qed.

(** *** The length of a page through its life *)






(** What holds of a page at every moment of its life: the page size and
    number it was made with, a length between 0 and the page size, and the
    object list it was made with; a page around a plain sequence is in step
    with its one iterator. *)
Local Abbreviation alive b N P self :=
  (per_page self = P /\ number self = N /\ 0 <= _length self <= P
   /\ match b with
      | inl rows =>
          exists it, object_list self = PlainIterator it /\ in_step rows self it
                     /\ _length self = Z.min P (number_returned it)
      | inr rows => exists o, object_list self = ObservableQuerySet rows o
      end)%Z.




End Facts.

Import ExamplePages.

(** The pagination cases of the specification, page size 2 over 5 rows. *)
Example page_1_of_5 :
  page (Sequence backing) 2 (NumInt 1) = Returns page_1
  /\ stream 4 page_1 = (page_1_drained, Returns [10; 11])
  /\ len page_1_drained = 2 /\ has_next page_1_drained = Some true.
Proof. repeat split; reflexivity. Qed.

Example page_3_of_5 :
  page (Sequence backing) 2 (NumInt 3) = Returns page_3
  /\ stream 4 page_3 = (page_3_drained, Returns [14])
  /\ len page_3_drained = 1 /\ has_next page_3_drained = Some false.
Proof. repeat split; reflexivity. Qed.

Example page_4_of_5 : page (Sequence backing) 2 (NumInt 4) = Raises Http404.
Proof. reflexivity. Qed.

Example page_0_of_5 : page (Sequence backing) 2 (NumInt 0) = Raises EmptyPage.
Proof. reflexivity. Qed.

Example get_page_not_an_integer :
  get_page (Sequence backing) 2 NotAnInteger = Returns page_1
  /\ page (Sequence backing) 2 NotAnInteger = Raises PageNotAnInteger.
Proof. split; reflexivity. Qed.

Lemma has_next_after_drain_witness :
  (has_next page_1_drained = None <-> is_iterated page_1_drained = false)
  /\ has_next page_1_drained = Some true
  /\ len page_1_drained = 2
  /\ is_iterated page_1_drained = true
  /\ [10; 11] `prefix_of` [10; 11]
  /\ remaining page_1_drained = [].
Proof.
  destruct (has_next_after_drain (inl [10; 11; 12]) 1 2 4 page_1 page_1_drained
              (Returns [10; 11]) eq_refl eq_refl) as (H1 & H2 & H3 & H4).
  destruct (H2 eq_refl) as (_ & H2a & H2b).
  assert (H03 : (3 < 4)%nat) by lia.
  pose proof (H3 [10; 11] eq_refl H03) as H3a.
  destruct (H4 ltac:(lia) ltac:(simpl; lia) [10; 11] eq_refl) as [H4a H4b].
  destruct (H4b eq_refl) as [H4c _].
  split; [exact H1|]. split; [exact H2a|]. split; [exact H2b|].
  split; [exact H3a|]. split; [exact H4a|exact H4c].
Defined.



Lemma empty_slice_boundary_witness :
  page (Sequence ([] : list Z)) 2 (NumInt 2) = Raises Http404
  /\ (exists pg0, page (Sequence ([] : list Z)) 2 (NumInt 1) = Returns pg0
        /\ forall m pg r, stream (S m) pg0 = (pg, r) ->
             r = Returns [] /\ is_iterated pg = true
             /\ len pg = 0 /\ has_next pg = Some false).
Proof.
  split.
  - destruct (empty_slice_boundary (Sequence ([] : list Z)) 2 2 (inl [])
                ltac:(lia) eq_refl eq_refl) as [H1 _].
    apply H1. lia.
  - destruct (empty_slice_boundary (Sequence ([] : list Z)) 2 1 (inl [])
                ltac:(lia) eq_refl eq_refl) as [_ H2].
    apply H2. reflexivity.
Defined.

Lemma page_fetch_range_witness :
  page (Sequence backing) 2 (NumInt 2) = DSOPage_init (inl [12; 13; 14]) 2 2
  /\ rows_between 2 5 backing !! 2%nat = Some 14
  /\ rows_between 2 5 backing !! 3%nat = None.
Proof.
  destruct (page_fetch_range backing 2 2 ltac:(lia) ltac:(lia))
    as (H1 & _ & H3 & _).
  split; [exact H1|]. split; [exact (H3 2%nat)|exact (H3 3%nat)].
Defined.

Lemma page_with_successor_witness :
  exists pg0 pg,
    page (Sequence backing) 2 (NumInt 1) = Returns pg0
    /\ stream 4 pg0 = (pg, Returns [10; 11])
    /\ is_iterated pg = true /\ remaining pg = []
    /\ has_next pg = Some true /\ len pg = 2.
Proof.
  exact (page_with_successor (Sequence backing) backing 2 1 4
           (or_introl eq_refl) ltac:(lia) ltac:(lia)
           ltac:(simpl; lia) ltac:(simpl; lia)).
Defined.

Lemma short_last_page_witness :
  exists pg0 pg,
    page (QuerySet backing) 2 (NumInt 3) = Returns pg0
    /\ stream 6 pg0 = (pg, Returns [14])
    /\ is_iterated pg = true
    /\ has_next pg = Some false
    /\ len pg = 1.
Proof.
  exact (short_last_page (QuerySet backing) backing 2 3 6
           (or_intror eq_refl) ltac:(lia) ltac:(lia)
           ltac:(simpl; lia) ltac:(simpl; lia)).
Defined.

Lemma page_out_of_range_witness :
  page (Sequence backing) 2 (NumInt 4) = Raises Http404
  /\ page (Sequence backing) 2 (NumInt 3) <> Raises Http404.
Proof.
  split.
  - destruct (page_out_of_range backing 2 4 ltac:(lia) ltac:(lia)) as [[_ H] _].
    apply H. simpl. lia.
  - destruct (page_out_of_range backing 2 3 ltac:(lia) ltac:(lia)) as [[H _] _].
    intros E. apply H in E. simpl in E. lia.
Defined.

Lemma queryset_iterated_again_witness :
  has_next (stream 0 (stream 4 (mkDSOPage 1 2 0 None
                                  (ObservableQuerySet [10; 11; 12] None))).1).1 = None
  /\ has_next (stream 4 (stream 4 (mkDSOPage 1 2 0 None
                                     (ObservableQuerySet [10; 11; 12] None))).1).1
     = Some true.
Proof.
  set (pg1 := (stream 4 (mkDSOPage 1 2 0 None
                           (ObservableQuerySet [10; 11; 12] None))).1).
  split.
  - destruct (queryset_iterated_again pg1 [10; 11; 12]
                (Some (mkObservableIterator 3 [] (Some true) true)) 0
                (stream 0 pg1).1 (stream 0 pg1).2 eq_refl eq_refl) as (_ & H & _).
    apply H. discriminate.
  - destruct (queryset_iterated_again pg1 [10; 11; 12]
                (Some (mkObservableIterator 3 [] (Some true) true)) 4
                (stream 4 pg1).1 (stream 4 pg1).2 eq_refl eq_refl) as (H & _ & _).
    destruct (H eq_refl) as (_ & H2 & _). exact H2.
Defined.

End PaginatorFacts.

(* ====================================================================== *)
(** * Properties of request validation *)
(* ====================================================================== *)
Module PermissionFacts.
Import Permissions.
Open Scope string_scope.

Section Facts.
Context `{SM : SchemaModel}.
Implicit Types (scopes : UserScopes) (schema : DatasetTableSchema).

(** *** The mandatory filters *)

Lemma elem_of_filtersets (fss : list (list string)) (acc : gset string) x :
  x ∈ foldl (fun m fs => m ∪ list_to_set fs) acc fss
  <-> x ∈ acc \/ exists fs, fs ∈ fss /\ x ∈ fs.
Proof.
  revert acc. induction fss as [|fs fss IH]; intros acc; simpl.
  - split; [by left|]. intros [?|(fs & Hfs & _)]; [done|]. by apply elem_of_nil in Hfs.
  - rewrite IH, elem_of_union, elem_of_list_to_set. split.
    + intros [[?|?]|(fs' & ? & ?)]; [by left| |].
      * right. exists fs. split; [apply list_elem_of_here|done].
      * right. exists fs'. split; [by apply list_elem_of_further|done].
    + intros [?|(fs' & Hin & ?)]; [by left; left|].
      apply elem_of_cons in Hin as [->|?]; [by left; right|].
      right. by exists fs'.
Qed.

(** [collect_mandatory] is the union of the mandatory filter sets of the
    active profiles of the table. *)
Lemma elem_of_collect_mandatory scopes schema x :
  x ∈ collect_mandatory scopes schema
  <-> exists profile fs,
        profile ∈ get_active_profile_tables scopes (dataset_id schema) (table_id schema)
        /\ fs ∈ mandatory_filtersets profile /\ x ∈ fs.
Proof.
  unfold collect_mandatory.
  generalize (get_active_profile_tables scopes (dataset_id schema) (table_id schema)).
  intros profiles.
  assert (Hgen : forall acc : gset string,
    x ∈ foldl (fun mandatory profile =>
                 foldl (fun m fs => m ∪ list_to_set fs) mandatory
                       (mandatory_filtersets profile)) acc profiles
    <-> x ∈ acc \/ exists profile fs,
          profile ∈ profiles /\ fs ∈ mandatory_filtersets profile /\ x ∈ fs).
  { induction profiles as [|p ps IH]; intros acc; simpl.
    - split; [by left|]. intros [?|(p & fs & Hp & _)]; [done|].
      by apply elem_of_nil in Hp.
    - rewrite IH, elem_of_filtersets. split.
      + intros [[?|(fs & ? & ?)]|(p' & fs & ? & ? & ?)]; [by left| |].
        * right. exists p, fs. split; [apply list_elem_of_here|done].
        * right. exists p', fs. split; [by apply list_elem_of_further|done].
      + intros [?|(p' & fs & Hin & ? & ?)]; [by left; left|].
        apply elem_of_cons in Hin as [->|?]; [left; right; by exists fs|].
        right. by exists p', fs. }
  rewrite Hgen. split; [|by right]. intros [Hx|?]; [|done].
  by apply not_elem_of_empty in Hx.
Qed.

(** A parameter that passes its round does not change what the loop makes
    of the others. *)
Lemma validate_params_skip fuel scopes schema (allowed mandatory : gset string)
    (pre post : list (string * list string)) key values :
  validate_param fuel scopes schema allowed mandatory key values
    = Some (Returns tt) ->
  validate_params fuel scopes schema allowed mandatory
    (pre ++ (key, values) :: post)%list
  = validate_params fuel scopes schema allowed mandatory (pre ++ post)%list.
Proof.
  intros Hk. induction pre as [|[k vs] pre IH]; simpl.
  - by rewrite Hk.
  - by rewrite IH.
Qed.

(** One round of the loop on a mandatory filter: accepted, whatever the
    scopes allow, and with no fuel for any walk. *)
Lemma validate_param_mandatory fuel scopes schema (allowed mandatory : gset string)
    key values field_name op :
  key <> "_sort" -> key <> "sorteer" ->
  parse_filter key = Returns (field_name, op) ->
  key ∈ mandatory \/ field_name ∈ mandatory ->
  validate_param fuel scopes schema allowed mandatory key values
    = Some (Returns tt).
Proof.
  intros Hs1 Hs2 Hparse Hm. unfold validate_param.
  case_bool_decide; [done|].
  apply String.eqb_neq in Hs1, Hs2. rewrite Hs1, Hs2. cbn [orb].
  rewrite Hparse.
  destruct Hm as [Hm|Hm].
  - by rewrite (bool_decide_eq_true_2 _ Hm).
  - rewrite (bool_decide_eq_true_2 _ Hm). by rewrite orb_true_r.
Qed.

(** C3: a filter parameter whose key or parsed field name is in the union
    of the mandatory filter sets of the active profiles of the table is
    accepted without a field-access check: the request is validated as if
    the parameter were not there, whatever access the scopes give and even
    with no fuel for a walk. *)
Theorem mandatory_filter_bypass fuel (request : Request) schema
    (allowed : gset string) (pre post : list (string * list string))
    key values field_name op profile fs :
  method request = "GET" ->
  GET request = (pre ++ (key, values) :: post)%list ->
  key <> "_sort" -> key <> "sorteer" ->
  parse_filter key = Returns (field_name, op) ->
  profile ∈ get_active_profile_tables (user_scopes request)
              (dataset_id schema) (table_id schema) ->
  fs ∈ mandatory_filtersets profile ->
  key ∈ fs \/ field_name ∈ fs ->
  validate_request fuel request schema allowed
  = validate_request fuel
      (mkRequest (method request) (pre ++ post)%list (user_scopes request))
      schema allowed
  /\ validate_param 0 (user_scopes request) schema allowed
       (collect_mandatory (user_scopes request) schema) key values
     = Some (Returns tt).
Proof.
  intros Hget Hparams Hs1 Hs2 Hparse Hprofile Hfs Hin.
  assert (Hm : key ∈ collect_mandatory (user_scopes request) schema
               \/ field_name ∈ collect_mandatory (user_scopes request) schema).
  { destruct Hin as [Hin|Hin]; [left|right];
      apply elem_of_collect_mandatory; by exists profile, fs. }
  split.
  - unfold validate_request. cbn [method GET user_scopes]. rewrite Hget, Hparams.
    cbn [String.eqb Ascii.eqb Bool.eqb negb].
    destruct (String.eqb (dataset_id schema) "bbga"); [done|].
    apply validate_params_skip.
    by eapply validate_param_mandatory.
  - by eapply validate_param_mandatory.
Qed.

(** C9: a request whose method is neither GET nor OPTIONS is rejected with
    [PermissionDenied] ("<method> request not allowed"), whatever its
    parameters, the schema and the scopes are, and with no fuel for a walk:
    no parameter is looked at. *)
Theorem non_read_method_rejected fuel (request : Request) schema
    (allowed : gset string) :
  method request <> "OPTIONS" -> method request <> "GET" ->
  validate_request fuel request schema allowed
  = Some (Raises (PermissionDenied (MethodNotAllowed (method request)))).
Proof.
  intros Ho Hg. unfold validate_request.
  apply String.eqb_neq in Ho, Hg. by rewrite Ho, Hg.
Qed.

(** *** The walk *)

(** An empty path does not refer to a field. *)
Lemma check_empty_path fuel scopes schema :
  _check_field_access (S fuel) "" scopes (AtTable schema)
  = Some (Raises (FilterSyntaxError NotAField)).
Proof. reflexivity. Qed.

Lemma find_lower_bound (c : ascii) (s : string) : (-1 <= find c s)%Z.
Proof.
  induction s as [|a s IH]; simpl; [lia|].
  destruct (Ascii.eqb a c); [lia|].
  destruct (find c s =? -1)%Z; lia.
Qed.

Lemma split_once_dot (part rest : string) :
  contains "." part = false ->
  split_once "." (part ++ String "." rest) = (part, Some rest).
Proof.
  unfold contains. induction part as [|a part IH]; simpl; [done|].
  destruct (Ascii.eqb a ".") eqn:Ea.
  { intros Hc. vm_compute in Hc. discriminate. }
  pose proof (find_lower_bound "." part) as Hlb.
  destruct (find "." part =? -1)%Z eqn:Ef.
  - intros _. by rewrite IH.
  - intros Hc. apply negb_false_iff, Z.eqb_eq in Hc.
    apply Z.eqb_neq in Ef. lia.
Qed.

(** The Id shorthand is refused when more of the path follows it. *)
Lemma shorthand_not_at_end fuel scopes (pos : position) (part rest : string) :
  contains "." part = false ->
  get_field_by_id pos part = None ->
  endswith part "Id" = true ->
  rest <> "" ->
  _check_field_access (S fuel) (part ++ String "." rest) scopes pos
  = Some (Raises (FilterSyntaxError RelationKeyNotAtEnd)).
Proof.
  intros Hdot Hnone Hid Hrest. unfold _check_field_access. cbn [walk].
  destruct (String.eqb (part ++ String "." rest) "") eqn:E.
  { apply String.eqb_eq in E. destruct part; discriminate. }
  rewrite (split_once_dot part rest Hdot). cbn [default].
  rewrite Hnone, Hid. cbn [default from_option id].
  apply String.eqb_neq in Hrest. by rewrite Hrest.
Qed.

Lemma append_empty (s : string) : s ++ "" = s.
Proof.
  induction s as [|a s IH]; [done|].
  change (String a (s ++ "") = String a s). by rewrite IH.
Qed.

(** What the Id shorthand asks of the scopes: access to the identifier in
    the related table.  The relation field [f] itself is resolved and never
    put to [has_field_access]: nothing is assumed about it here. *)
Lemma shorthand_checks_identifier_only fuel scopes (pos : position)
    (part ident : string) idents f rel g :
  split_once "." part = (part, None) ->
  get_field_by_id pos part = None ->
  endswith part "Id" = true ->
  get_field_by_id pos (drop_end 2 part) = Some f ->
  related_table f = Some rel ->
  related_field_ids f = ident :: idents ->
  ident <> "" ->
  split_once "." ident = (ident, None) ->
  table_get_field_by_id rel ident = Some g ->
  related_table g = None ->
  _check_field_access (S (S (S fuel))) part scopes pos
  = if has_field_access scopes g then Some (Returns tt)
    else Some (Raises (PermissionDenied (FieldDenied (field_id g)))).
Proof.
  intros Hsplit Hnone Hid Hf Hrel Hids Hne Hsplit' Hg Hplain.
  unfold _check_field_access. cbn [walk].
  destruct (String.eqb part "") eqn:E.
  { apply String.eqb_eq in E. subst part. discriminate Hid. }
  rewrite Hsplit. cbn [default from_option id]. rewrite Hnone, Hid.
  cbn [String.eqb negb]. rewrite Hf, Hrel, Hids, append_empty.
  apply String.eqb_neq in Hne. rewrite Hne, Hsplit'.
  cbn [default from_option id get_field_by_id]. rewrite Hg.
  destruct (has_field_access scopes g); cbn [negb]; [|done].
  by rewrite Hplain.
Qed.

(** The dotted path puts the relation field itself to the scopes first. *)
Lemma dotted_checks_relation fuel scopes (pos : position)
    (part rest : string) f :
  contains "." part = false ->
  get_field_by_id pos part = Some f ->
  has_field_access scopes f = false ->
  _check_field_access (S fuel) (part ++ String "." rest) scopes pos
  = Some (Raises (PermissionDenied (FieldDenied (field_id f)))).
Proof.
  intros Hdot Hf Hdenied. unfold _check_field_access. cbn [walk].
  destruct (String.eqb (part ++ String "." rest) "") eqn:E.
  { apply String.eqb_eq in E. destruct part; discriminate. }
  rewrite (split_once_dot part rest Hdot). cbn [default from_option id].
  by rewrite Hf, Hdenied.
Qed.

(** *** The filter grammar *)

Lemma string_length_app (s t : string) :
  String.length (s ++ t) = (String.length s + String.length t)%nat.
Proof.
  induction s as [|a s IH]; [done|].
  change (S (String.length (s ++ t)) = S (String.length s + String.length t)).
  by rewrite IH.
Qed.

Lemma substring_all (s : string) : String.substring 0 (String.length s) s = s.
Proof. induction s as [|a s IH]; [done|]. simpl. by rewrite IH. Qed.

Lemma substring_app_l (s t : string) :
  String.substring 0 (String.length s) (s ++ t) = s.
Proof.
  induction s as [|a s IH]; [by destruct t|].
  change (String a (String.substring 0 (String.length s) (s ++ t)) = String a s).
  by rewrite IH.
Qed.

Lemma substring_app_r (s t : string) (m : nat) :
  String.substring (String.length s) m (s ++ t) = String.substring 0 m t.
Proof.
  induction s as [|a s IH]; [done|].
  change (String.substring (String.length s) m (s ++ t) = String.substring 0 m t).
  exact IH.
Qed.

Lemma find_app (c : ascii) (s t : string) :
  contains c s = false ->
  find c (s ++ String c t) = Z.of_nat (String.length s).
Proof.
  unfold contains. induction s as [|a s IH].
  - intros _. change (find c (String c t) = 0%Z). simpl. by rewrite Ascii.eqb_refl.
  - change (find c (String a s ++ String c t))
      with (if Ascii.eqb a c then 0%Z
            else let i := find c (s ++ String c t) in
                 if (i =? -1)%Z then (-1)%Z else (i + 1)%Z).
    cbn [find]. destruct (Ascii.eqb a c).
    { intros Hc. vm_compute in Hc. discriminate. }
    pose proof (find_lower_bound c s) as Hlb.
    destruct (find c s =? -1)%Z eqn:Ef.
    + intros _. rewrite IH by done. cbn zeta.
      destruct (Z.of_nat (String.length s) =? -1)%Z eqn:E.
      * apply Z.eqb_eq in E. lia.
      * cbn [String.length]. lia.
    + intros Hc. apply negb_false_iff, Z.eqb_eq in Hc.
      apply Z.eqb_neq in Ef. lia.
Qed.

Lemma endswith_app (s t : string) : endswith (s ++ t) t = true.
Proof.
  unfold endswith. rewrite string_length_app.
  replace (String.length s + String.length t - String.length t)%nat
    with (String.length s) by lia.
  rewrite substring_app_r, substring_all, String.eqb_refl.
  rewrite andb_true_r. apply Nat.leb_le. lia.
Qed.

Lemma parse_bracketed (field op : string) :
  contains "[" field = false ->
  parse_filter (field ++ "[" ++ op ++ "]") = Returns (field, op).
Proof.
  intros Hf. unfold parse_filter.
  change (field ++ "[" ++ op ++ "]") with (field ++ String "[" (op ++ "]")).
  rewrite (find_app "[" field (op ++ "]") Hf).
  destruct (Z.of_nat (String.length field) =? -1)%Z eqn:E.
  { apply Z.eqb_eq in E. lia. }
  assert (Hend : endswith (field ++ String "[" (op ++ "]")) "]" = true).
  { change (field ++ String "[" (op ++ "]")) with (field ++ ("[" ++ op) ++ "]").
    replace (field ++ ("[" ++ op) ++ "]") with ((field ++ "[" ++ op) ++ "]").
    - apply endswith_app.
    - clear. induction field as [|a f IH]; [done|].
      change (String a ((f ++ "[" ++ op) ++ "]") = String a (f ++ ("[" ++ op) ++ "]")).
      by rewrite IH. }
  rewrite Hend. cbn [negb]. unfold between. rewrite Nat2Z.id.
  rewrite Nat.sub_0_r, substring_app_l. do 2 f_equal.
  rewrite string_length_app. cbn [String.length]. rewrite string_length_app.
  cbn [String.length].
  replace (String.length field + S (String.length op + 1) - 1
           - (String.length field + 1))%nat with (String.length op) by lia.
  replace (String.length field + 1)%nat
    with (String.length (field ++ "[")) by (rewrite string_length_app; done).
  replace (field ++ String "[" (op ++ "]")) with ((field ++ "[") ++ op ++ "]").
  - rewrite substring_app_r. apply substring_app_l.
  - clear. induction field as [|a f IH]; [done|].
    change (String a ((f ++ "[") ++ op ++ "]") = String a (f ++ String "[" (op ++ "]"))).
    by rewrite IH.
Qed.

(** X5: writing a filter as [field[op]] and parsing it gives the field and
    the operator back, for every field name without an opening bracket; the
    operator may be any text. *)
Theorem parse_filter_round_trip (field op : string) :
  contains "[" field = false ->
  parse_filter (field ++ "[" ++ op ++ "]") = Returns (field, op).
Proof. apply parse_bracketed. Qed.

Lemma find_decompose (c : ascii) (s : string) :
  find c s <> (-1)%Z ->
  exists pre post, s = pre ++ String c post /\ contains c pre = false.
Proof.
  induction s as [|a s IH]; [done|]. simpl.
  destruct (Ascii.eqb a c) eqn:Ea.
  - intros _. apply Ascii.eqb_eq in Ea. subst a. by exists "", s.
  - destruct (find c s =? -1)%Z eqn:Ef; [done|]. intros _.
    apply Z.eqb_neq in Ef. destruct (IH Ef) as (pre & post & -> & Hpre).
    exists (String a pre), post. split; [done|].
    unfold contains in *. simpl. rewrite Ea.
    apply negb_false_iff, Z.eqb_eq in Hpre. by rewrite Hpre.
Qed.

Lemma substring_app_skip (s t : string) (j m : nat) :
  String.substring (String.length s + j) m (s ++ t) = String.substring j m t.
Proof.
  induction s as [|a s IH]; [done|].
  change (String.substring (String.length s + j) m (s ++ t) = String.substring j m t).
  exact IH.
Qed.

Lemma endswith_app_inv (s t suffix : string) :
  (String.length suffix <= String.length t)%nat ->
  endswith (s ++ t) suffix = endswith t suffix.
Proof.
  intros Hle. unfold endswith. rewrite string_length_app.
  replace (String.length s + String.length t - String.length suffix)%nat
    with (String.length s + (String.length t - String.length suffix))%nat by lia.
  rewrite substring_app_skip. f_equal.
  destruct (String.length suffix <=? String.length t)%nat eqn:E1;
    destruct (String.length suffix <=? String.length s + String.length t)%nat eqn:E2;
    try done.
  - apply Nat.leb_le in E1. apply Nat.leb_gt in E2. lia.
  - apply Nat.leb_gt in E1. lia.
Qed.

Lemma endswith_decompose (c : ascii) (s : string) :
  endswith s (String c "") = true ->
  exists s', s = s' ++ String c "".
Proof.
  induction s as [|a s IH]; [done|].
  destruct s as [|b s'].
  - unfold endswith. cbn. destruct (Ascii.eqb a c) eqn:Ea; [|done].
    intros _. apply Ascii.eqb_eq in Ea. subst a. by exists "".
  - intros H.
    change (String a (String b s')) with (String a "" ++ String b s') in H.
    rewrite endswith_app_inv in H by (cbn; lia).
    destruct (IH H) as (s'' & ->). by exists (String a s'').
Qed.

(** X6: a parameter that [parse_filter] accepts is a bare field name
    without brackets, read with the operator [exact], or it is
    [field[op]] for the field and operator returned, the field being the
    text before the first opening bracket. *)
Theorem parse_filter_inversion (v field op : string) :
  parse_filter v = Returns (field, op) ->
  (v = field /\ op = "exact"
   /\ contains "[" v = false /\ contains "]" v = false)
  \/ (v = field ++ "[" ++ op ++ "]" /\ contains "[" field = false).
Proof.
  unfold parse_filter. destruct (find "[" v =? -1)%Z eqn:E.
  - destruct (contains "]" v) eqn:Ec; [done|]. intros [= <- <-]. left.
    repeat split; try done. unfold contains. by rewrite E.
  - destruct (endswith v "]") eqn:Hend; [|done]. cbn [negb]. intros Hret.
    right. apply Z.eqb_neq in E.
    destruct (find_decompose "[" v E) as (pre & post & -> & Hpre).
    rewrite endswith_app_inv in Hend by (cbn; lia).
    destruct post as [|b post'].
    { unfold endswith in Hend. cbn in Hend. discriminate. }
    change (String "[" (String b post')) with (String "[" "" ++ String b post') in Hend.
    rewrite endswith_app_inv in Hend by (cbn; lia).
    destruct (endswith_decompose "]" _ Hend) as (op' & Hop).
    rewrite Hop in *.
    pose proof (parse_bracketed pre op' Hpre) as Hrt.
    unfold parse_filter in Hrt.
    change (pre ++ "[" ++ op' ++ "]") with (pre ++ String "[" (op' ++ "]")) in Hrt.
    destruct (find "[" (pre ++ String "[" (op' ++ "]")) =? -1)%Z eqn:E2;
      [by apply Z.eqb_eq in E2|].
    destruct (endswith (pre ++ String "[" (op' ++ "]")) "]"); [|done].
    cbn [negb] in Hrt. rewrite Hret in Hrt. by injection Hrt as -> ->.
Qed.

(** *** What the walk guarantees *)

(** One round of the loop. *)
Lemma walk_step fuel scopes (field_name : string) (pos : position) :
  walk (S fuel) scopes field_name pos =
  if String.eqb field_name "" then Some (Returns pos)
  else
    let '(part, rest) := split_once "." field_name in
    let field_name := default "" rest in
    match get_field_by_id pos part with
    | None =>
        if endswith part "Id" then
          let part := drop_end 2 part in
          if negb (String.eqb field_name "") then
            Some (Raises (FilterSyntaxError RelationKeyNotAtEnd))
          else
            match get_field_by_id pos part with
            | None => Some (Raises SchemaObjectNotFound)
            | Some schema =>
                match related_table schema with
                | None => Some (Raises SchemaObjectNotFound)
                | Some rel =>
                    match related_field_ids schema with
                    | [] => Some (Raises IndexError)
                    | ident :: _ =>
                        walk fuel scopes
                          (ident ++ (if String.eqb field_name "" then ""
                                     else "." ++ field_name))
                          (AtTable rel)
                    end
                end
            end
        else Some (Raises SchemaObjectNotFound)
    | Some schema =>
        if negb (has_field_access scopes schema) then
          Some (Raises (PermissionDenied (FieldDenied (field_id schema))))
        else
          match related_table schema with
          | Some rel =>
              match check_idents scopes rel (related_field_ids schema) with
              | Raises e => Some (Raises e)
              | Returns _ => walk fuel scopes field_name (AtTable rel)
              end
          | None => walk fuel scopes field_name (AtField schema)
          end
    end.
Proof. reflexivity. Qed.

(** Where a successful walk can stand: on a table, or on a field that is
    open to the scopes and is not a relation. *)
Local Abbreviation settled scopes pos :=
  (match pos with
   | AtTable _ => True
   | AtField g => has_field_access scopes g = true /\ related_table g = None
   end).

Lemma walk_settled fuel scopes : forall (field_name : string) (pos p : position),
  walk fuel scopes field_name pos = Some (Returns p) ->
  settled scopes pos -> settled scopes p.
Proof.
  induction fuel as [|fuel IH]; intros field_name pos p Hw Hpos; [done|].
  rewrite walk_step in Hw.
  destruct (String.eqb field_name ""); [by simplify_eq|].
  destruct (split_once "." field_name) as [part rest].
  cbn zeta in Hw.
  destruct (get_field_by_id pos part) as [f|].
  - destruct (has_field_access scopes f) eqn:Hf; [|done]. cbn [negb] in Hw.
    destruct (related_table f) as [rel|] eqn:Hrel.
    + destruct (check_idents scopes rel (related_field_ids f)); [|done].
      by eapply IH.
    + eapply IH; [done|]. done.
  - destruct (endswith part "Id"); [|done].
    destruct (negb (String.eqb (default "" rest) "")); [done|].
    destruct (get_field_by_id pos (drop_end 2 part)) as [f|]; [|done].
    destruct (related_table f) as [rel|]; [|done].
    destruct (related_field_ids f) as [|ident idents]; [done|].
    by eapply IH.
Qed.

(** X7: a path that [_check_field_access] accepts from a table ends on a
    field that the scopes may read and that is not a relation. *)
Theorem accepted_path_ends_on_readable_field fuel (field_name : string) scopes
    schema :
  _check_field_access fuel field_name scopes (AtTable schema) = Some (Returns tt) ->
  exists g,
    walk fuel scopes field_name (AtTable schema) = Some (Returns (AtField g))
    /\ has_field_access scopes g = true
    /\ related_table g = None.
Proof.
  unfold _check_field_access.
  destruct (walk fuel scopes field_name (AtTable schema)) as [[[t|g]|e]|] eqn:Hw;
    try done.
  intros _. exists g. split; [done|].
  by apply (walk_settled _ _ _ _ _ Hw).
Qed.

Lemma check_idents_raises scopes rel idents e :
  check_idents scopes rel idents = Raises e ->
  e = SchemaObjectNotFound
  \/ exists f, e = PermissionDenied (FieldDenied (field_id f))
               /\ has_field_access scopes f = false.
Proof.
  induction idents as [|ident idents IH]; simpl; [done|].
  destruct (table_get_field_by_id rel ident) as [f|]; [|intros [= <-]; by left].
  destruct (has_field_access scopes f) eqn:Hf; cbn [negb]; [done|].
  intros [= <-]. right. by exists f.
Qed.

Lemma walk_denied fuel scopes : forall (field_name : string) (pos : position) why,
  walk fuel scopes field_name pos = Some (Raises (PermissionDenied why)) ->
  exists f, why = FieldDenied (field_id f) /\ has_field_access scopes f = false.
Proof.
  induction fuel as [|fuel IH]; intros field_name pos why Hw; [done|].
  rewrite walk_step in Hw.
  destruct (String.eqb field_name ""); [done|].
  destruct (split_once "." field_name) as [part rest].
  cbn zeta in Hw.
  destruct (get_field_by_id pos part) as [f|].
  - destruct (has_field_access scopes f) eqn:Hf; cbn [negb] in Hw.
    + destruct (related_table f) as [rel|]; [|by eapply IH].
      destruct (check_idents scopes rel (related_field_ids f)) eqn:Hc;
        [by eapply IH|].
      injection Hw as ->.
      apply check_idents_raises in Hc as [?|(g & [= ->] & ?)]; [done|].
      by exists g.
    + injection Hw as <-. by exists f.
  - destruct (endswith part "Id"); [|done].
    destruct (negb (String.eqb (default "" rest) "")); [done|].
    destruct (get_field_by_id pos (drop_end 2 part)) as [f|]; [|done].
    destruct (related_table f) as [rel|]; [|done].
    destruct (related_field_ids f) as [|ident idents]; [done|].
    by eapply IH.
Qed.

(** X8: when [_check_field_access] answers with [PermissionDenied], the
    field named in the message is a field of the schema that the scopes may
    not read. *)
Theorem denial_names_unreadable_field fuel (field_name : string) scopes
    (pos : position) why :
  _check_field_access fuel field_name scopes pos
    = Some (Raises (PermissionDenied why)) ->
  exists f, why = FieldDenied (field_id f) /\ has_field_access scopes f = false.
Proof.
  unfold _check_field_access.
  destruct (walk fuel scopes field_name pos) as [[[t|g]|e]|] eqn:Hw; try done.
  intros [= ->]. by eapply walk_denied.
Qed.

(** *** More access never hurts *)

Section Wider.
Variables s1 s2 : UserScopes.
Hypothesis wider : forall f, has_field_access s1 f = true -> has_field_access s2 f = true.

Lemma check_idents_wider rel idents :
  check_idents s1 rel idents = Returns tt -> check_idents s2 rel idents = Returns tt.
Proof.
  induction idents as [|ident idents IH]; simpl; [done|].
  destruct (table_get_field_by_id rel ident) as [f|]; [|done].
  destruct (has_field_access s1 f) eqn:Hf; cbn [negb]; [|done].
  rewrite (wider f Hf). cbn [negb]. exact IH.
Qed.

Lemma walk_wider fuel : forall (field_name : string) (pos p : position),
  walk fuel s1 field_name pos = Some (Returns p) ->
  walk fuel s2 field_name pos = Some (Returns p).
Proof.
  induction fuel as [|fuel IH]; intros field_name pos p Hw; [done|].
  rewrite walk_step in Hw. rewrite walk_step.
  destruct (String.eqb field_name ""); [done|].
  destruct (split_once "." field_name) as [part rest].
  cbn zeta in *.
  destruct (get_field_by_id pos part) as [f|].
  - destruct (has_field_access s1 f) eqn:Hf; [|done]. cbn [negb] in Hw.
    rewrite (wider f Hf). cbn [negb].
    destruct (related_table f) as [rel|]; [|by apply IH].
    destruct (check_idents s1 rel (related_field_ids f)) as [[]|] eqn:Hc; [|done].
    rewrite (check_idents_wider _ _ Hc). by apply IH.
  - destruct (endswith part "Id"); [|done].
    destruct (negb (String.eqb (default "" rest) "")); [done|].
    destruct (get_field_by_id pos (drop_end 2 part)) as [f|]; [|done].
    destruct (related_table f) as [rel|]; [|done].
    destruct (related_field_ids f) as [|ident idents]; [done|].
    by apply IH.
Qed.

Lemma check_field_access_wider fuel (field_name : string) (pos : position) :
  _check_field_access fuel field_name s1 pos = Some (Returns tt) ->
  _check_field_access fuel field_name s2 pos = Some (Returns tt).
Proof.
  unfold _check_field_access.
  destruct (walk fuel s1 field_name pos) as [[[t|g]|e]|] eqn:Hw; try done.
  by rewrite (walk_wider _ _ _ _ Hw).
Qed.

Lemma check_fields_wider fuel schema (fields : list string) :
  check_fields fuel s1 schema fields = Some (Returns tt) ->
  check_fields fuel s2 schema fields = Some (Returns tt).
Proof.
  induction fields as [|field fields IH]; simpl; [done|].
  destruct (_check_field_access fuel field s1 (AtTable schema)) as [[[]|e]|] eqn:Hc;
    try done.
  rewrite (check_field_access_wider _ _ _ Hc). exact IH.
Qed.

Lemma validate_param_wider fuel schema (allowed mandatory : gset string)
    key values :
  validate_param fuel s1 schema allowed mandatory key values = Some (Returns tt) ->
  validate_param fuel s2 schema allowed mandatory key values = Some (Returns tt).
Proof.
  unfold validate_param. case_bool_decide; [done|].
  destruct (String.eqb key "_sort" || String.eqb key "sorteer");
    [apply check_fields_wider|].
  destruct (parse_filter key) as [[field_name op]|e]; [|done].
  destruct (bool_decide (key ∈ mandatory) || bool_decide (field_name ∈ mandatory));
    [done|].
  destruct (match temporal schema with
            | Some t => dimensions t !! field_name
            | None => None
            end) as [[start end_]|];
    [apply check_fields_wider | apply check_field_access_wider].
Qed.

Lemma validate_params_wider fuel schema (allowed mandatory : gset string)
    (params : list (string * list string)) v :
  validate_params fuel s1 schema allowed mandatory params = Some (Returns v) ->
  validate_params fuel s2 schema allowed mandatory params = Some (Returns v).
Proof.
  induction params as [|[key values] params IH]; simpl; [done|].
  destruct (validate_param fuel s1 schema allowed mandatory key values)
    as [[[]|e]|] eqn:Hp; try done.
  rewrite (validate_param_wider _ _ _ _ _ _ Hp). exact IH.
Qed.

End Wider.

(** X9: access is monotone.  When a request passes [validate_request], it
    also passes for scopes that open every field the first scopes open and
    have the same active profiles for the table. *)
Theorem wider_scopes_keep_request_valid fuel (request : Request) (s2 : UserScopes)
    schema (allowed : gset string) v :
  (forall f, has_field_access (user_scopes request) f = true ->
             has_field_access s2 f = true) ->
  get_active_profile_tables s2 (dataset_id schema) (table_id schema)
    = get_active_profile_tables (user_scopes request)
        (dataset_id schema) (table_id schema) ->
  validate_request fuel request schema allowed = Some (Returns v) ->
  validate_request fuel (mkRequest (method request) (GET request) s2)
    schema allowed = Some (Returns v).
Proof.
  intros Hw Hp. unfold validate_request. cbn [method GET user_scopes].
  destruct (String.eqb (method request) "OPTIONS"); [done|].
  destruct (negb (String.eqb (method request) "GET")); [done|].
  destruct (String.eqb (dataset_id schema) "bbga"); [done|].
  unfold collect_mandatory. rewrite Hp.
  by apply validate_params_wider.
Qed.

(** X11: a parameter the view has declared as allowed is not looked at:
    with or without it, the request is validated alike. *)
Theorem allowed_parameter_ignored fuel (request : Request) schema
    (allowed : gset string) (pre post : list (string * list string)) key values :
  GET request = (pre ++ (key, values) :: post)%list ->
  key ∈ allowed ->
  validate_request fuel request schema allowed
  = validate_request fuel
      (mkRequest (method request) (pre ++ post)%list (user_scopes request))
      schema allowed.
Proof.
  intros Hparams Hin. unfold validate_request. cbn [method GET user_scopes].
  rewrite Hparams.
  destruct (String.eqb (method request) "OPTIONS"); [done|].
  destruct (negb (String.eqb (method request) "GET")); [done|].
  destruct (String.eqb (dataset_id schema) "bbga"); [done|].
  apply validate_params_skip. unfold validate_param.
  by rewrite (bool_decide_eq_true_2 _ Hin).
Qed.

(** *** The walk comes to an end *)

Lemma split_once_shorter (c a : ascii) (s p : string) r :
  split_once c (String a s) = (p, r) ->
  (String.length (default "" r) <= String.length s)%nat.
Proof.
  revert a p r. induction s as [|b s IH]; intros a p r; simpl.
  - destruct (Ascii.eqb a c); intros [= <- <-]; simpl; lia.
  - destruct (Ascii.eqb a c); [intros [= <- <-]; simpl; lia|].
    specialize (IH b).
    simpl in IH. destruct (Ascii.eqb b c).
    + intros [= <- <-]. simpl. lia.
    + destruct (split_once c s) as [p' r']. intros [= <- <-].
      specialize (IH _ _ eq_refl). lia.
Qed.

Lemma split_once_none (c : ascii) (s : string) :
  contains c s = false -> split_once c s = (s, None).
Proof.
  unfold contains. induction s as [|a s IH]; simpl; [done|].
  destruct (Ascii.eqb a c).
  { intros Hc. vm_compute in Hc. discriminate. }
  pose proof (find_lower_bound c s) as Hlb.
  destruct (find c s =? -1)%Z eqn:Ef.
  - intros _. by rewrite IH.
  - intros Hc. apply negb_false_iff, Z.eqb_eq in Hc. apply Z.eqb_neq in Ef. lia.
Qed.

Section Terminates.
(** The identifier a relation refers to is a plain name, and a field of the
    related table. *)
Hypothesis identifiers_resolve :
  forall f rel (ident : string) idents,
    related_table f = Some rel ->
    related_field_ids f = ident :: idents ->
    contains "." ident = false
    /\ (ident = "" \/ exists g, table_get_field_by_id rel ident = Some g).

Lemma walk_identifier fuel scopes rel (ident : string) :
  contains "." ident = false ->
  (ident = "" \/ exists g, table_get_field_by_id rel ident = Some g) ->
  exists r, walk (S (S fuel)) scopes ident (AtTable rel) = Some r.
Proof.
  intros Hdot Hres. rewrite walk_step.
  destruct (String.eqb ident "") eqn:E; [eauto|].
  destruct Hres as [->|[g Hg]]; [done|].
  rewrite (split_once_none _ _ Hdot). cbn [default from_option id get_field_by_id].
  rewrite Hg. destruct (negb (has_field_access scopes g)); [eauto|].
  destruct (related_table g) as [rel'|].
  - destruct (check_idents scopes rel' (related_field_ids g)); eauto.
  - eauto.
Qed.

Lemma walk_total n scopes : forall fuel (field_name : string) (pos : position),
  (String.length field_name <= n)%nat -> (n + 3 <= fuel)%nat ->
  exists r, walk fuel scopes field_name pos = Some r.
Proof.
  induction n as [|n IH]; intros fuel field_name pos Hlen Hfuel;
    (destruct fuel as [|fuel]; [lia|]); rewrite walk_step.
  - destruct field_name; [eauto|simpl in Hlen; lia].
  - destruct field_name as [|a s]; [eauto|].
    change (String.eqb (String a s) "") with false. cbn match.
    destruct (split_once "." (String a s)) as [part rest] eqn:Hsplit.
    apply split_once_shorter in Hsplit. simpl in Hlen. cbn zeta.
    assert (Hrec : forall pos', exists r,
               walk fuel scopes (default "" rest) pos' = Some r).
    { intros pos'. apply IH; lia. }
    destruct (get_field_by_id pos part) as [f|].
    + destruct (negb (has_field_access scopes f)); [eauto|].
      destruct (related_table f) as [rel|]; [|apply Hrec].
      destruct (check_idents scopes rel (related_field_ids f)); [apply Hrec|eauto].
    + destruct (endswith part "Id"); [|eauto].
      destruct (String.eqb (default "" rest) "") eqn:E; cbn [negb]; [|eauto].
      destruct (get_field_by_id pos (drop_end 2 part)) as [f|]; [|eauto].
      destruct (related_table f) as [rel|] eqn:Hrel; [|eauto].
      destruct (related_field_ids f) as [|ident idents] eqn:Hids; [eauto|].
      rewrite append_empty.
      destruct (identifiers_resolve f rel ident idents Hrel Hids) as [Hdot Hres].
      destruct fuel as [|[|fuel]]; [lia..|].
      by apply walk_identifier.
Qed.

(** X10: on a schema whose relations refer to identifiers that are plain
    field names of the related table, the loop of [_check_field_access]
    comes to an end for every path: three rounds more than the path has
    characters are enough. *)
Theorem check_field_access_terminates fuel (field_name : string) scopes
    (pos : position) :
  (String.length field_name + 3 <= fuel)%nat ->
  exists r, _check_field_access fuel field_name scopes pos = Some r.
Proof.
  intros Hfuel. unfold _check_field_access.
  destruct (walk_total (String.length field_name) scopes fuel field_name pos)
    as [[[t|g]|e] ->]; eauto.
Qed.

End Terminates.

(** *** Sorting *)

(** X12: the leading "-" of a sort key only gives the direction: a
    descending key is validated like the bare key. *)
Theorem sort_direction_ignored fuel scopes schema (allowed mandatory : gset string)
    (key field : string) :
  key = "_sort" \/ key = "sorteer" ->
  contains "," field = false ->
  startswith field "-" = false ->
  validate_param fuel scopes schema allowed mandatory key [String "-" field]
  = validate_param fuel scopes schema allowed mandatory key [field].
Proof.
  intros Hkey Hcomma Hminus. unfold validate_param.
  case_bool_decide; [done|].
  assert (String.eqb key "_sort" || String.eqb key "sorteer" = true) as ->.
  { destruct Hkey as [-> | ->]; reflexivity. }
  f_equal. unfold sort_fields. cbn [map concat].
  assert (Hsplit : forall s, contains "," s = false -> split_all "," s = [s]).
  { clear. unfold contains. induction s as [|a s IH]; simpl; [done|].
    destruct (Ascii.eqb a ",").
    { intros Hc. vm_compute in Hc. discriminate. }
    pose proof (find_lower_bound "," s) as Hlb.
    destruct (find "," s =? -1)%Z eqn:Ef.
    - intros _. by rewrite IH.
    - intros Hc. apply negb_false_iff, Z.eqb_eq in Hc. apply Z.eqb_neq in Ef. lia. }
  rewrite (Hsplit field Hcomma).
  rewrite (Hsplit (String "-" field)).
  - cbn [map]. rewrite Hminus.
    assert (startswith (String "-" field) "-" = true) as ->
      by (by destruct field).
    do 2 f_equal. unfold from_index.
    change (String.length (String "-" field)) with (S (String.length field)).
    rewrite Nat.sub_succ, Nat.sub_0_r.
    change (String.substring 1 (String.length field) (String "-" field))
      with (String.substring 0 (String.length field) field).
    apply substring_all.
  - unfold contains in *. simpl.
    pose proof (find_lower_bound "," field) as Hlb.
    apply negb_false_iff in Hcomma. by rewrite Hcomma.
Qed.

End Facts.

Import RelationAuth.

(** C1: the relation field [base] is closed to these scopes, and yet the
    walk accepts the path [baseId], which resolves it; and a path that ends
    on the relation [base] is answered with [PermissionDenied], not with
    [FilterSyntaxError], when the identifier of the related table is closed
    to the scopes. *)
Theorem shorthand_skips_relation_check :
  may_read false without_relation RefersBase = false
  /\ check_from_refers 3 false "baseId" without_relation = Some (Returns tt)
  /\ check_from_refers 3 false "base" ["REFERS"; "REFERS/BASE"; "BASE"]
     = Some (Raises (PermissionDenied (FieldDenied "id"))).
Proof. repeat split; reflexivity. Qed.

(** C2: under the same scopes the shorthand [baseId] is accepted and the
    dotted path [base.id] is denied. *)
Theorem shorthand_differs_from_dotted :
  check_from_refers 3 false "baseId" without_relation = Some (Returns tt)
  /\ check_from_refers 3 false "base.id" without_relation
     = Some (Raises (PermissionDenied (FieldDenied "base"))).
Proof. split; reflexivity. Qed.

(** The shorthand with a continuation, on the test schema. *)
Example shorthand_with_continuation :
  check_from_refers 3 false "baseId.id" without_relation
  = Some (Raises (FilterSyntaxError RelationKeyNotAtEnd)).
Proof. reflexivity. Qed.

(** The cases of [test_check_filter_simple]. *)
Example test_check_filter_simple :
  check_from_refers 3 false "" [] = Some (Raises (FilterSyntaxError NotAField))
  /\ check_from_refers 3 false "baseId" ["REFERS"; "REFERS/BASE"; "BASE"; "BASE/TABLE"]
     = Some (Returns tt)
  /\ check_from_refers 3 false "name" ["REFERS"; "REFERS/NAME"] = Some (Returns tt)
  /\ check_from_refers 3 false "baseId" ["REFERS"; "REFERS/NAME"]
     = Some (Raises (PermissionDenied (FieldDenied "id")))
  /\ check_from_refers 3 false "baseId" ["REFERS"; "REFERS/BASE"]
     = Some (Raises (PermissionDenied (FieldDenied "id")))
  /\ check_from_refers 3 false "base" ["REFERS"; "REFERS/BASE"; "BASE"; "BASE/TABLE"]
     = Some (Raises (FilterSyntaxError NotAField))
  /\ check_from_refers 3 false "base" ["REFERS"; "REFERS/BASE"; "BASE"]
     = Some (Raises (PermissionDenied (FieldDenied "id"))).
Proof. repeat split; reflexivity. Qed.

(** The cases of [test_check_filter_composite]. *)
Example test_check_filter_composite :
  check_from_refers 3 true "baseId" ["REFERS"; "REFERS/BASE"; "BASE"; "BASE/TABLE"]
  = Some (Returns tt)
  /\ check_from_refers 3 true "base.id" ["REFERS"; "REFERS/BASE"; "BASE"; "BASE/TABLE"]
     = Some (Returns tt)
  /\ check_from_refers 3 true "base.volgnr" ["REFERS"; "REFERS/BASE"; "BASE"; "BASE/TABLE"]
     = Some (Returns tt)
  /\ check_from_refers 3 true "base.id" ["REFERS"; "REFERS/BASE"; "BASE"]
     = Some (Raises (PermissionDenied (FieldDenied "id")))
  /\ check_from_refers 3 true "base.id" ["REFERS"; "REFERS/BASE"; "BASE/TABLE"]
     = Some (Raises (PermissionDenied (FieldDenied "id")))
  /\ check_from_refers 3 true "base" ["REFERS"; "REFERS/BASE"; "BASE"; "BASE/TABLE"]
     = Some (Raises (FilterSyntaxError NotAField)).
Proof. repeat split; reflexivity. Qed.

(** The filter grammar. *)
Example parse_filter_cases :
  parse_filter "foo" = Returns ("foo", "exact")
  /\ parse_filter "foo[contains]" = Returns ("foo", "contains")
  /\ parse_filter "foo]" = Raises (FilterSyntaxError MissingOpenBracket)
  /\ parse_filter "foo[bar" = Raises (FilterSyntaxError MissingClosingBracket).
Proof. repeat split; reflexivity. Qed.

Lemma mandatory_filter_bypass_witness :
  may_read false [] RefersName = false
  /\ request_on_refers 0 "GET" [("name", ["x"])] [] [name_profile] ∅
     = Some (Returns PyNone)
  /\ request_on_refers 3 "GET" [("name", ["x"])] [] [] ∅
     = Some (Raises (PermissionDenied (FieldDenied "name"))).
Proof.
  split; [reflexivity|]. split; [|reflexivity].
  unfold request_on_refers.
  destruct (@mandatory_filter_bypass (schema false) 0
              (@mkRequest (schema false) "GET" [("name", ["x"])]
                 (scopes false [] [name_profile]))
              Refers ∅ [] [] "name" ["x"] "name" "exact" name_profile ["name"])
    as [Heq _].
  - reflexivity.
  - reflexivity.
  - discriminate.
  - discriminate.
  - reflexivity.
  - apply list_elem_of_here.
  - apply list_elem_of_here.
  - left. apply list_elem_of_here.
  - rewrite Heq. reflexivity.
Defined.

Lemma non_read_method_rejected_witness :
  request_on_refers 0 "POST" [("name", ["x"])] ["REFERS"; "REFERS/NAME"] [] ∅
  = Some (Raises (PermissionDenied (MethodNotAllowed "POST"))).
Proof.
  unfold request_on_refers.
  apply (@non_read_method_rejected (schema false)); discriminate.
Defined.

(** OPTIONS requests are let through without a look at the parameters, and
    so is every request for the BBGA dataset. *)
Example options_request :
  request_on_refers 0 "OPTIONS" [("base.id", ["x"])] [] [] ∅ = Some (Returns PyNone).
Proof. reflexivity. Qed.

Lemma parse_filter_round_trip_witness :
  parse_filter "naam[like]" = Returns ("naam", "like").
Proof. exact (parse_filter_round_trip "naam" "like" eq_refl). Defined.

Lemma parse_filter_inversion_witness :
  ("naam[like]" = "naam" /\ "like" = "exact"
   /\ contains "[" "naam[like]" = false /\ contains "]" "naam[like]" = false)
  \/ ("naam[like]" = "naam" ++ "[" ++ "like" ++ "]" /\ contains "[" "naam" = false).
Proof. exact (parse_filter_inversion "naam[like]" "naam" "like" eq_refl). Defined.

Lemma accepted_path_ends_on_readable_field_witness :
  exists g : field,
    @walk (schema false) 3 (scopes false all_scopes []) "base.id"
      (@AtTable (schema false) Refers)
    = Some (Returns (@AtField (schema false) g))
    /\ may_read false all_scopes g = true
    /\ @related_table (schema false) g = None.
Proof.
  exact (@accepted_path_ends_on_readable_field (schema false) 3 "base.id"
           (scopes false all_scopes []) Refers eq_refl).
Defined.

Lemma denial_names_unreadable_field_witness :
  exists f : field,
    FieldDenied "base" = FieldDenied (field_name f)
    /\ may_read false without_relation f = false.
Proof.
  exact (@denial_names_unreadable_field (schema false) 3 "base.id"
           (scopes false without_relation []) (@AtTable (schema false) Refers)
           (FieldDenied "base") eq_refl).
Defined.

Lemma wider_scopes_keep_request_valid_witness :
  request_on_refers 3 "GET" [("name", ["x"])] all_scopes [] ∅
  = Some (Returns PyNone).
Proof.
  unfold request_on_refers.
  apply (@wider_scopes_keep_request_valid (schema false) 3
           (@mkRequest (schema false) "GET" [("name", ["x"])]
              (scopes false ["REFERS"; "REFERS/NAME"] []))
           (scopes false all_scopes []) Refers ∅ PyNone).
  - intros f. by destruct f.
  - reflexivity.
  - reflexivity.
Defined.

Lemma check_field_access_terminates_witness :
  exists r, check_from_refers 9 false "baseId" all_scopes = Some r.
Proof.
  unfold check_from_refers.
  apply (@check_field_access_terminates (schema false)).
  - intros f rel ident idents Hrel Hids.
    destruct f; try discriminate Hrel.
    injection Hrel as <-. injection Hids as <- <-.
    split; [reflexivity|]. right. by exists BaseId.
  - simpl. lia.
Defined.

Lemma allowed_parameter_ignored_witness :
  request_on_refers 3 "GET" [("page", ["2"]); ("name", ["x"])]
    ["REFERS"; "REFERS/NAME"] [] {["page"]}
  = request_on_refers 3 "GET" [("name", ["x"])]
      ["REFERS"; "REFERS/NAME"] [] {["page"]}.
Proof.
  unfold request_on_refers.
  apply (@allowed_parameter_ignored (schema false) 3
           (@mkRequest (schema false) "GET" [("page", ["2"]); ("name", ["x"])]
              (scopes false ["REFERS"; "REFERS/NAME"] []))
           Refers {["page"]} [] [("name", ["x"])] "page" ["2"]).
  - reflexivity.
  - set_solver.
Defined.

Lemma sort_direction_ignored_witness :
  @validate_param (schema false) 3 (scopes false [] []) Refers ∅ ∅ "_sort" ["-name"]
  = @validate_param (schema false) 3 (scopes false [] []) Refers ∅ ∅ "_sort" ["name"].
Proof.
  exact (@sort_direction_ignored (schema false) 3 (scopes false [] []) Refers ∅ ∅
           "_sort" "name" (or_introl eq_refl) eq_refl eq_refl).
Defined.

End PermissionFacts.

(* ====================================================================== *)
(** * Properties of the serializer factory *)
(* ====================================================================== *)
Module FactoryFacts.
Import Factories.

Section Facts.
Context {Model : Type} `{EqDecision Model}.
Variable is_dangling_model : Model -> bool.
Variable build_fields : Model -> Z -> outcome string (list string).
Variable nested_tables : Model -> list (string * Model).

Local Abbreviation factory_rec := (serializer_factory_rec is_dangling_model build_fields nested_tables).
Local Abbreviation factory := (serializer_factory is_dangling_model build_fields nested_tables).
Local Abbreviation cached st k := (List.find (has_key k) (_serializer_factory_cache st)).

(** *** The cache *)

Lemma find_has_key (k : cache_key Model) (cache : LRUCache Model) kv :
  List.find (has_key k) cache = Some kv -> kv.1 = k.
Proof.
  intros Hf. apply find_some in Hf as [_ Hk].
  unfold has_key in Hk. by apply bool_decide_eq_true in Hk.
Qed.





Lemma getitem_miss (k : cache_key Model) (cache : LRUCache Model) :
  cache_getitem k cache = None <-> List.find (has_key k) cache = None.
Proof.
  unfold cache_getitem. destruct (List.find (has_key k) cache) as [[? ?]|]; split; done.
Qed.

(** *** The fuel is enough *)

Lemma nested_relations_some
    (f : state Model -> model_arg Model -> Z -> Z -> option (state Model * outcome exn (SerializerClass Model)))
    items nesting_level :
  (forall st m d, f st m d (nesting_level + 1)%Z <> None) ->
  forall st, _generate_nested_relations f st items nesting_level <> None.
Proof.
  intros Hf. induction items as [|[name rm] items IH]; intros st; simpl; [done|].
  specialize (Hf st (ModelClass rm) 0%Z).
  destruct (f st (ModelClass rm) 0%Z (nesting_level + 1)%Z) as [[st1 [c|e]]|]; [|done|done].
  specialize (IH st1).
  destruct (_generate_nested_relations f st1 items nesting_level) as [[st2 [l|e]]|]; done.
Qed.

Lemma factory_rec_some fuel :
  forall st model depth nesting_level,
    (Z.to_nat (MAX_EMBED_NESTING_LEVEL - nesting_level) < fuel)%nat ->
    factory_rec fuel st model depth nesting_level <> None.
Proof.
  induction fuel as [|fuel IH]; intros st model depth nl Hlt; [lia|].
  simpl. destruct (cache_getitem _ _) as [[v c]|]; [done|].
  destruct (nl >=? MAX_EMBED_NESTING_LEVEL)%Z eqn:Hnl; [done|].
  destruct (_validate_model _ model) as [m|e]; [|done].
  destruct (build_fields m depth) as [fields|msg]; [|done].
  pose proof (nested_relations_some (factory_rec fuel) (nested_tables m) nl) as Hn.
  assert (Hrec : forall st m d, factory_rec fuel st m d (nl + 1)%Z <> None).
  { intros. apply IH. rewrite Z.geb_leb in Hnl. apply Z.leb_gt in Hnl. unfold MAX_EMBED_NESTING_LEVEL in *. lia. }
  specialize (Hn Hrec st).
  destruct (_generate_nested_relations _ st _ nl) as [[st2 [l|e]]|]; done.
Qed.

(** [serializer_factory] always comes back: with a class or with an
    exception. *)
Lemma serializer_factory_total st model depth nesting_level :
  exists st' r, factory st model depth nesting_level = Some (st', r).
Proof.
  pose proof (factory_rec_some (fuel_for nesting_level) st model depth nesting_level) as Hs.
  unfold serializer_factory.
  destruct (factory_rec _ st model depth nesting_level) as [[st' r]|].
  - eauto.
  - exfalso. apply Hs; [unfold fuel_for; lia | done].
Qed.

(** *** What a call leaves in the cache *)



(** On a miss at a nesting level below the bound, a table without nested
    tables is built without any recursive call. *)
Lemma factory_rec_leaf fuel st model depth nesting_level st' :
  (forall m, model = ModelClass m -> nested_tables m = []) ->
  factory_rec fuel st model depth nesting_level
    = Some (st', Raises RecursionInEmbeddedNesting) ->
  (MAX_EMBED_NESTING_LEVEL <= nesting_level)%Z.
Proof.
  intros Hleaf. destruct fuel as [|fuel]; [done|]. simpl.
  destruct (cache_getitem _ _) as [[v cache']|]; [done|].
  destruct (nesting_level >=? _)%Z eqn:Hnl.
  { intros _. rewrite Z.geb_leb in Hnl. by apply Z.leb_le in Hnl. }
  destruct model as [name|o|m]; simpl; [done|done|].
  destruct (is_dangling_model m); [done|].
  destruct (build_fields m depth) as [fields|msg]; [|done].
  rewrite (Hleaf m eq_refl). simpl. done.
Qed.

(** C8 (amended): on a cache miss the factory raises the recursion-limit
    error as soon as the nesting level reaches the bound 10 (at level 10
    already, and at 11); at a nesting level of at most 9, building a table
    without nested tables never raises it. *)
Theorem recursion_limit_at_bound st model depth nesting_level :
  cache_getitem (model, depth) (_serializer_factory_cache st) = None ->
  ((MAX_EMBED_NESTING_LEVEL <= nesting_level)%Z ->
     factory st model depth nesting_level
       = Some (st, Raises RecursionInEmbeddedNesting))
  /\ ((nesting_level < MAX_EMBED_NESTING_LEVEL)%Z ->
      (forall m, model = ModelClass m -> nested_tables m = []) ->
      forall st', factory st model depth nesting_level
                    <> Some (st', Raises RecursionInEmbeddedNesting)).
Proof.
  intros Hmiss. split.
  - intros Hge. unfold serializer_factory, fuel_for. simpl.
    unfold _serializer_cache_key. rewrite Hmiss.
    destruct (nesting_level >=? _)%Z eqn:Hnl; [done|].
    rewrite Z.geb_leb in Hnl. apply Z.leb_gt in Hnl. lia.
  - intros Hlt Hleaf st' Hr. unfold serializer_factory in Hr.
    apply factory_rec_leaf in Hr; [lia | done].
Qed.

(** *** The cache stays sound and bounded *)

Lemma find_elem_of (k : cache_key Model) (cache : LRUCache Model) kv :
  List.find (has_key k) cache = Some kv -> kv ∈ cache.
Proof. intros Hf. apply find_some in Hf as [Hin _]. by apply list_elem_of_In. Qed.

Lemma elem_of_others (k : cache_key Model) (cache : LRUCache Model) kv :
  kv ∈ List.filter (fun kv => negb (has_key k kv)) cache -> kv ∈ cache.
Proof.
  intros Hin. apply list_elem_of_In, filter_In in Hin as [Hin _].
  by apply list_elem_of_In.
Qed.

Lemma getitem_coherent (k : cache_key Model) (cache cache' : LRUCache Model) v :
  coherent cache -> cache_getitem k cache = Some (v, cache') ->
  coherent cache' /\ k = (ModelClass (class_model v), class_depth v).
Proof.
  intros Hc. unfold cache_getitem.
  destruct (List.find (has_key k) cache) as [[k' v']|] eqn:Hf; [|done].
  intros [= <- <-].
  pose proof (find_has_key _ _ _ Hf) as Hk. simpl in Hk. subst k'.
  apply find_elem_of in Hf. split; [|by apply Hc].
  intros k2 c2 Hin. apply elem_of_cons in Hin as [[= -> ->]|Hin].
  - by apply Hc.
  - by apply Hc, (elem_of_others k).
Qed.

Lemma setitem_coherent (cache : LRUCache Model) (v : SerializerClass Model) :
  coherent cache ->
  coherent (cache_setitem (ModelClass (class_model v), class_depth v) v cache).
Proof.
  intros Hc k2 c2. unfold cache_setitem.
  destruct (List.find _ cache); [|destruct (_ >? _)%Z].
  - intros Hin. apply elem_of_cons in Hin as [[= -> ->]|Hin]; [done|].
    by eapply Hc, elem_of_others.
  - intros Hin. apply elem_of_cons in Hin as [[= -> ->]|Hin]; [done|].
    by apply Hc, (subseteq_take (Z.to_nat (maxsize - 1)) cache).
  - intros Hin. apply elem_of_cons in Hin as [[= -> ->]|Hin]; [done|].
    by apply Hc.
Qed.

Lemma length_others (k : cache_key Model) (cache : LRUCache Model) kv :
  List.find (has_key k) cache = Some kv ->
  (length (List.filter (fun kv => negb (has_key k kv)) cache) < length cache)%nat.
Proof.
  induction cache as [|x cache IH]; [done|]. simpl.
  destruct (has_key k x) eqn:E; simpl.
  - intros _. pose proof (filter_length_le (fun kv => negb (has_key k kv)) cache).
    unfold lt. apply le_n_S. done.
  - intros Hf. specialize (IH Hf). lia.
Qed.

Lemma getitem_bounded (k : cache_key Model) (cache cache' : LRUCache Model) v :
  cache_getitem k cache = Some (v, cache') ->
  (length cache' <= length cache)%nat.
Proof.
  unfold cache_getitem.
  destruct (List.find (has_key k) cache) as [[k' v']|] eqn:Hf; [|done].
  intros [= <- <-]. simpl. apply length_others in Hf. lia.
Qed.

Lemma setitem_bounded (k : cache_key Model) v (cache : LRUCache Model) :
  (Z.of_nat (length cache) <= maxsize)%Z ->
  (Z.of_nat (length (cache_setitem k v cache)) <= maxsize)%Z.
Proof.
  intros Hb. unfold cache_setitem.
  destruct (List.find (has_key k) cache) as [kv|] eqn:Hf.
  - apply length_others in Hf. simpl. lia.
  - destruct (_ >? _)%Z eqn:E; simpl.
    + rewrite length_take. unfold maxsize in *. lia.
    + rewrite Z.gtb_ltb in E. apply Z.ltb_ge in E. lia.
Qed.

(** What every call keeps, whether it returns or raises. *)
Local Abbreviation kept st :=
  (coherent (_serializer_factory_cache st)
   /\ Z.le (Z.of_nat (length (_serializer_factory_cache st))) maxsize).

Lemma nested_relations_kept
    (f : state Model -> model_arg Model -> Z -> Z ->
         option (state Model * outcome exn (SerializerClass Model)))
    items nesting_level :
  (forall st m d st' r, kept st -> f st m d (nesting_level + 1)%Z = Some (st', r) ->
                        kept st') ->
  forall st st' r, kept st ->
    _generate_nested_relations f st items nesting_level = Some (st', r) ->
    kept st'.
Proof.
  intros Hf. induction items as [|[name rm] items IH]; intros st st' r Hk; simpl.
  { by intros [= <- <-]. }
  destruct (f st (ModelClass rm) 0%Z (nesting_level + 1)%Z) as [[st1 [c|e]]|] eqn:E1;
    [|intros [= <- <-]; by eapply Hf|done].
  pose proof (Hf _ _ _ _ _ Hk E1) as Hk1.
  destruct (_generate_nested_relations f st1 items nesting_level)
    as [[st2 [l|e]]|] eqn:E2; [| |done].
  - intros [= <- <-]. by eapply IH.
  - intros [= <- <-]. by eapply IH.
Qed.

Lemma factory_rec_kept fuel : forall st model depth nesting_level st' r,
  kept st ->
  factory_rec fuel st model depth nesting_level = Some (st', r) ->
  kept st'
  /\ forall c, r = Returns c ->
       model = ModelClass (class_model c) /\ depth = class_depth c.
Proof.
  induction fuel as [|fuel IH]; intros st model depth nl st' r Hk; [done|].
  simpl. unfold _serializer_cache_key.
  destruct (cache_getitem _ _) as [[v cache']|] eqn:Hget.
  - intros [= <- <-]. destruct Hk as [Hc Hb]. simpl.
    destruct (getitem_coherent _ _ _ _ Hc Hget) as [Hc' [= -> ->]].
    apply getitem_bounded in Hget.
    split; [split; [done|lia]|]. by intros c [= <-].
  - destruct (nl >=? _)%Z; [intros [= <- <-]; by split|].
    destruct model as [name|o|m]; simpl; [intros [= <- <-]; by split..|].
    destruct (is_dangling_model m); [intros [= <- <-]; by split|].
    destruct (build_fields m depth) as [fields|msg]; [|intros [= <- <-]; by split].
    destruct (_generate_nested_relations _ st _ nl) as [[st2 [l|e]]|] eqn:Hn;
      [| |done].
    + assert (Hk2 : kept st2).
      { eapply (nested_relations_kept (factory_rec fuel)); [|exact Hk|exact Hn].
        intros s m' d s' r' Hs Hr. by destruct (IH _ _ _ _ _ _ Hs Hr). }
      intros [= <- <-]. simpl. destruct Hk2 as [Hc2 Hb2]. split.
      * split.
        -- apply (setitem_coherent _
                    (mkSerializerClass (classes_created st2) m depth fields l) Hc2).
        -- by apply setitem_bounded.
      * by intros c [= <-].
    + intros [= <- <-]. split; [|done].
      eapply (nested_relations_kept (factory_rec fuel)); [|exact Hk|exact Hn].
      intros s m' d s' r' Hs Hr. by destruct (IH _ _ _ _ _ _ Hs Hr).
Qed.

(** X15: the cache answers for what it holds.  When every cached class is
    filed under its own model and depth — as in an empty cache — this is
    still so after any call of the factory, and the class a call returns is
    a class of the model and of the depth that were asked for. *)
Theorem factory_returns_class_of_model st model depth nesting_level st' r :
  coherent (_serializer_factory_cache st) ->
  (Z.of_nat (length (_serializer_factory_cache st)) <= maxsize)%Z ->
  factory st model depth nesting_level = Some (st', r) ->
  coherent (_serializer_factory_cache st')
  /\ forall c, r = Returns c ->
       model = ModelClass (class_model c) /\ depth = class_depth c.
Proof.
  intros Hc Hb Hf.
  destruct (factory_rec_kept _ _ _ _ _ _ _ (conj Hc Hb) Hf) as [[Hc' _] Hr].
  by split.
Qed.

(** X16: the cache is bounded: when it holds at most [maxsize] classes, it
    still does after any call of the factory. *)
Theorem factory_cache_bounded st model depth nesting_level st' r :
  coherent (_serializer_factory_cache st) ->
  (Z.of_nat (length (_serializer_factory_cache st)) <= maxsize)%Z ->
  factory st model depth nesting_level = Some (st', r) ->
  (Z.of_nat (length (_serializer_factory_cache st')) <= maxsize)%Z.
Proof.
  intros Hc Hb Hf.
  by destruct (factory_rec_kept _ _ _ _ _ _ _ (conj Hc Hb) Hf) as [[_ Hb'] _].
Qed.

(** *** Nested tables below the bound are built *)

Lemma nested_relations_built
    (f : state Model -> model_arg Model -> Z -> Z ->
         option (state Model * outcome exn (SerializerClass Model)))
    items nesting_level :
  (forall st name rm, (name, rm) ∈ items ->
     exists st' c, f st (ModelClass rm) 0%Z (nesting_level + 1)%Z
                   = Some (st', Returns c)) ->
  forall st, exists st' l,
    _generate_nested_relations f st items nesting_level = Some (st', Returns l).
Proof.
  induction items as [|[name rm] items IH]; intros Hf st; simpl; [eauto|].
  destruct (Hf st name rm) as (st1 & c & ->); [left|].
  destruct (IH (fun s n r H => Hf s n r (list_elem_of_further _ _ _ H)) st1)
    as (st2 & l & ->).
  eauto.
Qed.

Lemma factory_rec_builds levels : forall fuel st m depth nesting_level,
  (levels < fuel)%nat ->
  (nesting_level + Z.of_nat levels < MAX_EMBED_NESTING_LEVEL)%Z ->
  buildable is_dangling_model build_fields nested_tables levels depth m ->
  exists st' c,
    factory_rec fuel st (ModelClass m) depth nesting_level = Some (st', Returns c).
Proof.
  induction levels as [|levels IH];
    intros fuel st m depth nl Hfuel Hnl (Hd & [fields Hb] & Hnest);
    (destruct fuel as [|fuel]; [lia|]); simpl; unfold _serializer_cache_key;
    (destruct (cache_getitem _ _) as [[v cache']|]; [eauto|]);
    (destruct (nl >=? _)%Z eqn:E;
       [rewrite Z.geb_leb in E; apply Z.leb_le in E; lia|]);
    simpl; rewrite Hd, Hb.
  - rewrite Hnest. simpl. eauto.
  - destruct (nested_relations_built (factory_rec fuel) (nested_tables m) nl)
      with (st := st) as (st2 & l & ->); [|eauto].
    intros s name rm Hin. apply IH; [lia|lia|]. by eapply Hnest.
Qed.

(** X17: a tree of nested tables that stays below the nesting bound is
    built.  When a current model and the nested tables below it, [levels]
    deep, all have fields that can be built, a call at a nesting level with
    [nesting_level + levels < 10] returns a serializer class, whatever the
    cache holds: the recursion guard does not trip. *)
Theorem nested_tables_below_bound_are_built levels st m depth nesting_level :
  buildable is_dangling_model build_fields nested_tables levels depth m ->
  (nesting_level + Z.of_nat levels < MAX_EMBED_NESTING_LEVEL)%Z ->
  exists st' c,
    factory st (ModelClass m) depth nesting_level = Some (st', Returns c).
Proof.
  intros Hb Hnl. apply (factory_rec_builds levels); [|done..].
  unfold fuel_for. unfold MAX_EMBED_NESTING_LEVEL in *. lia.
Qed.


End Facts.

Import ExampleModels.


(** At nesting level 10 the factory raises the recursion-limit error. *)
Lemma nesting_level_10_raises :
  factory empty (ModelClass Child) 0 10
    = Some (empty, Raises RecursionInEmbeddedNesting).
Proof. reflexivity. Qed.

Lemma recursion_limit_at_bound_witness :
  factory empty (ModelClass Child) 0 10
    = Some (empty, Raises RecursionInEmbeddedNesting)
  /\ (forall st', factory empty (ModelClass Child) 0 9
                  <> Some (st', Raises RecursionInEmbeddedNesting)).
Proof.
  split.
  - destruct (recursion_limit_at_bound dangling body_fields nested
                empty (ModelClass Child) 0 10 eq_refl) as [H1 _].
    apply H1. vm_compute. discriminate.
  - destruct (recursion_limit_at_bound dangling body_fields nested
                empty (ModelClass Child) 0 9 eq_refl) as [_ H2].
    apply H2; [reflexivity|]. by intros m [= <-].
Defined.

(** A table with a nested table, one level below the bound: the error comes
    from the nested build. *)
Example nested_table_below_bound :
  factory empty (ModelClass Parent) 0 9
    = Some (empty, Raises RecursionInEmbeddedNesting).
Proof. reflexivity. Qed.

(** A cached class is returned at any nesting level. *)
Example cached_beyond_bound :
  exists st c,
    factory empty (ModelClass Child) 0 0 = Some (st, Returns c)
    /\ factory st (ModelClass Child) 0 11 = Some (st, Returns c).
Proof. eexists _, _. split; reflexivity. Qed.

Lemma factory_returns_class_of_model_witness :
  exists st' c,
    factory empty (ModelClass Parent) 0 0 = Some (st', Returns c)
    /\ coherent (_serializer_factory_cache st')
    /\ ModelClass Parent = ModelClass (class_model c) /\ 0%Z = class_depth c.
Proof.
  destruct (factory empty (ModelClass Parent) 0 0) as [[st' [c|e]]|] eqn:E;
    [|vm_compute in E; discriminate..].
  destruct (factory_returns_class_of_model dangling body_fields nested
              empty (ModelClass Parent) 0 0 st' (Returns c)) as [Hc Hr].
  - intros k c' Hin. by apply elem_of_nil in Hin.
  - vm_compute. discriminate.
  - exact E.
  - exists st', c. destruct (Hr c eq_refl). auto.
Defined.

Lemma factory_cache_bounded_witness :
  exists st' r,
    factory empty (ModelClass Parent) 0 0 = Some (st', r)
    /\ (Z.of_nat (length (_serializer_factory_cache st')) <= maxsize)%Z.
Proof.
  destruct (factory empty (ModelClass Parent) 0 0) as [[st' r]|] eqn:E;
    [|vm_compute in E; discriminate].
  exists st', r. split; [done|].
  apply (factory_cache_bounded dangling body_fields nested
           empty (ModelClass Parent) 0 0 st' r).
  - intros k c' Hin. by apply elem_of_nil in Hin.
  - vm_compute. discriminate.
  - exact E.
Defined.

Lemma nested_tables_below_bound_are_built_witness :
  exists st' c, factory empty (ModelClass Parent) 0 8 = Some (st', Returns c).
Proof.
  apply (nested_tables_below_bound_are_built dangling body_fields nested 1).
  - split; [done|]. split; [by eexists|].
    intros name rm Hin. apply list_elem_of_singleton in Hin as [= -> ->].
    split; [done|]. split; [by eexists|done].
  - vm_compute. reflexivity.
Defined.

End FactoryFacts.

(* ====================================================================== *)
(** * Properties of the filter on expanded fields *)
(* ====================================================================== *)
Module ExpandFacts.
Import Permissions Expands.

Section Facts.
Context `{SM : SchemaModel}.
Variable user_scopes : UserScopes.
Variable has_table_access : DatasetTableSchema -> bool.

Local Abbreviation permitted := (permitted user_scopes has_table_access).
Local Abbreviation visit_match := (visit_match user_scopes has_table_access).
Local Abbreviation deep_permitted := (deep_permitted user_scopes has_table_access).
Local Abbreviation filter_unauthorized_expands :=
  (filter_unauthorized_expands user_scopes has_table_access).

(** Induction on a match, with its nested expands. *)
Lemma match_nested_ind (P : EmbeddedFieldMatch -> Prop) :
  (forall name f t scope e,
     match e with Some l => Forall P l | None => True end ->
     P (mkMatch name f t scope e)) ->
  forall m, P m.
Proof.
  intros H. fix IH 1. intros [name f t scope e]. apply H.
  destruct e as [l|]; [|exact I].
  induction l as [|x l IHl]; constructor; [apply IH|exact IHl].
Qed.

(** X13: with [skip_unauth] the filter never raises: it returns the matches
    that are permitted, in their order, and does not look at nested
    expands. *)
Theorem skip_unauth_filters (expanded_fields : list EmbeddedFieldMatch) :
  filter_unauthorized_expands expanded_fields true
  = Returns (List.filter permitted expanded_fields).
Proof.
  unfold Expands.filter_unauthorized_expands.
  induction expanded_fields as [|m l IH]; [done|].
  cbn [expands_loop List.filter]. cbn [expands_loop] in IH. rewrite IH.
  destruct m as [name f t scope e]. unfold Expands.permitted. cbn.
  by destruct (has_field_access user_scopes f && has_table_access t).
Qed.

Lemma within_cons_tail (x m : EmbeddedFieldMatch) l :
  within x l -> within x (m :: l).
Proof.
  intros [l' Hin|l' y nested Hy He Hw].
  - apply within_here. by apply list_elem_of_further.
  - eapply within_nested; [by apply list_elem_of_further|done..].
Qed.

Local Abbreviation visit_spec m :=
  (if deep_permitted m then visit_match false m = Returns true
   else exists x, visit_match false m = Raises (EagerLoadingNotAllowed (full_name x))
                  /\ within x [m] /\ permitted x = false).

Lemma loop_spec (l : list EmbeddedFieldMatch) :
  Forall (fun m => visit_spec m) l ->
  if forallb deep_permitted l
  then expands_loop (visit_match false) l = Returns l
  else exists x,
         expands_loop (visit_match false) l
           = Raises (EagerLoadingNotAllowed (full_name x))
         /\ within x l /\ permitted x = false.
Proof.
  induction 1 as [|m l Hm Hl IH]; [done|].
  cbn [forallb expands_loop]. cbn [expands_loop] in IH.
  destruct (deep_permitted m).
  - rewrite Hm. cbn [andb]. destruct (forallb deep_permitted l).
    + by rewrite IH.
    + destruct IH as (x & -> & Hw & Hx). exists x. split; [done|].
      split; [by apply within_cons_tail|done].
  - cbn [andb]. destruct Hm as (x & -> & Hw & Hx). exists x. split; [done|].
    split; [|done].
    inversion Hw as [l' Hin|l' y nested Hy He Hw']; subst.
    + apply list_elem_of_singleton in Hin as ->. apply within_here, list_elem_of_here.
    + apply list_elem_of_singleton in Hy as ->.
      eapply within_nested; [apply list_elem_of_here|done..].
Qed.

Lemma visit_match_spec (m : EmbeddedFieldMatch) : visit_spec m.
Proof.
  induction m as [name f t scope e IH] using match_nested_ind.
  cbn [Expands.deep_permitted Expands.visit_match].
  destruct (has_field_access user_scopes f && has_table_access t) eqn:Hp;
    cbn [andb negb].
  - destruct scope; [|done]. destruct e as [l|]; [|done].
    pose proof (loop_spec l IH) as Hl.
    destruct (forallb deep_permitted l).
    + by rewrite Hl.
    + destruct Hl as (x & -> & Hw & Hx). exists x. split; [done|].
      split; [|done]. eapply within_nested; [apply list_elem_of_here|done..].
  - exists (mkMatch name f t scope e). split; [done|].
    split; [apply within_here, list_elem_of_here|]. exact Hp.
Qed.

(** X14: without [skip_unauth] the filter is all or nothing: it returns the
    matches as they are when every one of them, and every nested expand
    that is looked at, is permitted; otherwise it raises, and the field
    named in the message is one of those matches, and is not permitted. *)
Theorem explicit_expands_all_or_nothing (expanded_fields : list EmbeddedFieldMatch) :
  if forallb deep_permitted expanded_fields
  then filter_unauthorized_expands expanded_fields false = Returns expanded_fields
  else exists x,
         filter_unauthorized_expands expanded_fields false
           = Raises (EagerLoadingNotAllowed (full_name x))
         /\ within x expanded_fields /\ permitted x = false.
Proof.
  apply loop_spec. apply Forall_forall. intros m _. apply visit_match_spec.
Qed.

End Facts.
End ExpandFacts.

(* ====================================================================== *)
(** * Facts about the link serializers *)
(* ====================================================================== *)
Module LinkFacts.
Import Links.
Open Scope string_scope.

Section Facts.
Context {Model : Type}.
Variable is_temporal : Model -> bool.
Variable has_display_field : Model -> bool.
Variable get_display_field : Model -> string.
Variable identifier : Model -> list string.
Variable temporal_identifier : Model -> string.
Variable field_name_by_id : Model -> string -> option string.
Variable toCamelCase : string -> string.
Variable to_snake_case : string -> string.

Local Abbreviation nontemporal :=
  (_nontemporal_link_serializer_factory is_temporal has_display_field
     get_display_field identifier toCamelCase to_snake_case).
Local Abbreviation temporal :=
  (_temporal_link_serializer_factory is_temporal has_display_field
     get_display_field identifier temporal_identifier field_name_by_id
     toCamelCase to_snake_case).

(** X18: the link serializer of a table that is not temporal is assembled
    whatever its display field is called.  With a non-empty identifier the
    factory returns, the fields are [href], [title] when there is a display
    field, and the camel-cased first identifier, and the [title] field reads
    the display field, or has no source of its own when the display field is
    itself called [title]. *)
Theorem nontemporal_link_is_assembled m primary_id others :
  is_temporal m = false ->
  identifier m = primary_id :: others ->
  exists part,
    nontemporal m = Returns part
    /\ meta_fields part
       = ("href" :: (if has_display_field m then ["title"] else [])
            ++ [toCamelCase primary_id])%list
    /\ dict_get "title" (class_attrs part)
       = (if has_display_field m
          then Some (CharField (if String.eqb (get_display_field m) "title"
                                then None else Some (get_display_field m)))
          else None).
Proof.
  intros Ht Hid. unfold _nontemporal_link_serializer_factory.
  rewrite Ht, Hid. cbn.
  destruct (has_display_field m); cbn; [|eauto].
  destruct (String.eqb (get_display_field m) "title") eqn:E; cbn.
  - eauto.
  - unfold add_field, source_is. cbn. rewrite E. cbn. eauto.
Qed.

(** X19: the link serializer of a temporal table with a display field
    cannot be assembled when that field is called [title]: the factory
    raises the redundant-source error exactly then. *)
Theorem temporal_link_title_clash m :
  is_temporal m = true ->
  has_display_field m = true ->
  _temporal_link_serializer_factory is_temporal has_display_field
    get_display_field identifier temporal_identifier field_name_by_id
    toCamelCase to_snake_case m = Raises RedundantSource
  <-> get_display_field m = "title".
Proof.
  intros Ht Hd. unfold _temporal_link_serializer_factory.
  rewrite Ht, Hd. cbn. unfold add_field at 1, source_is. cbn.
  destruct (String.eqb (get_display_field m) "title") eqn:E.
  - apply String.eqb_eq in E. done.
  - apply String.eqb_neq in E. split; [|done].
    unfold get_field_by_id_name.
    destruct (field_name_by_id m (temporal_identifier m)); [|done].
    destruct (identifier m) as [|id ids]; [done|]. cbn.
    destruct (field_name_by_id m id); done.
Qed.

End Facts.
Import ExampleLinks.

Lemma nontemporal_link_is_assembled_witness :
  exists part,
    nontemporal_link Plain = Returns part
    /\ meta_fields part = ["href"; "title"; "id"]
    /\ dict_get "title" (class_attrs part) = Some (CharField None).
Proof.
  exact (nontemporal_link_is_assembled temporal_model (fun _ => true)
           (fun _ => "title") model_identifier (fun s => s) (fun s => s)
           Plain "id" [] eq_refl eq_refl).
Defined.

Lemma temporal_link_title_clash_witness :
  temporal_link Versioned = Raises RedundantSource.
Proof.
  apply (temporal_link_title_clash temporal_model (fun _ => true)
           (fun _ => "title") model_identifier (fun _ => "volgnummer")
           (fun _ id => Some id) (fun s => s) (fun s => s)
           Versioned eq_refl eq_refl).
  reflexivity.
Defined.

End LinkFacts.

(* ====================================================================== *)
(** * Facts about temporal keys *)
(* ====================================================================== *)
Module TemporalFacts.
Import Temporal.
Open Scope string_scope.

Lemma chars_app (a b : string) :
  String.list_ascii_of_string (a ++ b)
  = (String.list_ascii_of_string a ++ String.list_ascii_of_string b)%list.
Proof.
  induction a as [|c a IH]; [done|].
  change (String.list_ascii_of_string (String c (a ++ b))
          = (c :: String.list_ascii_of_string a ++ String.list_ascii_of_string b)%list).
  simpl. by rewrite IH.
Qed.

Lemma string_of_chars_app (l1 l2 : list ascii) :
  String.string_of_list_ascii (l1 ++ l2)
  = String.string_of_list_ascii l1 ++ String.string_of_list_ascii l2.
Proof.
  induction l1 as [|c l1 IH]; [done|].
  change (String c (String.string_of_list_ascii (l1 ++ l2))
          = String c (String.string_of_list_ascii l1 ++ String.string_of_list_ascii l2)).
  by rewrite IH.
Qed.

Lemma split_1_none (l : list ascii) :
  existsb PK_SPLIT l = false -> PK_SPLIT_split_1 l = [l].
Proof.
  induction l as [|c l IH]; [done|]. simpl.
  intros [Hc Hl]%orb_false_iff. rewrite Hc. by rewrite (IH Hl).
Qed.

Lemma split_1_first (l1 l2 : list ascii) (c : ascii) :
  existsb PK_SPLIT l1 = false -> PK_SPLIT c = true ->
  PK_SPLIT_split_1 (l1 ++ c :: l2) = [l1; l2].
Proof.
  intros H1 Hc. induction l1 as [|x l1 IH]; simpl.
  - by rewrite Hc.
  - simpl in H1. apply orb_false_iff in H1 as [Hx H1].
    rewrite Hx. by rewrite (IH H1).
Qed.

Lemma split_1_cases (l : list ascii) :
  (existsb PK_SPLIT l = false /\ PK_SPLIT_split_1 l = [l])
  \/ (exists l1 c l2, l = (l1 ++ c :: l2)%list /\ existsb PK_SPLIT l1 = false
                      /\ PK_SPLIT c = true /\ PK_SPLIT_split_1 l = [l1; l2]).
Proof.
  destruct (existsb PK_SPLIT l) eqn:E.
  - right. induction l as [|c l IH]; [done|]. simpl in E.
    destruct (PK_SPLIT c) eqn:Hc.
    + exists [], c, l. simpl. by rewrite Hc.
    + simpl in E. destruct (IH E) as (l1 & x & l2 & -> & H1 & Hx & Hs).
      exists (c :: l1), x, l2. simpl. rewrite Hc, H1, Hs. done.
  - left. split; [done|]. by apply split_1_none.
Qed.

Lemma existsb_reverse {A} (f : A -> bool) (l : list A) :
  existsb f (rev l) = existsb f l.
Proof.
  induction l as [|x l IH]; [done|]. simpl.
  rewrite existsb_app, IH. simpl. rewrite orb_false_r. apply orb_comm.
Qed.

Lemma chars_reversed (s : string) :
  String.list_ascii_of_string (reversed s) = rev (String.list_ascii_of_string s).
Proof. apply String.list_ascii_of_string_of_list_ascii. Qed.

Lemma reversed_chars (l : list ascii) :
  reversed (String.string_of_list_ascii l) = String.string_of_list_ascii (rev l).
Proof. unfold reversed. by rewrite String.list_ascii_of_string_of_list_ascii. Qed.

Lemma split_none (value : string) :
  has_separator value = false -> split_on_separator value = [value].
Proof.
  unfold has_separator, split_on_separator. intros H.
  rewrite chars_reversed, split_1_none by by rewrite existsb_reverse.
  simpl. rewrite reversed_chars, rev_involutive.
  by rewrite String.string_of_list_ascii_of_string.
Qed.

Lemma split_last (id version : string) (sep : ascii) :
  PK_SPLIT sep = true ->
  has_separator version = false ->
  split_on_separator (id ++ String sep version) = [id; version].
Proof.
  unfold has_separator, split_on_separator. intros Hsep Hv.
  rewrite chars_reversed, chars_app. simpl. rewrite rev_app_distr. simpl.
  rewrite <- app_assoc. simpl.
  rewrite split_1_first by (by rewrite ?existsb_reverse).
  simpl. rewrite !reversed_chars, !rev_involutive.
  by rewrite !String.string_of_list_ascii_of_string.
Qed.

Lemma split_cases (value : string) :
  (has_separator value = false /\ split_on_separator value = [value])
  \/ (exists id sep version,
        value = id ++ String sep version
        /\ PK_SPLIT sep = true
        /\ has_separator version = false
        /\ split_on_separator value = [id; version]).
Proof.
  destruct (has_separator value) eqn:E.
  - right. unfold has_separator in E. rewrite <- existsb_reverse in E.
    destruct (split_1_cases (rev (String.list_ascii_of_string value)))
      as [[H _]|(l1 & c & l2 & Hl & H1 & Hc & Hs)]; [congruence|].
    exists (String.string_of_list_ascii (rev l2)), c, (String.string_of_list_ascii (rev l1)).
    assert (Hv : value = String.string_of_list_ascii (rev l2)
                         ++ String c (String.string_of_list_ascii (rev l1))).
    { rewrite <- (String.string_of_list_ascii_of_string value).
      rewrite <- (rev_involutive (String.list_ascii_of_string value)), Hl.
      rewrite rev_app_distr. simpl. rewrite <- app_assoc. simpl.
      by rewrite string_of_chars_app. }
    split; [done|]. split; [done|]. split.
    + unfold has_separator.
      by rewrite String.list_ascii_of_string_of_list_ascii, existsb_reverse.
    + unfold split_on_separator. rewrite chars_reversed, Hs. simpl.
      by rewrite !reversed_chars.
  - left. split; [done|]. by apply split_none.
Qed.

(** X20: a key is split at its last separator.  Whatever the identifier
    holds, when the version after the separator holds no dot and no
    underscore, the split gives back the identifier and the version. *)
Theorem split_on_last_separator (id version : string) (sep : ascii) :
  PK_SPLIT sep = true ->
  has_separator version = false ->
  split_on_separator (id ++ String sep version) = [id; version].
Proof. apply split_last. Qed.

(** X21: what a split gives can be joined again.  A value without a dot or
    underscore comes back whole, as the only part; any other value comes
    back in two parts that, with the separator between them, are the value,
    and the second part holds no separator. *)
Theorem split_on_separator_joins (value : string) :
  (has_separator value = false /\ split_on_separator value = [value])
  \/ (exists id sep version,
        value = id ++ String sep version
        /\ PK_SPLIT sep = true
        /\ has_separator version = false
        /\ split_on_separator value = [id; version]).
Proof. apply split_cases. Qed.

(** X22: on a versioned request the read-only key field shows the
    identifier without its version, and leaves a value without separator as
    it is; without a request, or on a request that is not versioned, every
    value is shown as it is. *)
Theorem to_representation_strips_version (request : option Request)
    (id version : string) (sep : ascii) :
  PK_SPLIT sep = true ->
  has_separator version = false ->
  to_representation request (id ++ String sep version)
    = Returns (if match request with Some r => versioned r | None => false end
               then id else id ++ String sep version)
  /\ to_representation request version = Returns version.
Proof.
  intros Hsep Hv. unfold to_representation.
  rewrite (split_last id version sep Hsep Hv), (split_none _ Hv).
  destruct request as [r|]; [|done]. by destruct (versioned r).
Qed.

Section Links.
Variable reverse : string -> string.

(** X23: the link to a temporal object cannot be made from a key without
    separator.  [get_url] raises the unpacking error exactly when the
    request is versioned, the object is temporal and its key, which is not
    empty, holds no dot and no underscore. *)
Theorem get_url_needs_versioned_key (obj : Obj) (request : Request) :
  get_url reverse obj request = Raises ValueError
  <-> exists obj_pk,
        pk obj = Some obj_pk /\ obj_pk <> "" /\ versioned request = true
        /\ is_temporal obj = true /\ has_separator obj_pk = false.
Proof.
  unfold get_url. destruct (pk obj) as [obj_pk|].
  2: { split; [done|]. by intros (? & ? & _). }
  destruct (String.eqb obj_pk "") eqn:E.
  { apply String.eqb_eq in E. split; [done|]. by intros (? & [= <-] & ? & _). }
  apply String.eqb_neq in E.
  destruct (versioned request); simpl.
  2: { split; [done|]. by intros (? & _ & _ & ? & _). }
  destruct (is_temporal obj).
  2: { split; [done|]. by intros (? & _ & _ & _ & ? & _). }
  destruct (split_cases obj_pk)
    as [[Hn ->]|(id & sep & version & Hv & Hsep & Hver & ->)].
  - split; [|done]. intros _. by exists obj_pk.
  - split.
    + destruct (dataset_temporal_slice request) as [[key value]|]; [done|].
      by destruct (dataset_temporal request).
    + intros (p & [= <-] & _ & _ & _ & Hp). exfalso.
      subst obj_pk. unfold has_separator in Hp. rewrite chars_app in Hp.
      rewrite existsb_app in Hp. simpl in Hp. rewrite Hsep in Hp.
      by rewrite orb_true_r in Hp.
Qed.

(** X24: the link to a version.  For a temporal object on a versioned
    request the link is the URL of the identifier followed by a query for
    the version: the temporal slice of the request when there is one, else
    the version of the object's own key under the dataset's temporal
    identifier. *)
Theorem get_url_links_version (request : Request) (id version : string)
    (sep : ascii) (identifier : option string) :
  PK_SPLIT sep = true ->
  has_separator version = false ->
  versioned request = true ->
  dataset_temporal request = Some identifier ->
  get_url reverse {| pk := Some (id ++ String sep version); is_temporal := true |}
    request
  = Returns (Some (reverse id ++ "?"
                   ++ match dataset_temporal_slice request with
                      | Some (key, value) => key ++ "=" ++ value
                      | None => format_opt identifier ++ "=" ++ version
                      end)).
Proof.
  intros Hsep Hv Hr Hd. unfold get_url. simpl.
  destruct (String.eqb (id ++ String sep version) "") eqn:E.
  { apply String.eqb_eq in E. by destruct id. }
  rewrite Hr. simpl.
  rewrite (split_last id version sep Hsep Hv), Hd.
  by destruct (dataset_temporal_slice request) as [[key value]|].
Qed.

End Links.
Import ExampleKeys.

Lemma split_on_last_separator_witness :
  split_on_separator ("0363_A" ++ String "." "2") = ["0363_A"; "2"].
Proof. apply split_on_last_separator; reflexivity. Defined.

Lemma to_representation_strips_version_witness :
  to_representation (Some versioned_request) ("0363_A" ++ String "." "2")
    = Returns "0363_A"
  /\ to_representation (Some versioned_request) "2" = Returns "2".
Proof.
  exact (to_representation_strips_version (Some versioned_request)
           "0363_A" "2" "." eq_refl eq_refl).
Defined.

Lemma get_url_links_version_witness :
  get_url detail_url {| pk := Some ("0363_A" ++ String "." "2"); is_temporal := true |}
    versioned_request
  = Returns (Some "/v1/gebieden/buurten/0363_A/?volgnummer=2").
Proof.
  exact (get_url_links_version detail_url versioned_request "0363_A" "2" "."
           (Some "volgnummer") eq_refl eq_refl eq_refl eq_refl).
Defined.

End TemporalFacts.

(* ====================================================================== *)
(** * Facts about the flattened validation errors *)
(* ====================================================================== *)
Module ViewFacts.
Import Views.
Open Scope string_scope.

Lemma detail_nested_ind (P : Detail -> Prop) :
  (forall message code, P (ErrorDetail message code)) ->
  (forall items, Forall (fun kv => P kv.2) items -> P (DictDetail items)) ->
  (forall items, Forall P items -> P (ListDetail items)) ->
  P OtherValue ->
  forall detail, P detail.
Proof.
  intros He Hd Hl Ho. fix IH 1. intros [message code|items|items|].
  - apply He.
  - apply Hd. induction items as [|[k v] items IHi]; constructor; [apply IH|exact IHi].
  - apply Hl. induction items as [|v items IHi]; constructor; [apply IH|exact IHi].
  - exact Ho.
Qed.

Section Facts.
Variable default_code : string.

Local Abbreviation flatten := (get_invalid_params default_code).

(** X25: flattening loses no error and invents none.  A detail that holds
    a value that is no error, dict or list raises [TypeError]; any other
    detail gives one entry for every error in it, from left to right, each
    with the text of its error as reason and the code of its error in its
    type. *)
Theorem get_invalid_params_keeps_every_error detail : forall field_name,
  if has_other_value detail
  then flatten detail field_name = Raises TypeError
  else exists params,
         flatten detail field_name = Returns params
         /\ map (fun p => (reason p, type p)) params
            = map (fun error => (error.1,
                                 "urn:apiexception:" ++ default_code ++ ":" ++ error.2))
                (errors_of detail).
Proof.
  induction detail as [message code|items IH|items IH|] using detail_nested_ind;
    intros field_name; simpl.
  - by eexists.
  - induction items as [|[k v] items IHi]; simpl; [by eexists|].
    apply Forall_cons in IH as [Hv IH]. specialize (IHi IH). simpl in Hv.
    specialize (Hv (Some (if truthy field_name
                          then format_name field_name ++ "." ++ k else k))).
    destruct (has_other_value v); simpl.
    + by rewrite Hv.
    + destruct Hv as (ps & -> & Hps).
      destruct (existsb _ items).
      * by rewrite IHi.
      * destruct IHi as (rest & -> & Hrest). eexists. split; [done|].
        by rewrite !map_app, Hps, Hrest.
  - generalize 0%nat.
    induction items as [|v items IHi]; intros i; simpl; [by eexists|].
    apply Forall_cons in IH as [Hv IH]. specialize (IHi IH (S i)).
    specialize (Hv (if is_dict v
                    then Some (format_name field_name ++ "[" ++ format_index i ++ "]")
                    else field_name)).
    destruct (has_other_value v); simpl.
    + by rewrite Hv.
    + destruct Hv as (ps & -> & Hps).
      destruct (existsb _ items).
      * by rewrite IHi.
      * destruct IHi as (rest & -> & Hrest). eexists. split; [done|].
        by rewrite !map_app, Hps, Hrest.
  - done.
Qed.

Lemma prefix_refl (s : string) : String.prefix s s = true.
Proof. induction s as [|c s IH]; [done|]. simpl. by destruct (ascii_dec c c). Qed.

Lemma prefix_app (s t : string) : String.prefix s (s ++ t) = true.
Proof.
  induction s as [|c s IH]; [by destruct t|].
  change (String.prefix (String c s) (String c (s ++ t)) = true).
  simpl. by destruct (ascii_dec c c).
Qed.

Lemma prefix_trans (s t u : string) :
  String.prefix s t = true -> String.prefix t u = true -> String.prefix s u = true.
Proof.
  revert t u. induction s as [|a s IH]; intros t u; [by destruct u|].
  destruct t as [|b t]; [done|]. destruct u as [|c u]; [by destruct t|]. simpl.
  destruct (ascii_dec a b) as [->|]; [|done].
  destruct (ascii_dec b c); [|done]. apply IH.
Qed.

Lemma prefix_empty (s : string) : String.prefix "" s = true.
Proof. by destruct s. Qed.

Lemma flatten_named detail : forall field params,
  flatten detail (Some field) = Returns params ->
  Forall (fun p => String.prefix field (name p) = true) params.
Proof.
  induction detail as [message code|items IH|items IH|] using detail_nested_ind;
    intros field params; simpl.
  - intros [= <-]. constructor; [|constructor]. simpl. apply prefix_refl.
  - revert params. induction items as [|[k v] items IHi]; intros params; simpl.
    { intros [= <-]. constructor. }
    apply Forall_cons in IH as [Hv IH]. specialize (IHi IH). simpl in Hv.
    destruct (flatten v _) as [ps|] eqn:E; [|done].
    destruct (dict_loop _ _ items) as [rest|]; [|done].
    intros [= <-]. apply Forall_app. split; [|by apply IHi].
    apply Hv in E. eapply Forall_impl; [exact E|].
    intros p Hp. eapply prefix_trans; [|exact Hp].
    destruct (String.eqb field "") eqn:Ef; simpl.
    + apply String.eqb_eq in Ef as ->. apply prefix_empty.
    + apply prefix_app.
  - revert params. generalize 0%nat.
    induction items as [|v items IHi]; intros i params; simpl.
    { intros [= <-]. constructor. }
    apply Forall_cons in IH as [Hv IH]. specialize (IHi IH (S i)).
    destruct (flatten v _) as [ps|] eqn:E; [|done].
    destruct (list_loop _ _ _ items) as [rest|]; [|done].
    intros [= <-]. apply Forall_app. split; [|by apply IHi].
    destruct (is_dict v).
    + apply Hv in E. eapply Forall_impl; [exact E|].
      intros p Hp. eapply prefix_trans; [|exact Hp]. apply prefix_app.
    + by apply Hv.
  - done.
Qed.

(** X26: entries are named after the field they belong to: every entry
    flattened for a field has a name that starts with the name of that
    field. *)
Theorem entries_named_after_field detail field params p :
  flatten detail (Some field) = Returns params ->
  p ∈ params ->
  String.prefix field (name p) = true.
Proof.
  intros Hf Hin. apply flatten_named in Hf.
  by apply (proj1 (Forall_forall _ _) Hf).
Qed.

(** X27: a list of dicts without a field is named after [None].  When the
    detail of the exception is a list of dicts, as it is for a serializer
    with [many=True], and no field name is given, the name of every entry
    starts with the text [None[]. *)
Theorem list_of_dicts_named_None items params p :
  Forall (fun error => is_dict error = true) items ->
  flatten (ListDetail items) None = Returns params ->
  p ∈ params ->
  String.prefix "None[" (name p) = true.
Proof.
  simpl. generalize 0%nat. revert params.
  induction items as [|v items IH]; intros params i Hd; simpl.
  { intros [= <-] Hin. by apply elem_of_nil in Hin. }
  apply Forall_cons in Hd as [Hv Hd]. rewrite Hv. simpl.
  destruct (flatten v _) as [ps|] eqn:E; [|done].
  destruct (list_loop _ _ _ items) as [rest|] eqn:Er; [|done].
  intros [= <-] Hin. apply elem_of_app in Hin as [Hin|Hin].
  - apply flatten_named in E.
    eapply prefix_trans; [|exact (proj1 (Forall_forall _ _) E p Hin)].
    apply (prefix_app "None[" (format_index i ++ "]")).
  - by eapply IH.
Qed.

End Facts.
Import ExampleErrors.

Lemma entries_named_after_field_witness :
  get_invalid_params "invalid" field_errors (Some "body") = Returns [field_param]
  /\ String.prefix "body" (name field_param) = true.
Proof.
  split; [reflexivity|].
  apply (entries_named_after_field "invalid" field_errors "body" [field_param]).
  - reflexivity.
  - apply list_elem_of_here.
Defined.

Lemma list_of_dicts_named_None_witness :
  get_invalid_params "invalid" many_errors None = Returns [many_param]
  /\ String.prefix "None[" (name many_param) = true.
Proof.
  split; [reflexivity|].
  apply (list_of_dicts_named_None "invalid"
           [DictDetail [];
            DictDetail [("naam", ListDetail [ErrorDetail "This field is required."
                                               "required"])]]
           [many_param]).
  - repeat constructor.
  - reflexivity.
  - apply list_elem_of_here.
Defined.

End ViewFacts.
